(** * pagmo::fork_island — evolution of an island in a forked child process

    A shallow embedding of [include/pagmo/islands/fork_island.hpp]: the RAII
    pipe wrapper [pipe_t], the chunked sender [send_message], the parent's
    read loop and kill-and-rethrow handler, and the child's two-stage failure
    reporting, all inside [run_evolve].

    C++ control flow is modelled by a state monad whose computations end in
    one of three ways: they return, they throw a C++ exception, or they call
    [std::exit].  Inside one process the operating system is modelled by the
    replies it gives to the system calls; every call is recorded in a trace.
    A call of [run_evolve] is the run of the child followed by the run of the
    caller, joined by a model of the pipe that replays both traces: it
    decides which bytes reach the caller and whether its reads can see the
    end of the stream.  The setters of the caller's island, whose code is
    not part of the header, are calls that may throw. *)

From Stdlib Require Import ZArith String Ascii Lia Bool DecimalString List.
From Stdlib.Strings Require Import Byte.
From Equations Require Import Equations.
Import ListNotations.
Local Open Scope Z_scope.

(** ** External collaborators *)

(** [pagmo::algorithm] and [pagmo::population] are opaque to the island: it
    only copies, default-constructs and serializes them. *)
Class Collaborators := {
  algorithm : Type;
  population : Type;
  (** [algorithm{}] *)
  algorithm_def : algorithm;
  (** [population{}] *)
  population_def : population;
}.

Section Data.
Context {C : Collaborators}.

(** [using message_t = std::tuple<int, std::string, algorithm, population>];
    the projections are [std::get<0>] ... [std::get<3>]. *)
Record message_t := mk_message {
  get0 : Z;
  get1 : string;
  get2 : algorithm;
  get3 : population;
}.

(** A value-initialised [message_t]. *)
Definition message_def : message_t :=
  mk_message 0 EmptyString algorithm_def population_def.

Definition set0 (v : Z) (ms : message_t) : message_t :=
  mk_message v (get1 ms) (get2 ms) (get3 ms).
Definition set1 (v : string) (ms : message_t) : message_t :=
  mk_message (get0 ms) v (get2 ms) (get3 ms).
Definition set2 (v : algorithm) (ms : message_t) : message_t :=
  mk_message (get0 ms) (get1 ms) v (get3 ms).
Definition set3 (v : population) (ms : message_t) : message_t :=
  mk_message (get0 ms) (get1 ms) (get2 ms) v.

(** The part of [pagmo::island] that [run_evolve] touches. *)
Record island := mk_island {
  get_algorithm : algorithm;
  get_population : population;
}.

(** Modelled from the spec: [island::set_algorithm] is declared in
    [pagmo/island.hpp], which is not among the sources.  A call that
    returns has installed the given algorithm and left the population
    alone. *)
Definition set_algorithm (a : algorithm) (i : island) : island :=
  mk_island a (get_population i).

(** Modelled from the spec: [island::set_population], from the same missing
    header.  A call that returns has installed the given population and left
    the algorithm alone. *)
Definition set_population (x : population) (i : island) : island :=
  mk_island (get_algorithm i) x.

End Data.

(** ** Exceptions and outcomes *)

(** The exceptions that can travel through [run_evolve]:
    - [pagmo_error desc]: the [std::runtime_error] raised by
      [pagmo_throw(std::runtime_error, desc)];
    - [std_exception what]: any other exception derived from
      [std::exception] (from the user's algorithm, from cereal, ...);
    - [unknown_exception]: anything not derived from [std::exception]. *)
Inductive exn :=
| pagmo_error (desc : string)
| std_exception (what : string)
| unknown_exception.

Inductive outcome (A : Type) :=
| Normal (a : A)
| Throw (e : exn)
| Exit (code : Z).
Arguments Normal {A} a.
Arguments Throw {A} e.
Arguments Exit {A} code.

(** Libraries and platform constants used by the header but defined
    elsewhere: cereal's binary archives on [message_t], libc's [strerror],
    the text that [pagmo_throw] builds around a description (file, line and
    function of the throw site), and the values of [ESRCH] and [SIGTERM]. *)
Class Platform {C : Collaborators} := {
  (** [cereal::BinaryOutputArchive oarchive(ss); oarchive(ms)] *)
  oarchive : message_t -> list byte;
  (** [cereal::BinaryInputArchive iarchive(ss); iarchive(m)];
      [inl what] is a thrown [cereal::Exception] *)
  iarchive : list byte -> string + message_t;
  strerror : Z -> string;
  ex_what : string -> string;
  ESRCH : Z;
  SIGTERM : Z;
}.

(** ** A concrete instance

    Optimizer and population states are byte blobs; the archive writes the
    status as a 32-bit little-endian integer and every variable-length field
    as a 64-bit little-endian length followed by its bytes, as cereal's
    portable binary layout does for [int] and [std::string]. *)
Module Blob.

Definition byte_of_Z (z : Z) : byte :=
  match Byte.of_N (Z.to_N (z mod 256)) with
  | Some b => b
  | None => x00
  end.

Definition Z_of_byte (b : byte) : Z := Z.of_N (Byte.to_N b).

Fixpoint le_bytes (width : nat) (z : Z) : list byte :=
  match width with
  | O => []
  | S w => byte_of_Z z :: le_bytes w (Z.shiftr z 8)
  end.

Fixpoint le_value (bs : list byte) : Z :=
  match bs with
  | [] => 0
  | b :: bs' => Z_of_byte b + 256 * le_value bs'
  end.

Definition put_int (z : Z) : list byte := le_bytes 4 z.
Definition put_blob (bs : list byte) : list byte :=
  le_bytes 8 (Z.of_nat (List.length bs)) ++ bs.

Definition short_read : string := "Failed to read bytes from input stream".

Definition take (n : nat) (bs : list byte) : string + (list byte * list byte) :=
  if (n <=? List.length bs)%nat then inr (firstn n bs, skipn n bs)
  else inl short_read.

Definition get_int (bs : list byte) : string + (Z * list byte) :=
  match take 4 bs with
  | inl w => inl w
  | inr (v, rest) =>
      let u := le_value v in
      inr (if u <? 2 ^ 31 then u else u - 2 ^ 32, rest)
  end.

Definition get_blob (bs : list byte) : string + (list byte * list byte) :=
  match take 8 bs with
  | inl w => inl w
  | inr (v, rest) => take (Z.to_nat (le_value v)) rest
  end.

#[export] Instance collaborators : Collaborators := {|
  algorithm := list byte;
  population := list byte;
  algorithm_def := [];
  population_def := [];
|}.

Definition encode (ms : message_t) : list byte :=
  put_int (get0 ms) ++ put_blob (list_byte_of_string (get1 ms))
  ++ put_blob (get2 ms) ++ put_blob (get3 ms).

Definition decode (bs : list byte) : string + message_t :=
  match get_int bs with
  | inl w => inl w
  | inr (st, bs1) =>
      match get_blob bs1 with
      | inl w => inl w
      | inr (text, bs2) =>
          match get_blob bs2 with
          | inl w => inl w
          | inr (algo, bs3) =>
              match get_blob bs3 with
              | inl w => inl w
              | inr (pop, _) =>
                  inr (mk_message st (string_of_list_byte text) algo pop)
              end
          end
      end
  end.

#[export] Instance platform : Platform := {|
  oarchive := encode;
  iarchive := decode;
  strerror := fun err => ("errno " ++ NilZero.string_of_int (Z.to_int err))%string;
  ex_what := fun desc => desc;
  ESRCH := 3;
  SIGTERM := 15;
|}.

End Blob.

Section ForkIsland.
Context {C : Collaborators} {P : Platform}.

(** [e.what()] for an exception caught as [const std::exception &]; an
    exception of another type has no text. *)
Definition what (e : exn) : string :=
  match e with
  | pagmo_error desc => ex_what desc
  | std_exception w => w
  | unknown_exception => EmptyString
  end.

(** ** The process and its operating system *)

Inductive syscall :=
| SysPipe
| SysFork
| SysClose (fd : Z)
| SysRead (fd : Z) (count : nat)
| SysWrite (fd : Z) (buf : list byte)
| SysKill (pid sig : Z).

(** The kernel's answer to one [read]: an error, or a limit on how many of
    the available bytes it hands over this time. *)
Inductive read_reply :=
| ReadFail (err : Z)
| ReadUpTo (n : nat).

(** What [algo.evolve(isl.get_population())] does in the child. *)
Inductive task_result :=
| Evolved (algo : algorithm) (new_pop : population)
| Raised (e : exn).

(** The answers that do not change while the process runs. *)
Record env := mk_env {
  (** [pipe(fd)]: [inl errno], or the two descriptors *)
  pipe_reply : Z + (Z * Z);
  (** [fork()]: [inl errno], or the returned pid (0 in the child) *)
  fork_reply : Z + Z;
  (** [kill(child_pid, SIGTERM)]: [Some errno] on failure *)
  kill_reply : option Z;
  (** the user's algorithm *)
  evolve : algorithm -> population -> task_result;
  (** copying [e.what()] into the message throws *)
  what_fault : bool;
  (** building [algorithm{}] or [population{}] throws *)
  reset_fault : bool;
}.

(** [struct pipe_t]: the descriptors and their open flags. *)
Record pipe_t := mk_pipe {
  read : Z;
  write : Z;
  r_status : bool;
  w_status : bool;
}.

(** The state of one process inside [run_evolve]: the variables of the
    function ([isl], [m], [p]), [errno], the replies still to come from the
    kernel, the bytes waiting in the pipe for this process, and what the
    process has done so far (system calls with their return values, lines
    printed to [std::cerr], messages handed to [send_message]).  The last
    field holds the answers of the caller's island to the calls of its
    setters: [Some e] when the call throws [e]. *)
Record state := mk_state {
  isl : island;
  m : message_t;
  p : pipe_t;
  errno : Z;
  closes : list (option Z);
  writes : list (option Z);
  reads : list read_reply;
  inbox : list byte;
  trace : list (syscall * Z);
  cerr : list string;
  sent : list message_t;
  os : env;
  installs : list (option exn);
}.

Definition with_isl (v : island) (s : state) : state :=
  mk_state v (m s) (p s) (errno s) (closes s) (writes s) (reads s) (inbox s)
           (trace s) (cerr s) (sent s) (os s) (installs s).
Definition with_m (v : message_t) (s : state) : state :=
  mk_state (isl s) v (p s) (errno s) (closes s) (writes s) (reads s) (inbox s)
           (trace s) (cerr s) (sent s) (os s) (installs s).
Definition with_p (v : pipe_t) (s : state) : state :=
  mk_state (isl s) (m s) v (errno s) (closes s) (writes s) (reads s) (inbox s)
           (trace s) (cerr s) (sent s) (os s) (installs s).
Definition with_errno (v : Z) (s : state) : state :=
  mk_state (isl s) (m s) (p s) v (closes s) (writes s) (reads s) (inbox s)
           (trace s) (cerr s) (sent s) (os s) (installs s).
Definition with_closes (v : list (option Z)) (s : state) : state :=
  mk_state (isl s) (m s) (p s) (errno s) v (writes s) (reads s) (inbox s)
           (trace s) (cerr s) (sent s) (os s) (installs s).
Definition with_writes (v : list (option Z)) (s : state) : state :=
  mk_state (isl s) (m s) (p s) (errno s) (closes s) v (reads s) (inbox s)
           (trace s) (cerr s) (sent s) (os s) (installs s).
Definition with_reads (v : list read_reply) (s : state) : state :=
  mk_state (isl s) (m s) (p s) (errno s) (closes s) (writes s) v (inbox s)
           (trace s) (cerr s) (sent s) (os s) (installs s).
Definition with_inbox (v : list byte) (s : state) : state :=
  mk_state (isl s) (m s) (p s) (errno s) (closes s) (writes s) (reads s) v
           (trace s) (cerr s) (sent s) (os s) (installs s).
Definition with_trace (v : list (syscall * Z)) (s : state) : state :=
  mk_state (isl s) (m s) (p s) (errno s) (closes s) (writes s) (reads s)
           (inbox s) v (cerr s) (sent s) (os s) (installs s).
Definition with_cerr (v : list string) (s : state) : state :=
  mk_state (isl s) (m s) (p s) (errno s) (closes s) (writes s) (reads s)
           (inbox s) (trace s) v (sent s) (os s) (installs s).
Definition with_sent (v : list message_t) (s : state) : state :=
  mk_state (isl s) (m s) (p s) (errno s) (closes s) (writes s) (reads s)
           (inbox s) (trace s) (cerr s) v (os s) (installs s).
Definition with_installs (v : list (option exn)) (s : state) : state :=
  mk_state (isl s) (m s) (p s) (errno s) (closes s) (writes s) (reads s)
           (inbox s) (trace s) (cerr s) (sent s) (os s) v.

(** A process about to enter [run_evolve]; the setters of its island do
    not throw. *)
Definition boot (e : env) (i : island) (cl wr : list (option Z))
    (rd : list read_reply) (inb : list byte) : state :=
  mk_state i message_def (mk_pipe 0 0 false false) 0 cl wr rd inb [] [] [] e [].

(** ** The monad *)

Definition M (A : Type) : Type := state -> outcome A * state.

Definition ret {A} (a : A) : M A := fun s => (Normal a, s).

Definition bind {A B} (c : M A) (k : A -> M B) : M B :=
  fun s =>
    match c s with
    | (Normal a, s') => k a s'
    | (Throw e, s') => (Throw e, s')
    | (Exit code, s') => (Exit code, s')
    end.

Notation "x <- c ;; k" := (bind c (fun x => k))
  (at level 61, c at next level, right associativity).
Notation "c ;; k" := (bind c (fun _ => k))
  (at level 61, right associativity).

Definition get : M state := fun s => (Normal s, s).
Definition modify (f : state -> state) : M unit := fun s => (Normal tt, f s).

(** [throw e;] *)
Definition throw {A} (e : exn) : M A := fun s => (Throw e, s).

(** [std::exit(code)]: the process ends here; no automatic object is
    destroyed. *)
Definition exit {A} (code : Z) : M A := fun s => (Exit code, s).

(** [try { body } catch (...) { handler }]; inside the handler, [throw e]
    is the re-raising [throw;]. *)
Definition try_catch {A} (body : M A) (handler : exn -> M A) : M A :=
  fun s =>
    match body s with
    | (Throw e, s') => handler e s'
    | r => r
    end.

(** [std::cerr << line << std::endl] *)
Definition print_cerr (line : string) : M unit :=
  modify (fun s => with_cerr (cerr s ++ [line]) s).

Definition log (c : syscall) (r : Z) (s : state) : state :=
  with_trace (trace s ++ [(c, r)]) s.

(** ** System calls *)

Definition sys_pipe : M (Z * (Z * Z)) :=
  fun s =>
    match pipe_reply (os s) with
    | inl e => (Normal (-1, (0, 0)), log SysPipe (-1) (with_errno e s))
    | inr fds => (Normal (0, fds), log SysPipe 0 s)
    end.

Definition sys_fork : M Z :=
  fun s =>
    match fork_reply (os s) with
    | inl e => (Normal (-1), log SysFork (-1) (with_errno e s))
    | inr pid => (Normal pid, log SysFork pid s)
    end.

(** Every [close], [write] and [read] takes the kernel's next reply for
    that call; once the replies run out the call succeeds. *)
Definition sys_close (fd : Z) : M Z :=
  fun s =>
    let s' := with_closes (tl (closes s)) s in
    match hd None (closes s) with
    | Some e => (Normal (-1), log (SysClose fd) (-1) (with_errno e s'))
    | None => (Normal 0, log (SysClose fd) 0 s')
    end.

(** A blocking [write] of at most [PIPE_BUF] bytes on a pipe either fails or
    takes the whole buffer. *)
Definition sys_write (fd : Z) (buf : list byte) : M Z :=
  fun s =>
    let s' := with_writes (tl (writes s)) s in
    let n := Z.of_nat (List.length buf) in
    match hd None (writes s) with
    | Some e => (Normal (-1), log (SysWrite fd buf) (-1) (with_errno e s'))
    | None => (Normal n, log (SysWrite fd buf) n s')
    end.

(** How many bytes a successful [read] hands over: at least one when some
    are waiting, never more than asked for or than are waiting. *)
Definition granted (limit : option nat) (count avail : nat) : nat :=
  let most := Nat.min count avail in
  match limit with
  | Some n => Nat.min most (Nat.max 1 n)
  | None => most
  end.

(** [read(fd, buffer, count)] returns the count and the bytes placed in
    [buffer].  With nothing waiting it returns 0, the end of the stream.
    This is the answer as the process receives it; whether the kernel can
    give it, on this descriptor and with the write ends that are still open,
    is decided by [replay] below. *)
Definition sys_read (fd : Z) (count : nat) : M (Z * list byte) :=
  fun s =>
    let s' := with_reads (tl (reads s)) s in
    let deliver limit :=
      let k := granted limit count (List.length (inbox s)) in
      (Normal (Z.of_nat k, firstn k (inbox s)),
       log (SysRead fd count) (Z.of_nat k) (with_inbox (skipn k (inbox s)) s')) in
    match hd_error (reads s) with
    | Some (ReadFail e) =>
        (Normal (-1, []), log (SysRead fd count) (-1) (with_errno e s'))
    | Some (ReadUpTo n) => deliver (Some n)
    | None => deliver None
    end.

Definition sys_kill (pid sig : Z) : M Z :=
  fun s =>
    match kill_reply (os s) with
    | Some e => (Normal (-1), log (SysKill pid sig) (-1) (with_errno e s))
    | None => (Normal 0, log (SysKill pid sig) 0 s)
    end.

(** The bytes a process has put into the pipe: the buffers of its successful
    [write] calls, in order. *)
Fixpoint outbox (t : list (syscall * Z)) : list byte :=
  match t with
  | [] => []
  | (SysWrite _ buf, r) :: t' => (if r =? -1 then [] else buf) ++ outbox t'
  | _ :: t' => outbox t'
  end.

(** ** [fork_island] *)

(** [std::to_string(int)] *)
Definition to_string (z : Z) : string := NilZero.string_of_int (Z.to_int z).

Definition errno_desc (fname : string) (err : Z) : string :=
  ("The call to the function " ++ fname
   ++ "() in the fork island failed with error code " ++ to_string err
   ++ " and the following error message: '" ++ strerror err ++ "'")%string.

Definition raise_errno {A} (fname : string) : M A :=
  s <- get ;;
  throw (pagmo_error (errno_desc fname (errno s))).

Definition pipe_t_ctor : M unit :=
  r <- sys_pipe ;;
  (if fst r =? -1 then raise_errno "pipe" else ret tt) ;;
  modify (with_p (mk_pipe (fst (snd r)) (snd (snd r)) true true)).

Definition close_r : M unit :=
  s <- get ;;
  if r_status (p s) then
    r <- sys_close (read (p s)) ;;
    (if r =? -1 then raise_errno "close" else ret tt) ;;
    modify (fun s => with_p (mk_pipe (read (p s)) (write (p s)) false (w_status (p s))) s)
  else ret tt.

Definition close_w : M unit :=
  s <- get ;;
  if w_status (p s) then
    r <- sys_close (write (p s)) ;;
    (if r =? -1 then raise_errno "close" else ret tt) ;;
    modify (fun s => with_p (mk_pipe (read (p s)) (write (p s)) (r_status (p s)) false) s)
  else ret tt.

Definition dtor_msg : string :=
  "An unrecoverable error was raised in the destructor of a pipe in fork_island(). Exiting now.".

(** [~pipe_t()] *)
Definition pipe_t_dtor : M unit :=
  try_catch (close_r ;; close_w)
            (fun _ => print_cerr dtor_msg ;; exit 1).

(** The scope of the local [pipe_t p]: the destructor runs when the body
    returns or throws, and does not run when the body calls [std::exit]. *)
Definition with_pipe {A} (body : M A) : M A :=
  fun s =>
    match body s with
    | (Exit code, s') => (Exit code, s')
    | (o, s') =>
        match pipe_t_dtor s' with
        | (Normal _, s'') => (o, s'')
        | (Throw e, s'') => (Throw e, s'')
        | (Exit code, s'') => (Exit code, s'')
        end
    end.

Definition get_name : string := "Fork island".

(** [char buffer[1024]]; [sizeof(buffer)] *)
Definition buffer_size : nat := 1024.
Opaque buffer_size.

Lemma buffer_size_pos : (0 < buffer_size)%nat.
Proof. Transparent buffer_size. unfold buffer_size. lia. Qed.
Opaque buffer_size.

Lemma skipn_buffer_shorter {A} (l : list A) :
  (buffer_size <= List.length l)%nat ->
  (List.length (skipn buffer_size l) < List.length l)%nat.
Proof.
  intros H. rewrite length_skipn. pose proof buffer_size_pos. lia.
Qed.

(** One turn of the sender's loop body after [ss.read]: hand [buffer] to
    [write] on [p.write]. *)
Definition write_buffer (buffer : list byte) : M unit :=
  s <- get ;;
  r <- sys_write (write (p s)) buffer ;;
  if r =? -1 then raise_errno "write" else ret tt.

(** [while (!ss.eof()) { ss.read(buffer, sizeof(buffer)); write(...); }]
    on the unread part [ss] of the stream.  [ss.read] sets [eofbit] exactly
    when fewer than [sizeof(buffer)] characters were left. *)
Equations send_loop (ss : list byte) : M unit by wf (List.length ss) lt :=
  send_loop ss with le_lt_dec buffer_size (List.length ss) => {
    | left _ :=
        write_buffer (firstn buffer_size ss) ;;
        send_loop (skipn buffer_size ss)
    | right _ :=
        write_buffer (firstn buffer_size ss) }.
Next Obligation. apply skipn_buffer_shorter; assumption. Qed.

(** The lambda [send_message] of the child. *)
Definition send_message (ms : message_t) : M unit :=
  modify (fun s => with_sent (sent s ++ [ms]) s) ;;
  send_loop (oarchive ms).

Definition inspect {A} (a : A) : {b : A | a = b} := exist _ a eq_refl.

Lemma sys_read_progress fd s r buffer s1 :
  sys_read fd buffer_size s = (Normal (r, buffer), s1) ->
  (r =? 0) = false -> (r =? -1) = false ->
  (List.length (inbox s1) < List.length (inbox s))%nat.
Proof.
  intros H H0 H1. apply Z.eqb_neq in H0. apply Z.eqb_neq in H1.
  unfold sys_read in H.
  destruct (hd_error (reads s)) as [[e|n]|]; inversion H; subst; clear H;
    try congruence; cbn [inbox with_inbox log with_trace with_reads] in *;
    rewrite length_skipn; unfold granted in *; lia.
Qed.

(** The parent's [while (true) { read(...); ... ss.write(buffer, read_bytes); }];
    [ss] is what the stringstream holds so far. *)
Equations read_loop (ss : list byte) (s : state) : outcome (list byte) * state
    by wf (List.length (inbox s)) lt :=
  read_loop ss s with inspect (sys_read (read (p s)) buffer_size s) => {
    | exist _ (Normal (read_bytes, buffer), s1) _
        with inspect (read_bytes =? 0) => {
        | exist _ true _ := (Normal ss, s1)
        | exist _ false _ with inspect (read_bytes =? -1) => {
            | exist _ true _ := raise_errno "read" s1
            | exist _ false _ :=
                read_loop (ss ++ firstn (Z.to_nat read_bytes) buffer) s1 } }
    | exist _ (Throw e, s1) _ := (Throw e, s1)
    | exist _ (Exit code, s1) _ := (Exit code, s1) }.
Next Obligation. eapply sys_read_progress; eassumption. Qed.

(** *** The child *)

Definition fatal_msg : string :=
  "An unrecoverable error was raised while handling another error in the child process of fork_island(). Giving up now.".

(** What the standard library throws when it cannot allocate. *)
Definition bad_alloc : exn := std_exception "std::bad_alloc".

(** [auto algo = isl.get_algorithm();
     auto new_pop = algo.evolve(isl.get_population());] *)
Definition run_task : M (algorithm * population) :=
  s <- get ;;
  match evolve (os s) (get_algorithm (isl s)) (get_population (isl s)) with
  | Evolved algo new_pop => ret (algo, new_pop)
  | Raised e => throw e
  end.

(** [std::get<1>(m) = e.what();] *)
Definition set_what (e : exn) : M unit :=
  s <- get ;;
  if what_fault (os s) then throw bad_alloc
  else modify (fun s => with_m (set1 (what e) (m s)) s).

(** [std::get<2>(m) = algorithm{}; std::get<3>(m) = population{};] *)
Definition reset_results : M unit :=
  s <- get ;;
  if reset_fault (os s) then throw bad_alloc
  else modify (fun s => with_m (set3 population_def (set2 algorithm_def (m s))) s).

(** The first [try] block of the child. *)
Definition child_evolve : M unit :=
  close_r ;;
  r <- run_task ;;
  modify (fun s => with_m (set3 (snd r) (set2 (fst r) (m s))) s) ;;
  s <- get ;;
  send_message (m s) ;;
  close_w ;;
  exit 0.

(** Its two handlers: [catch (const std::exception &e)] and [catch (...)]. *)
Definition child_catch (e : exn) : M unit :=
  match e with
  | unknown_exception => ret tt
  | _ => try_catch (set_what e) (fun _ => print_cerr fatal_msg ;; exit 1)
  end.

(** The second [try] block of the child. *)
Definition child_report : M unit :=
  reset_results ;;
  s <- get ;;
  send_message (m s) ;;
  close_w ;;
  exit 0.

Definition child : M unit :=
  try_catch child_evolve child_catch ;;
  modify (fun s => with_m (set0 1 (m s)) s) ;;
  try_catch child_report (fun _ => print_cerr fatal_msg ;; exit 1).

(** *** The parent *)

Definition parent_fatal_msg : string :=
  "An unrecoverable error was raised while handling another error in the parent process of fork_island(). Giving up now.".

Definition newline : string := String (ascii_of_nat 10) EmptyString.

Definition child_error_desc (text : string) : string :=
  ("The run_evolve() method of fork_island raised an error in the child process. The full error message reported by the child is:"
   ++ newline ++ text)%string.

(** Modelled from the spec: a call of one of the setters of the caller's
    island, [isl.set_algorithm(...)] or [isl.set_population(...)], whose
    code ([pagmo/island.hpp]) is not among the sources.  The call takes the
    island's next answer: it returns with the island updated by [set], or,
    as any C++ call that copies a user-defined object may, it throws and
    leaves the island as it was. *)
Definition island_call (set : island -> island) : M unit :=
  fun s =>
    let s' := with_installs (tl (installs s)) s in
    match hd None (installs s) with
    | Some e => (Throw e, s')
    | None => (Normal tt, with_isl (set (isl s)) s')
    end.

(** The [try] block of the parent. *)
Definition parent_receive : M unit :=
  close_w ;;
  ss <- read_loop [] ;;
  match iarchive ss with
  | inl w => throw (std_exception w)
  | inr ms => modify (with_m ms)
  end ;;
  close_r.

(** Its [catch (...)] handler. *)
Definition parent_catch (child_pid : Z) (e : exn) : M unit :=
  r <- sys_kill child_pid SIGTERM ;;
  s <- get ;;
  if (r =? -1) && negb (errno s =? ESRCH)
  then print_cerr parent_fatal_msg ;; exit 1
  else throw e.

(** The parent after the [fork].  The two setters of the island are called
    one after the other: when the second throws, the first has already
    taken effect. *)
Definition parent (child_pid : Z) : M unit :=
  try_catch parent_receive (parent_catch child_pid) ;;
  s <- get ;;
  if negb (get0 (m s) =? 0)
  then throw (pagmo_error (child_error_desc (get1 (m s))))
  else
    island_call (set_algorithm (get2 (m s))) ;;
    island_call (set_population (get3 (m s))).

(** *** [run_evolve] *)

Definition run_evolve : M unit :=
  modify (with_m message_def) ;;
  pipe_t_ctor ;;
  with_pipe (
    child_pid <- sys_fork ;;
    (if child_pid =? -1 then raise_errno "fork" else ret tt) ;;
    if negb (child_pid =? 0) then parent child_pid else child).

(** ** The errors of the island, by kind *)

(** An operating-system call failed: what [raise_errno] throws. *)
Definition SyscallFailure (call : string) (err : Z) : exn :=
  pagmo_error (errno_desc call err).

(** The task failed in the child: what the parent throws on a non-zero
    status flag, carrying the error text of the message. *)
Definition ChildTaskFailed (message : string) : exn :=
  pagmo_error (child_error_desc message).

(** ** One call, two processes *)

(** The child is a copy of the caller at the [fork]: it runs the same
    function on the same island with its own replies; nothing waits in the
    pipe for it. *)
Definition child_run (ce : env) (i : island) (cl wr : list (option Z))
    : outcome unit * state :=
  run_evolve (boot ce i cl wr [] []).

(** *** The pipe as the kernel sees it

    Inside one process the kernel's answers are taken as given.  Which
    answers a pipe between the two processes can give is decided here, by
    replaying the calls of a process against the descriptors it holds. *)

(** The two descriptors of the pipe in one process: open or not. *)
Record fdtab := mk_fdtab {
  rd_open : bool;
  wr_open : bool;
}.

Definition no_fds : fdtab := mk_fdtab false false.

(** What the kernel makes of a sequence of calls and return values:
    [Refused], it cannot have given these answers; [Blocked], one of the
    calls never returns; [Accepted tab], it can, and the process is left
    with the descriptors [tab]. *)
Inductive verdict :=
| Refused
| Blocked
| Accepted (tab : fdtab).

(** One call with its return value [r], made by a process that holds [tab].
    [fds] are the descriptors that [pipe] hands out; [others] tells whether
    another process holds the write end.
    - A call that returned -1 has changed nothing; after a failed [close]
      the descriptor counts as still open, which is what the code assumes
      when it closes it again.
    - [pipe] hands out two different descriptors, both open; [fork] and
      [kill] leave the descriptors alone.
    - [close] succeeds on a descriptor of the pipe that is open, and closes
      it.
    - [write] succeeds on the write end while it is open.
    - [read] succeeds on the read end while it is open.  It returns 0, the
      end of the stream, only when no process holds the write end: as long
      as one does, a [read] that finds the pipe empty does not return. *)
Definition kernel_step (fds : Z * Z) (others : bool) (tab : fdtab)
    (ev : syscall * Z) : verdict :=
  if snd ev =? -1 then Accepted tab
  else
    match fst ev with
    | SysPipe =>
        if (fst fds =? snd fds) || rd_open tab || wr_open tab then Refused
        else Accepted (mk_fdtab true true)
    | SysFork => Accepted tab
    | SysKill _ _ => Accepted tab
    | SysClose fd =>
        if (fd =? fst fds) && rd_open tab
        then Accepted (mk_fdtab false (wr_open tab))
        else if (fd =? snd fds) && wr_open tab
        then Accepted (mk_fdtab (rd_open tab) false)
        else Refused
    | SysWrite fd _ =>
        if (fd =? snd fds) && wr_open tab then Accepted tab else Refused
    | SysRead fd _ =>
        if (fd =? fst fds) && rd_open tab
        then if (snd ev =? 0) && (wr_open tab || others) then Blocked
             else Accepted tab
        else Refused
    end.

Fixpoint replay (fds : Z * Z) (others : bool) (tab : fdtab)
    (t : list (syscall * Z)) : verdict :=
  match t with
  | [] => Accepted tab
  | ev :: t' =>
      match kernel_step fds others tab ev with
      | Accepted tab' => replay fds others tab' t'
      | v => v
      end
  end.

(** *** The call as the caller sees it *)

(** The descriptors that [pipe] hands out. *)
Definition pipe_fds (e : env) : Z * Z :=
  match pipe_reply e with
  | inr fds => fds
  | inl _ => (0, 0)
  end.

(** The world of the child: that of the caller, except that [fork] has
    returned 0. *)
Definition as_child (e : env) : env :=
  mk_env (pipe_reply e) (inr 0) (kill_reply e) (evolve e) (what_fault e)
         (reset_fault e).

(** [fork] returns 0: the process is itself a child. *)
Definition in_child (e : env) : bool :=
  match fork_reply e with
  | inr pid => pid =? 0
  | inl _ => false
  end.

(** [pipe] and [fork] succeed: the caller gets a child. *)
Definition forks (e : env) : bool :=
  match pipe_reply e, fork_reply e with
  | inr _, inr pid => negb (pid =? 0) && negb (pid =? -1)
  | _, _ => false
  end.

(** How a call of [run_evolve] ends for the caller: not at all, because a
    [read] never returns; or with an outcome and a final state.  [Unmodelled]
    marks the replies that a pipe between the caller and its child cannot
    give, and the runs that this composition does not follow (the caller is
    itself a child, or it writes into the pipe). *)
Inductive call_result :=
| Unmodelled
| Hangs
| Ends (o : outcome unit) (s : state).

(** One call of [run_evolve] on island [i]: [pcl], [prd] and [ins] are the
    replies to the caller's [close] and [read] calls and to the calls of the
    island's setters, [ccl] and [cwr] the replies to the child's [close] and
    [write] calls.  The child runs first.  The caller finds in the pipe the
    bytes that the child has written into it, and its reads see the end of
    the stream once the child has exited or closed the write end and the
    caller has closed its own. *)
Definition fork_island_call (e : env) (i : island)
    (pcl : list (option Z)) (prd : list read_reply)
    (ins : list (option exn)) (ccl cwr : list (option Z)) : call_result :=
  let fds := pipe_fds e in
  let child_end := child_run (as_child e) i ccl cwr in
  let piped := if forks e then outbox (trace (snd child_end)) else [] in
  let caller_end := run_evolve (with_installs ins (boot e i pcl [] prd piped)) in
  let child_holds :=
    if forks e then
      match replay fds true no_fds (trace (snd child_end)) with
      | Accepted tab =>
          match fst child_end with
          | Exit _ => Some false
          | _ => Some (wr_open tab)
          end
      | _ => None
      end
    else Some false in
  if in_child e then Unmodelled
  else
    match child_holds with
    | None => Unmodelled
    | Some others =>
        match replay fds others no_fds (trace (snd caller_end)) with
        | Refused => Unmodelled
        | Blocked => Hangs
        | Accepted _ =>
            match outbox (trace (snd caller_end)) with
            | [] => Ends (fst caller_end) (snd caller_end)
            | _ :: _ => Unmodelled
            end
        end
    end.

(** [pipe] succeeds and [fork] returns the child's pid. *)
Definition parent_process (e : env) : Prop :=
  (exists fds, pipe_reply e = inr fds) /\
  (exists pid, fork_reply e = inr pid /\ pid <> 0 /\ pid <> -1).

(** [pipe] has succeeded and [fork] returns 0. *)
Definition child_process (e : env) : Prop :=
  (exists fds, pipe_reply e = inr fds) /\ fork_reply e = inr 0.

(** ** Vocabulary of the specification *)

(** The parent carries on after a failed [kill] only when the child is
    already gone. *)
Definition kill_tolerated (e : env) : bool :=
  match kill_reply e with
  | None => true
  | Some err => err =? ESRCH
  end.

(** The invariant of a message sent by a child that was forked with island
    [i] and runs the task of [e]. *)
Definition wire_ok (e : env) (i : island) (ms : message_t) : Prop :=
  (get0 ms = 0 ->
   get1 ms = EmptyString /\
   evolve e (get_algorithm i) (get_population i) = Evolved (get2 ms) (get3 ms))
  /\
  (get0 ms <> 0 ->
   get2 ms = algorithm_def /\ get3 ms = population_def).

(** No [read] reply is a failure. *)
Definition read_succeeds (r : read_reply) : Prop :=
  match r with
  | ReadFail _ => False
  | ReadUpTo _ => True
  end.

(** ** States reached by the sender *)

(** The trace entry of a [write] that took the whole buffer. *)
Definition write_ok (fd : Z) (buf : list byte) : syscall * Z :=
  (SysWrite fd buf, Z.of_nat (List.length buf)).

(** The state after the buffers [chunks] were written one after the other. *)
Fixpoint after_writes (chunks : list (list byte)) (s : state) : state :=
  match chunks with
  | [] => s
  | c :: cs =>
      after_writes cs
        (log (SysWrite (write (p s)) c) (Z.of_nat (List.length c))
             (with_writes (tl (writes s)) s))
  end.

(** The state after a [write] of [c] failed with error [err]. *)
Definition after_failed_write (c : list byte) (err : Z) (s : state) : state :=
  log (SysWrite (write (p s)) c) (-1) (with_errno err (with_writes (tl (writes s)) s)).

(** ** Vocabulary of the proofs *)

(** The computation [c] never changes what [f] sees of the state. *)
Definition keeps {X A} (f : state -> X) (c : M A) : Prop :=
  forall s, f (snd (c s)) = f s.

(** [f] does not look at what system calls change. *)
Definition os_blind {X} (f : state -> X) : Prop :=
  (forall v s, f (with_errno v s) = f s) /\
  (forall v s, f (with_closes v s) = f s) /\
  (forall v s, f (with_writes v s) = f s) /\
  (forall v s, f (with_reads v s) = f s) /\
  (forall v s, f (with_inbox v s) = f s) /\
  (forall v s, f (with_trace v s) = f s).

(** [f] does not look at what a [read] changes. *)
Definition read_blind {X} (f : state -> X) : Prop :=
  (forall v s, f (with_errno v s) = f s) /\
  (forall v s, f (with_reads v s) = f s) /\
  (forall v s, f (with_inbox v s) = f s) /\
  (forall v s, f (with_trace v s) = f s).

(** [f] does not look at the open flags of the pipe. *)
Definition flag_blind {X} (f : state -> X) : Prop :=
  forall r w s, f (with_p (mk_pipe (read (p s)) (write (p s)) r w) s) = f s.

(** [f] does not look at the locals [m] and [p], at the messages sent or at
    the error stream. *)
Definition local_blind {X} (f : state -> X) : Prop :=
  flag_blind f /\
  (forall v s, f (with_m v s) = f s) /\
  (forall v s, f (with_sent v s) = f s) /\
  (forall v s, f (with_cerr v s) = f s).

(** A computation that can only throw or exit. *)
Definition no_return {A} (c : M A) : Prop :=
  forall s, match fst (c s) with Normal _ => False | _ => True end.

(** A buffer that fits in [char buffer[1024]]. *)
Definition short (c : list byte) : Prop := (List.length c <= buffer_size)%nat.

(** The state of a process right after [pipe] returned the descriptors
    [fds] and [fork] returned [pid]. *)
Definition after_fork (e : env) (i : island) (cl wr : list (option Z))
    (rd : list read_reply) (inb : list byte) (fds : Z * Z) (pid : Z) : state :=
  log SysFork pid
    (with_p (mk_pipe (fst fds) (snd fds) true true)
       (log SysPipe 0 (with_m message_def (boot e i cl wr rd inb)))).

(** Kinds of system calls. *)
Definition is_close (ev : syscall * Z) : Prop :=
  match fst ev with SysClose _ => True | _ => False end.
Definition is_write (ev : syscall * Z) : Prop :=
  match fst ev with SysWrite _ _ => True | _ => False end.
Definition is_read (ev : syscall * Z) : Prop :=
  match fst ev with SysRead _ _ => True | _ => False end.
Definition is_kill (ev : syscall * Z) : Prop :=
  match fst ev with SysKill _ _ => True | _ => False end.

(** The computation [c] only adds system calls of kind [Q] to the trace. *)
Definition adds {A} (Q : syscall * Z -> Prop) (c : M A) : Prop :=
  forall s, exists t, trace (snd (c s)) = trace s ++ t /\ Forall Q t.

(** The child ended well: nothing printed since [s], the write end closed,
    and the last message handed to [send_message] written out in full as
    the last bytes put into the pipe. *)
Definition ended_well (s : state) (r : outcome unit * state) : Prop :=
  fst r = Exit 0 /\ cerr (snd r) = cerr s /\ w_status (p (snd r)) = false /\
  exists ms earlier before,
    sent (snd r) = earlier ++ [ms] /\
    outbox (trace (snd r)) = before ++ oarchive ms.

(** The calls of a parent that meets no failure. *)
Definition quiet_call (ev : syscall * Z) : Prop := is_close ev \/ is_read ev.

(** The calls a child makes after the [fork], and those a parent makes. *)
Definition child_call (ev : syscall * Z) : Prop := is_close ev \/ is_write ev.
Definition parent_call (ev : syscall * Z) : Prop :=
  is_close ev \/ is_read ev \/ is_kill ev.

(** The text of the failure report for an exception [e] caught while the
    message held the text [before]: [e.what()] when [e] derives from
    [std::exception]; otherwise the text is not assigned. *)
Definition report_text (e : exn) (before : string) : string :=
  match e with
  | unknown_exception => before
  | _ => what e
  end.

(** The trace entry of a [read] of a whole buffer on [fd] that did not fail. *)
Definition read_ok (fd : Z) (ev : syscall * Z) : Prop :=
  exists k, ev = (SysRead fd buffer_size, Z.of_nat k).

(** The answers of the island's setters are not these: the first returns
    and the second throws. *)
Definition installs_whole (s : state) : Prop :=
  nth 0 (installs s) None = None -> nth 1 (installs s) None = None.

(** A [read] on the descriptor [fd]. *)
Definition reads_from (fd : Z) (ev : syscall * Z) : Prop :=
  exists n k, ev = (SysRead fd n, k).

(** The calls of a parent whose reads are all on [fd]. *)
Definition parent_call_on (fd : Z) (ev : syscall * Z) : Prop :=
  is_close ev \/ reads_from fd ev \/ is_kill ev.

Definition close_or_kill (ev : syscall * Z) : Prop := is_close ev \/ is_kill ev.

(** What the invariant of the messages depends on. *)
Definition wire_view (s : state) : env * island * message_t * list message_t :=
  (os s, isl s, m s, sent s).

End ForkIsland.

Opaque buffer_size.

(** ** Concrete scenarios on the byte-blob instance *)
Module Demo.
Import Blob.

Definition island0 : island := mk_island [x02] [x03].

(** A population of 3000 bytes: the encoded message spans three buffers. *)
Definition evolved_pop : list byte := repeat x07 3000.

Definition task_ok (a x : list byte) : task_result :=
  Evolved (x01 :: a) (evolved_pop ++ x).
Definition task_throws (a x : list byte) : task_result :=
  Raised (std_exception "bounds violated").
Definition task_crashes (a x : list byte) : task_result :=
  Raised unknown_exception.

Definition result_ok : message_t :=
  mk_message 0 EmptyString [x01; x02] (evolved_pop ++ [x03]).

(** The parent: [fork] returns pid 4242; [kill] answers [kill]. *)
Definition parent_env (task : list byte -> list byte -> task_result)
    (kill : option Z) : env :=
  mk_env (inr (3, 4)) (inr 4242) kill task false false.

(** The child, with the two allocation faults as given. *)
Definition child_env (task : list byte -> list byte -> task_result)
    (wf rf : bool) : env :=
  mk_env (inr (3, 4)) (inr 0) None task wf rf.

(** A process just after a successful [pipe] and [fork]. *)
Definition forked (e : env) (cl wr : list (option Z)) (rd : list read_reply)
    (inb : list byte) : state :=
  with_p (mk_pipe 3 4 true true) (boot e island0 cl wr rd inb).

(** The kernel cuts the stream into reads of 5, 700, 1 and then full
    buffers. *)
Definition ragged_reads : list read_reply :=
  [ReadUpTo 5; ReadUpTo 700; ReadUpTo 0].

End Demo.

(** * Verification *)

Section Proofs.
Context {C : Collaborators} {P : Platform}.

(** ** Fields that a computation leaves alone *)

Lemma keeps_eq {X A} (f : state -> X) (c : M A) s o s' :
  keeps f c -> c s = (o, s') -> f s' = f s.
Proof. intros H E. specialize (H s). rewrite E in H. exact H. Qed.

Lemma keeps_ret {X A} (f : state -> X) (a : A) : keeps f (ret a).
Proof. intros s. reflexivity. Qed.

Lemma keeps_throw {X A} (f : state -> X) e : keeps f (throw (A:=A) e).
Proof. intros s. reflexivity. Qed.

Lemma keeps_exit {X A} (f : state -> X) code : keeps f (exit (A:=A) code).
Proof. intros s. reflexivity. Qed.

Lemma keeps_get {X} (f : state -> X) : keeps f get.
Proof. intros s. reflexivity. Qed.

Lemma keeps_modify {X} (f : state -> X) g :
  (forall s, f (g s) = f s) -> keeps f (modify g).
Proof. intros H s. apply H. Qed.

Lemma keeps_bind {X A B} (f : state -> X) (c : M A) (k : A -> M B) :
  keeps f c -> (forall a, keeps f (k a)) -> keeps f (bind c k).
Proof.
  intros Hc Hk s. unfold bind. specialize (Hc s).
  destruct (c s) as [[a|e|code] s']; cbn [snd] in *; try assumption.
  rewrite Hk. assumption.
Qed.

Lemma keeps_try_catch {X A} (f : state -> X) (c : M A) h :
  keeps f c -> (forall e, keeps f (h e)) -> keeps f (try_catch c h).
Proof.
  intros Hc Hh s. unfold try_catch. specialize (Hc s).
  destruct (c s) as [[a|e|code] s']; cbn [snd] in *; try assumption.
  rewrite Hh. assumption.
Qed.

Ltac os_rewrite H :=
  destruct H as (?He & ?Hc & ?Hw & ?Hr & ?Hi & ?Ht);
  unfold log; cbv zeta; cbn [snd];
  repeat first [rewrite Ht | rewrite He | rewrite Hc | rewrite Hw
               | rewrite Hr | rewrite Hi].

Lemma keeps_sys_pipe {X} (f : state -> X) : os_blind f -> keeps f sys_pipe.
Proof.
  intros H s. unfold sys_pipe. destruct (pipe_reply (os s)); cbn [snd];
    os_rewrite H; reflexivity.
Qed.

Lemma keeps_sys_fork {X} (f : state -> X) : os_blind f -> keeps f sys_fork.
Proof.
  intros H s. unfold sys_fork. destruct (fork_reply (os s)); cbn [snd];
    os_rewrite H; reflexivity.
Qed.

Lemma keeps_sys_close {X} (f : state -> X) fd :
  os_blind f -> keeps f (sys_close fd).
Proof.
  intros H s. unfold sys_close. destruct (hd None (closes s)); cbn [snd];
    os_rewrite H; reflexivity.
Qed.

Lemma keeps_sys_write {X} (f : state -> X) fd buf :
  os_blind f -> keeps f (sys_write fd buf).
Proof.
  intros H s. unfold sys_write. destruct (hd None (writes s)); cbn [snd];
    os_rewrite H; reflexivity.
Qed.

Lemma os_blind_read_blind {X} (f : state -> X) : os_blind f -> read_blind f.
Proof. intros H. unfold read_blind. os_rewrite H. auto. Qed.

Lemma keeps_sys_read {X} (f : state -> X) fd count :
  read_blind f -> keeps f (sys_read fd count).
Proof.
  intros (He & Hr & Hi & Ht) s. unfold sys_read.
  destruct (hd_error (reads s)) as [[e|n]|]; cbn [snd]; unfold log; cbv zeta;
    cbn [snd]; rewrite Ht, ?He, ?Hi, Hr; reflexivity.
Qed.

Lemma keeps_sys_kill {X} (f : state -> X) pid sig :
  os_blind f -> keeps f (sys_kill pid sig).
Proof.
  intros H s. unfold sys_kill. destruct (kill_reply (os s)); cbn [snd];
    os_rewrite H; reflexivity.
Qed.

Lemma keeps_raise_errno {X A} (f : state -> X) fname :
  keeps f (raise_errno (A:=A) fname).
Proof. intros s. reflexivity. Qed.

Lemma keeps_close_r {X} (f : state -> X) :
  os_blind f -> flag_blind f -> keeps f close_r.
Proof.
  intros H F. unfold close_r. apply keeps_bind; [apply keeps_get|].
  intros s0. destruct (r_status (p s0)); [|apply keeps_ret].
  apply keeps_bind; [apply keeps_sys_close; assumption|]. intros r.
  apply keeps_bind.
  - destruct (r =? -1); [apply keeps_raise_errno|apply keeps_ret].
  - intros _. apply keeps_modify. intros s. apply F.
Qed.

Lemma keeps_close_w {X} (f : state -> X) :
  os_blind f -> flag_blind f -> keeps f close_w.
Proof.
  intros H F. unfold close_w. apply keeps_bind; [apply keeps_get|].
  intros s0. destruct (w_status (p s0)); [|apply keeps_ret].
  apply keeps_bind; [apply keeps_sys_close; assumption|]. intros r.
  apply keeps_bind.
  - destruct (r =? -1); [apply keeps_raise_errno|apply keeps_ret].
  - intros _. apply keeps_modify. intros s. apply F.
Qed.

Lemma keeps_write_buffer {X} (f : state -> X) buffer :
  os_blind f -> keeps f (write_buffer buffer).
Proof.
  intros H. unfold write_buffer. apply keeps_bind; [apply keeps_get|].
  intros s0. apply keeps_bind; [apply keeps_sys_write; assumption|].
  intros r. destruct (r =? -1); [apply keeps_raise_errno|apply keeps_ret].
Qed.

Lemma send_loop_eq ss :
  send_loop ss =
  if le_lt_dec buffer_size (List.length ss)
  then bind (write_buffer (firstn buffer_size ss))
            (fun _ => send_loop (skipn buffer_size ss))
  else write_buffer (firstn buffer_size ss).
Proof.
  funelim (send_loop ss); rewrite Heq; reflexivity.
Qed.

Lemma read_loop_eq ss s :
  read_loop ss s =
  match sys_read (read (p s)) buffer_size s with
  | (Normal (read_bytes, buffer), s1) =>
      if read_bytes =? 0 then (Normal ss, s1)
      else if read_bytes =? -1 then raise_errno "read" s1
      else read_loop (ss ++ firstn (Z.to_nat read_bytes) buffer) s1
  | (Throw e, s1) => (Throw e, s1)
  | (Exit code, s1) => (Exit code, s1)
  end.
Proof.
  funelim (read_loop ss s);
    match goal with E : sys_read _ _ _ = _ |- _ => rewrite E end;
    repeat match goal with E : (_ =? _) = _ |- _ => progress rewrite E end;
    reflexivity.
Qed.

Lemma keeps_send_loop {X} (f : state -> X) ss :
  os_blind f -> keeps f (send_loop ss).
Proof.
  intros H.
  remember (List.length ss) as n eqn:En.
  revert ss En. induction n as [n IH] using lt_wf_ind. intros ss En.
  rewrite send_loop_eq.
  destruct (le_lt_dec buffer_size (List.length ss)) as [Hle|Hlt].
  - apply keeps_bind; [apply keeps_write_buffer; assumption|].
    intros _. eapply IH; [|reflexivity].
    subst n. apply skipn_buffer_shorter. assumption.
  - apply keeps_write_buffer; assumption.
Qed.

Lemma keeps_send_message {X} (f : state -> X) ms :
  os_blind f -> (forall v s, f (with_sent v s) = f s) ->
  keeps f (send_message ms).
Proof.
  intros H Hs. unfold send_message. apply keeps_bind.
  - apply keeps_modify. intros s. apply Hs.
  - intros _. apply keeps_send_loop. assumption.
Qed.

Lemma keeps_read_loop {X} (f : state -> X) ss :
  read_blind f -> keeps f (read_loop ss).
Proof.
  intros H s.
  remember (List.length (inbox s)) as n eqn:En.
  revert ss s En. induction n as [n IH] using lt_wf_ind. intros ss s En.
  rewrite read_loop_eq.
  pose proof (keeps_sys_read f (read (p s)) buffer_size H s) as Hk.
  destruct (sys_read (read (p s)) buffer_size s) as [[[r buffer]|e|code] s1] eqn:E;
    cbn [snd] in *; try assumption.
  destruct (r =? 0) eqn:E0; [assumption|].
  destruct (r =? -1) eqn:E1; [assumption|].
  rewrite <- Hk. eapply IH; [|reflexivity].
  subst n. eapply sys_read_progress; eassumption.
Qed.

Lemma keeps_print_cerr {X} (f : state -> X) line :
  (forall v s, f (with_cerr v s) = f s) -> keeps f (print_cerr line).
Proof. intros H s. apply H. Qed.

Lemma keeps_pipe_t_dtor {X} (f : state -> X) :
  os_blind f -> flag_blind f -> (forall v s, f (with_cerr v s) = f s) ->
  keeps f pipe_t_dtor.
Proof.
  intros H F Hc. unfold pipe_t_dtor. apply keeps_try_catch.
  - apply keeps_bind; [apply keeps_close_r; assumption|].
    intros _. apply keeps_close_w; assumption.
  - intros e. apply keeps_bind; [apply keeps_print_cerr; assumption|].
    intros _. apply keeps_exit.
Qed.

Lemma keeps_with_pipe {X A} (f : state -> X) (body : M A) :
  keeps f body -> keeps f pipe_t_dtor -> keeps f (with_pipe body).
Proof.
  intros Hb Hd s. unfold with_pipe. specialize (Hb s).
  destruct (body s) as [[a|e|code] s1]; cbn [snd] in *; try assumption;
    specialize (Hd s1);
    destruct (pipe_t_dtor s1) as [[u|e'|code'] s2]; cbn [snd] in *; congruence.
Qed.

(** The fields used below are blind in the required ways. *)
Lemma os_blind_isl : os_blind isl. Proof. repeat split. Qed.
Lemma os_blind_m : os_blind m. Proof. repeat split. Qed.
Lemma os_blind_p : os_blind p. Proof. repeat split. Qed.
Lemma os_blind_os : os_blind os. Proof. repeat split. Qed.
Lemma os_blind_cerr : os_blind cerr. Proof. repeat split. Qed.
Lemma os_blind_sent : os_blind sent. Proof. repeat split. Qed.
Lemma flag_blind_isl : flag_blind isl. Proof. intros r w s. reflexivity. Qed.
Lemma flag_blind_m : flag_blind m. Proof. intros r w s. reflexivity. Qed.
Lemma flag_blind_os : flag_blind os. Proof. intros r w s. reflexivity. Qed.
Lemma flag_blind_cerr : flag_blind cerr. Proof. intros r w s. reflexivity. Qed.
Lemma flag_blind_sent : flag_blind sent. Proof. intros r w s. reflexivity. Qed.
Lemma flag_blind_read : flag_blind (fun s => read (p s)).
Proof. intros r w s. reflexivity. Qed.
Lemma flag_blind_write : flag_blind (fun s => write (p s)).
Proof. intros r w s. reflexivity. Qed.
Lemma os_blind_read : os_blind (fun s => read (p s)). Proof. repeat split. Qed.
Lemma os_blind_write : os_blind (fun s => write (p s)). Proof. repeat split. Qed.

(** ** The pipe wrapper *)

Lemma close_r_closed s : r_status (p s) = false -> close_r s = (Normal tt, s).
Proof. intros H. unfold close_r, bind, get. rewrite H. reflexivity. Qed.

Lemma close_w_closed s : w_status (p s) = false -> close_w s = (Normal tt, s).
Proof. intros H. unfold close_w, bind, get. rewrite H. reflexivity. Qed.

Lemma close_r_ok s :
  r_status (p s) = true -> hd None (closes s) = None ->
  close_r s =
  (Normal tt,
   with_p (mk_pipe (read (p s)) (write (p s)) false (w_status (p s)))
     (log (SysClose (read (p s))) 0 (with_closes (tl (closes s)) s))).
Proof.
  intros H Hc. unfold close_r, bind, get, sys_close. rewrite H, Hc. reflexivity.
Qed.

Lemma close_w_ok s :
  w_status (p s) = true -> hd None (closes s) = None ->
  close_w s =
  (Normal tt,
   with_p (mk_pipe (read (p s)) (write (p s)) (r_status (p s)) false)
     (log (SysClose (write (p s))) 0 (with_closes (tl (closes s)) s))).
Proof.
  intros H Hc. unfold close_w, bind, get, sys_close. rewrite H, Hc. reflexivity.
Qed.

Lemma close_r_fail s e :
  r_status (p s) = true -> hd None (closes s) = Some e ->
  close_r s =
  (Throw (SyscallFailure "close" e),
   log (SysClose (read (p s))) (-1) (with_errno e (with_closes (tl (closes s)) s))).
Proof.
  intros H Hc. unfold close_r, bind, get, sys_close. rewrite H, Hc. reflexivity.
Qed.

Lemma close_w_fail s e :
  w_status (p s) = true -> hd None (closes s) = Some e ->
  close_w s =
  (Throw (SyscallFailure "close" e),
   log (SysClose (write (p s))) (-1) (with_errno e (with_closes (tl (closes s)) s))).
Proof.
  intros H Hc. unfold close_w, bind, get, sys_close. rewrite H, Hc. reflexivity.
Qed.

Lemma pipe_t_dtor_first_close s :
  r_status (p s) = true ->
  exists r t,
    trace (snd (pipe_t_dtor s)) = trace s ++ (SysClose (read (p s)), r) :: t.
Proof.
  intros H. unfold pipe_t_dtor, try_catch, bind.
  destruct (hd None (closes s)) as [e|] eqn:Hc.
  - rewrite (close_r_fail s e H Hc). exists (-1), []. reflexivity.
  - rewrite (close_r_ok s H Hc).
    set (s1 := with_p _ _).
    assert (Ht : trace s1 = trace s ++ [(SysClose (read (p s)), 0)]) by reflexivity.
    pose proof (keeps_close_w cerr os_blind_cerr flag_blind_cerr s1) as Hk.
    destruct (w_status (p s1)) eqn:Hw.
    + destruct (hd None (closes s1)) as [e|] eqn:Hc1.
      * rewrite (close_w_fail s1 e Hw Hc1). cbn [snd trace print_cerr modify exit].
        exists 0, [(SysClose (write (p s1)), -1)].
        cbn. rewrite <- app_assoc. reflexivity.
      * rewrite (close_w_ok s1 Hw Hc1).
        exists 0, [(SysClose (write (p s1)), 0)].
        cbn. rewrite <- app_assoc. reflexivity.
    + rewrite (close_w_closed s1 Hw). exists 0, []. exact Ht.
Qed.

Lemma pipe_t_dtor_write_close s :
  w_status (p s) = true -> fst (close_r s) = Normal tt ->
  exists r t1 t2,
    trace (snd (pipe_t_dtor s))
    = trace s ++ t1 ++ (SysClose (write (p s)), r) :: t2.
Proof.
  intros Hw Hn. unfold pipe_t_dtor, try_catch, bind.
  assert (H1 : exists s1 t1,
             close_r s = (Normal tt, s1) /\ trace s1 = trace s ++ t1 /\
             p s1 = mk_pipe (read (p s)) (write (p s)) false (w_status (p s))).
  { destruct (r_status (p s)) eqn:Hr.
    - destruct (hd None (closes s)) as [e|] eqn:Hc.
      + rewrite (close_r_fail s e Hr Hc) in Hn. discriminate.
      + rewrite (close_r_ok s Hr Hc). eexists _, [_].
        split; [reflexivity|]. split; reflexivity.
    - rewrite (close_r_closed s Hr). exists s, [].
      split; [reflexivity|]. split; [symmetry; apply app_nil_r|].
      destruct (p s); cbn in *. subst. reflexivity. }
  destruct H1 as (s1 & t1 & E & Ht & Hp). rewrite E.
  assert (Hw1 : w_status (p s1) = true) by (rewrite Hp; exact Hw).
  assert (Hfd : write (p s1) = write (p s)) by (rewrite Hp; reflexivity).
  destruct (hd None (closes s1)) as [e|] eqn:Hc1.
  - rewrite (close_w_fail s1 e Hw1 Hc1). exists (-1), t1, [].
    cbn. rewrite Ht, Hfd, <- app_assoc. reflexivity.
  - rewrite (close_w_ok s1 Hw1 Hc1). exists 0, t1, [].
    cbn. rewrite Ht, Hfd, <- app_assoc. reflexivity.
Qed.

(** C9. A failed [close] leaves the open flag set, so the descriptor is
    closed again later.  For [close_r] (and likewise [close_w]): when the
    end is open and the [close] call fails with error [e], [close_r] throws
    the system-call failure for "close" and [r_status] is still [true]; any
    later [close_r] on that pipe, and the destructor, call [close] on the
    same descriptor again (for the write end the destructor does so once
    its own [close_r] has returned).  When the [close] call succeeds the
    flag becomes [false], and a later [close_r] makes no system call at
    all. *)
Theorem close_failure_leaves_flag_open s :
  (r_status (p s) = true ->
   (forall e, hd None (closes s) = Some e ->
      fst (close_r s) = Throw (SyscallFailure "close" e) /\
      p (snd (close_r s)) = p s /\
      trace (snd (close_r s)) = trace s ++ [(SysClose (read (p s)), -1)] /\
      forall s2, p s2 = p s ->
        (exists r, trace (snd (close_r s2))
                   = trace s2 ++ [(SysClose (read (p s)), r)]) /\
        (exists r t, trace (snd (pipe_t_dtor s2))
                     = trace s2 ++ (SysClose (read (p s)), r) :: t)) /\
   (hd None (closes s) = None ->
      fst (close_r s) = Normal tt /\
      r_status (p (snd (close_r s))) = false /\
      forall s2, p s2 = p (snd (close_r s)) -> close_r s2 = (Normal tt, s2)))
  /\
  (w_status (p s) = true ->
   (forall e, hd None (closes s) = Some e ->
      fst (close_w s) = Throw (SyscallFailure "close" e) /\
      p (snd (close_w s)) = p s /\
      trace (snd (close_w s)) = trace s ++ [(SysClose (write (p s)), -1)] /\
      forall s2, p s2 = p s ->
        (exists r, trace (snd (close_w s2))
                   = trace s2 ++ [(SysClose (write (p s)), r)]) /\
        (fst (close_r s2) = Normal tt ->
         exists r t1 t2, trace (snd (pipe_t_dtor s2))
                         = trace s2 ++ t1 ++ (SysClose (write (p s)), r) :: t2)) /\
   (hd None (closes s) = None ->
      fst (close_w s) = Normal tt /\
      w_status (p (snd (close_w s))) = false /\
      forall s2, p s2 = p (snd (close_w s)) -> close_w s2 = (Normal tt, s2))).
Proof.
  split; intros Hopen; split.
  - intros e He. rewrite (close_r_fail s e Hopen He). cbn [fst snd].
    refine (conj eq_refl (conj eq_refl (conj eq_refl _))). intros s2 Hp.
    assert (Hopen2 : r_status (p s2) = true) by (rewrite Hp; exact Hopen).
    split.
    + destruct (hd None (closes s2)) as [e2|] eqn:H2.
      * rewrite (close_r_fail s2 e2 Hopen2 H2). exists (-1).
        cbn. rewrite Hp. reflexivity.
      * rewrite (close_r_ok s2 Hopen2 H2). exists 0.
        cbn. rewrite Hp. reflexivity.
    + rewrite <- Hp. apply pipe_t_dtor_first_close. exact Hopen2.
  - intros Hc. rewrite (close_r_ok s Hopen Hc). cbn [fst snd].
    refine (conj eq_refl (conj eq_refl _)). intros s2 Hp. apply close_r_closed. rewrite Hp. reflexivity.
  - intros e He. rewrite (close_w_fail s e Hopen He). cbn [fst snd].
    refine (conj eq_refl (conj eq_refl (conj eq_refl _))). intros s2 Hp.
    assert (Hopen2 : w_status (p s2) = true) by (rewrite Hp; exact Hopen).
    split.
    + destruct (hd None (closes s2)) as [e2|] eqn:H2.
      * rewrite (close_w_fail s2 e2 Hopen2 H2). exists (-1).
        cbn. rewrite Hp. reflexivity.
      * rewrite (close_w_ok s2 Hopen2 H2). exists 0.
        cbn. rewrite Hp. reflexivity.
    + intros Hn. rewrite <- Hp. apply pipe_t_dtor_write_close; assumption.
  - intros Hc. rewrite (close_w_ok s Hopen Hc). cbn [fst snd].
    refine (conj eq_refl (conj eq_refl _)). intros s2 Hp. apply close_w_closed. rewrite Hp. reflexivity.
Qed.

Lemma close_r_no_exit s code : fst (close_r s) <> Exit code.
Proof.
  destruct (r_status (p s)) eqn:Hr.
  - destruct (hd None (closes s)) as [e|] eqn:Hc.
    + rewrite (close_r_fail s e Hr Hc). discriminate.
    + rewrite (close_r_ok s Hr Hc). discriminate.
  - rewrite (close_r_closed s Hr). discriminate.
Qed.

Lemma close_w_no_exit s code : fst (close_w s) <> Exit code.
Proof.
  destruct (w_status (p s)) eqn:Hw.
  - destruct (hd None (closes s)) as [e|] eqn:Hc.
    + rewrite (close_w_fail s e Hw Hc). discriminate.
    + rewrite (close_w_ok s Hw Hc). discriminate.
  - rewrite (close_w_closed s Hw). discriminate.
Qed.

(** The destructor returns, or exits with status 1. *)
Lemma pipe_t_dtor_outcome s :
  fst (pipe_t_dtor s) = Normal tt \/ fst (pipe_t_dtor s) = Exit 1.
Proof.
  unfold pipe_t_dtor, try_catch.
  destruct (bind close_r (fun _ => close_w) s) as [[[]|e|code] s1] eqn:E.
  - left. reflexivity.
  - right. reflexivity.
  - exfalso. unfold bind in E.
    pose proof (close_r_no_exit s) as Hr.
    destruct (close_r s) as [[[]|e0|c0] s0]; cbn [fst] in Hr.
    + apply (close_w_no_exit s0 code). rewrite E. reflexivity.
    + discriminate.
    + apply (Hr c0). reflexivity.
Qed.

(** ** The sender *)

Lemma write_buffer_ok s buf :
  hd None (writes s) = None ->
  write_buffer buf s = (Normal tt, after_writes [buf] s).
Proof.
  intros H. unfold write_buffer, bind, get, sys_write. rewrite H. cbv zeta.
  replace (Z.of_nat (List.length buf) =? -1) with false
    by (symmetry; apply Z.eqb_neq; lia).
  reflexivity.
Qed.

Lemma write_buffer_fail s buf e :
  hd None (writes s) = Some e ->
  write_buffer buf s
  = (Throw (SyscallFailure "write" e), after_failed_write buf e s).
Proof.
  intros H. unfold write_buffer, bind, get, sys_write. rewrite H. reflexivity.
Qed.

Lemma after_writes_blind {X} (f : state -> X) chunks s :
  os_blind f -> f (after_writes chunks s) = f s.
Proof.
  intros H. revert s. induction chunks as [|c cs IH]; intros s; [reflexivity|].
  cbn [after_writes]. rewrite IH. os_rewrite H. reflexivity.
Qed.

Lemma after_writes_trace chunks s :
  trace (after_writes chunks s)
  = trace s ++ map (write_ok (write (p s))) chunks.
Proof.
  revert s. induction chunks as [|c cs IH]; intros s; cbn [after_writes map].
  - rewrite app_nil_r. reflexivity.
  - rewrite IH. cbn. rewrite <- app_assoc. reflexivity.
Qed.

Lemma after_writes_writes chunks s :
  writes (after_writes chunks s) = skipn (List.length chunks) (writes s).
Proof.
  revert s. induction chunks as [|c cs IH]; intros s; cbn [after_writes].
  - reflexivity.
  - rewrite IH. cbn. destruct (writes s); [apply skipn_nil|reflexivity].
Qed.

Lemma nth_tl {A} k (l : list A) d : nth k (tl l) d = nth (S k) l d.
Proof. destruct l; [destruct k|]; reflexivity. Qed.

Lemma hd_nth {A} (l : list A) d : hd d l = nth 0 l d.
Proof. destruct l; reflexivity. Qed.

Lemma short_firstn ss : short (firstn buffer_size ss).
Proof. unfold short. rewrite length_firstn. lia. Qed.

Lemma send_loop_spec ss s :
  (exists chunks,
      concat chunks = ss /\ Forall short chunks /\
      send_loop ss s = (Normal tt, after_writes chunks s))
  \/
  (exists chunks c rest err,
      ss = concat chunks ++ c ++ rest /\ Forall short (chunks ++ [c]) /\
      nth (List.length chunks) (writes s) None = Some err /\
      send_loop ss s
      = (Throw (SyscallFailure "write" err),
         after_failed_write c err (after_writes chunks s))).
Proof.
  remember (List.length ss) as n eqn:En.
  revert ss s En. induction n as [n IH] using lt_wf_ind. intros ss s En.
  rewrite send_loop_eq.
  destruct (hd None (writes s)) as [e|] eqn:Hw.
  - (* the first write fails *)
    right. exists [], (firstn buffer_size ss), (skipn buffer_size ss), e.
    split; [cbn [concat app]; symmetry; apply firstn_skipn|].
    split; [constructor; [apply short_firstn|constructor]|].
    split; [cbn [List.length]; rewrite <- hd_nth; exact Hw|].
    destruct (le_lt_dec buffer_size (List.length ss)); unfold bind;
      rewrite (write_buffer_fail s _ e Hw); reflexivity.
  - destruct (le_lt_dec buffer_size (List.length ss)) as [Hle|Hlt].
    + unfold bind. rewrite (write_buffer_ok s _ Hw).
      set (s1 := after_writes [firstn buffer_size ss] s).
      destruct (IH (List.length (skipn buffer_size ss))
                   ltac:(subst n; apply skipn_buffer_shorter; exact Hle)
                   (skipn buffer_size ss) s1 eq_refl)
        as [(chunks & Hcat & Hshort & Heq)
           |(chunks & c & rest & err & Hcat & Hshort & Hnth & Heq)].
      * left. exists (firstn buffer_size ss :: chunks).
        split; [cbn [concat]; rewrite Hcat; apply firstn_skipn|].
        split; [constructor; [apply short_firstn|exact Hshort]|].
        exact Heq.
      * right. exists (firstn buffer_size ss :: chunks), c, rest, err.
        split; [cbn [concat]; rewrite <- app_assoc, <- Hcat; symmetry;
                apply firstn_skipn|].
        split; [cbn [app]; constructor; [apply short_firstn|exact Hshort]|].
        split; [cbn [List.length]; rewrite <- nth_tl; exact Hnth|].
        exact Heq.
    + left. exists [firstn buffer_size ss].
      split; [cbn [concat]; rewrite app_nil_r; apply firstn_all2; lia|].
      split; [constructor; [apply short_firstn|constructor]|].
      apply write_buffer_ok. exact Hw.
Qed.

Lemma send_loop_ok ss s :
  Forall (eq None) (writes s) ->
  exists chunks,
    concat chunks = ss /\ send_loop ss s = (Normal tt, after_writes chunks s).
Proof.
  intros Hall.
  destruct (send_loop_spec ss s)
    as [(chunks & Hcat & _ & Heq)|(chunks & c & rest & err & _ & _ & Hnth & _)].
  - exists chunks. split; assumption.
  - exfalso.
    destruct (Nat.lt_ge_cases (List.length chunks) (List.length (writes s)))
      as [Hlt|Hge].
    + rewrite Forall_forall in Hall.
      specialize (Hall _ (nth_In (writes s) None Hlt)). congruence.
    + rewrite nth_overflow in Hnth by exact Hge. discriminate.
Qed.

Lemma buffer_size_value : buffer_size = 1024%nat.
Proof. Transparent buffer_size. reflexivity. Qed.
Opaque buffer_size.

(** C6. [send_message] hands the encoded message to [write] on the pipe's
    write end in buffers of at most 1024 bytes.  Either every [write]
    succeeds, and then the buffers written, in order, concatenate to the
    whole encoded message; or some [write] fails with error code [err],
    and then [send_message] throws the system-call failure naming "write"
    and [err], having written before it only whole buffers that form a
    prefix of the encoded message. *)
Theorem send_message_chunked ms s :
  let fd := write (p s) in
  let r := send_message ms s in
  (exists chunks,
      fst r = Normal tt /\
      concat chunks = oarchive ms /\
      Forall (fun c => (List.length c <= 1024)%nat) chunks /\
      trace (snd r) = trace s ++ map (write_ok fd) chunks)
  \/
  (exists chunks c rest err,
      fst r = Throw (SyscallFailure "write" err) /\
      oarchive ms = concat chunks ++ c ++ rest /\
      Forall (fun c => (List.length c <= 1024)%nat) (chunks ++ [c]) /\
      trace (snd r) = trace s ++ map (write_ok fd) chunks ++ [(SysWrite fd c, -1)] /\
      nth (List.length chunks) (writes s) None = Some err /\
      errno (snd r) = err).
Proof.
  intros fd r. subst fd r. rewrite <- buffer_size_value. fold short.
  unfold send_message, bind, modify.
  set (s0 := with_sent (sent s ++ [ms]) s).
  destruct (send_loop_spec (oarchive ms) s0)
    as [(chunks & Hcat & Hshort & Heq)
       |(chunks & c & rest & err & Hcat & Hshort & Hnth & Heq)];
    rewrite Heq; cbn [fst snd].
  - left. exists chunks. repeat split; try assumption.
    rewrite after_writes_trace. reflexivity.
  - right. exists chunks, c, rest, err. repeat split; try assumption.
    unfold after_failed_write. cbn [trace log with_trace with_errno with_writes].
    rewrite after_writes_trace.
    rewrite (after_writes_blind (fun s => write (p s)) chunks s0 os_blind_write).
    rewrite <- app_assoc. reflexivity.
Qed.

(** ** Frames of the two sides *)

Lemma local_blind_isl : local_blind isl.
Proof. repeat split. Qed.
Lemma local_blind_os : local_blind os.
Proof. repeat split. Qed.

Lemma keeps_fatal {X A} (f : state -> X) line code :
  (forall v s, f (with_cerr v s) = f s) ->
  keeps f (bind (print_cerr line) (fun _ => exit (A:=A) code)).
Proof.
  intros H. apply keeps_bind; [apply keeps_print_cerr; exact H|].
  intros _. apply keeps_exit.
Qed.

Lemma keeps_parent_receive {X} (f : state -> X) :
  os_blind f -> flag_blind f -> (forall v s, f (with_m v s) = f s) ->
  keeps f parent_receive.
Proof.
  intros H F Hm. unfold parent_receive.
  apply keeps_bind; [apply keeps_close_w; assumption|]. intros _.
  apply keeps_bind;
    [apply keeps_read_loop, os_blind_read_blind; assumption|]. intros ss.
  apply keeps_bind; [|intros _; apply keeps_close_r; assumption].
  destruct (iarchive ss); [apply keeps_throw|].
  apply keeps_modify. intros s. apply Hm.
Qed.

Lemma keeps_parent_catch {X} (f : state -> X) child_pid e :
  os_blind f -> (forall v s, f (with_cerr v s) = f s) ->
  keeps f (parent_catch child_pid e).
Proof.
  intros H Hc. unfold parent_catch.
  apply keeps_bind; [apply keeps_sys_kill; assumption|]. intros r.
  apply keeps_bind; [apply keeps_get|]. intros s0.
  destruct (_ && _); [apply keeps_fatal; assumption|apply keeps_throw].
Qed.

Lemma keeps_run_task {X} (f : state -> X) : keeps f run_task.
Proof.
  unfold run_task. apply keeps_bind; [apply keeps_get|]. intros s0.
  destruct (evolve _ _ _); [apply keeps_ret|apply keeps_throw].
Qed.

Lemma keeps_child_evolve {X} (f : state -> X) :
  os_blind f -> local_blind f -> keeps f child_evolve.
Proof.
  intros H (F & Hm & Hs & Hc). unfold child_evolve.
  apply keeps_bind; [apply keeps_close_r; assumption|]. intros _.
  apply keeps_bind; [apply keeps_run_task|]. intros r.
  apply keeps_bind; [apply keeps_modify; intros s; apply Hm|]. intros _.
  apply keeps_bind; [apply keeps_get|]. intros s0.
  apply keeps_bind; [apply keeps_send_message; assumption|]. intros _.
  apply keeps_bind; [apply keeps_close_w; assumption|]. intros _.
  apply keeps_exit.
Qed.

Lemma keeps_child_catch {X} (f : state -> X) e :
  (forall v s, f (with_m v s) = f s) ->
  (forall v s, f (with_cerr v s) = f s) -> keeps f (child_catch e).
Proof.
  intros Hm Hc.
  assert (Hw : keeps f (try_catch (set_what e)
                          (fun _ => bind (print_cerr fatal_msg) (fun _ => exit 1)))).
  { apply keeps_try_catch; [|intros e'; apply keeps_fatal; assumption].
    unfold set_what. apply keeps_bind; [apply keeps_get|]. intros s0.
    destruct (what_fault (os s0)); [apply keeps_throw|].
    apply keeps_modify. intros s. apply Hm. }
  destruct e; [exact Hw|exact Hw|apply keeps_ret].
Qed.

Lemma keeps_child_report {X} (f : state -> X) :
  os_blind f -> local_blind f -> keeps f child_report.
Proof.
  intros H (F & Hm & Hs & Hc). unfold child_report.
  apply keeps_bind.
  { unfold reset_results. apply keeps_bind; [apply keeps_get|]. intros s0.
    destruct (reset_fault (os s0)); [apply keeps_throw|].
    apply keeps_modify. intros s. apply Hm. }
  intros _.
  apply keeps_bind; [apply keeps_get|]. intros s0.
  apply keeps_bind; [apply keeps_send_message; assumption|]. intros _.
  apply keeps_bind; [apply keeps_close_w; assumption|]. intros _.
  apply keeps_exit.
Qed.

Lemma keeps_child {X} (f : state -> X) :
  os_blind f -> local_blind f -> keeps f child.
Proof.
  intros H L. unfold child.
  apply keeps_bind.
  { apply keeps_try_catch; [apply keeps_child_evolve; assumption|].
    intros e. apply keeps_child_catch; apply L. }
  intros _. destruct L as (F & Hm & Hs & Hc).
  apply keeps_bind; [apply keeps_modify; intros s; apply Hm|]. intros _.
  apply keeps_try_catch;
    [apply keeps_child_report; [assumption|unfold local_blind; auto]|].
  intros e. apply keeps_fatal. assumption.
Qed.

(** ** The parent's handler *)

Lemma parent_failure_handler child_pid s e s1 :
  parent_receive s = (Throw e, s1) ->
  let r := try_catch parent_receive (parent_catch child_pid) s in
  fst r = (if kill_tolerated (os s) then Throw e else Exit 1) /\
  trace (snd r)
  = trace s1 ++ [(SysKill child_pid SIGTERM,
                  match kill_reply (os s) with Some _ => -1 | None => 0 end)] /\
  cerr (snd r)
  = (if kill_tolerated (os s) then cerr s1 else cerr s1 ++ [parent_fatal_msg]) /\
  isl (snd r) = isl s.
Proof.
  intros H r. subst r. unfold try_catch. rewrite H.
  pose proof (keeps_eq os _ _ _ _
                (keeps_parent_receive os os_blind_os flag_blind_os
                   (fun _ _ => eq_refl)) H) as Hos.
  pose proof (keeps_eq isl _ _ _ _
                (keeps_parent_receive isl os_blind_isl flag_blind_isl
                   (fun _ _ => eq_refl)) H) as Hisl.
  unfold kill_tolerated. rewrite <- Hos, <- Hisl.
  unfold parent_catch, bind, sys_kill, get.
  destruct (kill_reply (os s1)) as [err|].
  - cbn [errno log with_trace with_errno Z.eqb Pos.eqb andb].
    destruct (err =? ESRCH); cbn [negb];
      repeat split; reflexivity.
  - repeat split; reflexivity.
Qed.

(** C7. When the parent's [try] block (close the write end, read to the end
    of the channel, decode, close the read end) throws [e], the handler
    sends [SIGTERM] to the child.  If [kill] succeeds or fails with [ESRCH]
    the same exception [e] is thrown again by the handler and nothing is
    printed; if [kill] fails with any other error the parent prints its
    fixed diagnostic and exits with status 1.  The island is not touched.
    The exception thrown again leaves the scope of the pipe as [e] itself
    when the pipe's destructor returns. *)
Theorem parent_failure_kills_child_and_rethrows child_pid s e s1 :
  parent_receive s = (Throw e, s1) ->
  let r := try_catch parent_receive (parent_catch child_pid) s in
  fst r = (if kill_tolerated (os s) then Throw e else Exit 1) /\
  trace (snd r)
  = trace s1 ++ [(SysKill child_pid SIGTERM,
                  match kill_reply (os s) with Some _ => -1 | None => 0 end)] /\
  cerr (snd r)
  = (if kill_tolerated (os s) then cerr s1 else cerr s1 ++ [parent_fatal_msg]) /\
  isl (snd r) = isl s /\
  fst (with_pipe (parent child_pid) s)
  = (if kill_tolerated (os s)
     then match fst (pipe_t_dtor (snd r)) with
          | Normal _ => Throw e
          | _ => Exit 1
          end
     else Exit 1).
Proof.
  intros H r.
  destruct (parent_failure_handler child_pid s e s1 H) as (Ho & Ht & Hc & Hi).
  fold r in Ho, Ht, Hc, Hi.
  split; [exact Ho|]. split; [exact Ht|]. split; [exact Hc|].
  split; [exact Hi|].
  unfold with_pipe, parent. unfold bind at 1. fold r.
  destruct r as [o s2]. cbn [fst snd] in *. subst o.
  destruct (kill_tolerated (os s)); [|reflexivity].
  destruct (pipe_t_dtor_outcome s2) as [Hd|Hd];
    destruct (pipe_t_dtor s2) as [[[]|e'|code] s3]; cbn [fst] in *;
    try discriminate; try reflexivity.
  inversion Hd. reflexivity.
Qed.

(** ** Double faults *)

Lemma no_return_exit {A} code : no_return (exit (A:=A) code).
Proof. intros s. exact I. Qed.

Lemma no_return_bind {A B} (c : M A) (k : A -> M B) :
  (forall a, no_return (k a)) -> no_return (bind c k).
Proof.
  intros H s. unfold bind. destruct (c s) as [[a|e|code] s1]; cbn [fst];
    try exact I. apply H.
Qed.

Lemma no_return_child_evolve : no_return child_evolve.
Proof.
  unfold child_evolve. repeat (apply no_return_bind; intros ?).
  apply no_return_exit.
Qed.

Lemma no_return_child_report : no_return child_report.
Proof.
  unfold child_report. repeat (apply no_return_bind; intros ?).
  apply no_return_exit.
Qed.

Lemma fatal_run {A} line code s :
  bind (print_cerr line) (fun _ => exit (A:=A) code) s
  = (Exit code, with_cerr (cerr s ++ [line]) s).
Proof. reflexivity. Qed.

Lemma child_catch_no_throw e s e' : fst (child_catch e s) <> Throw e'.
Proof.
  assert (H : fst (try_catch (set_what e)
                     (fun _ => bind (print_cerr fatal_msg) (fun _ => exit 1)) s)
              <> Throw e').
  { unfold try_catch, set_what, bind, get.
    destruct (what_fault (os s)); cbn; discriminate. }
  destruct e; cbn [child_catch]; try exact H. cbn. discriminate.
Qed.

Lemma child_exits s : exists code, fst (child s) = Exit code.
Proof.
  unfold child, bind.
  destruct (try_catch child_evolve child_catch s) as [[[]|e|code] s1] eqn:E1.
  - cbn [modify]. set (s2 := with_m _ s1). unfold try_catch.
    pose proof (no_return_child_report s2) as Hn.
    destruct (child_report s2) as [[[]|e|code] s3]; cbn [fst] in *.
    + contradiction.
    + exists 1. reflexivity.
    + exists code. reflexivity.
  - exfalso. unfold try_catch in E1.
    pose proof (no_return_child_evolve s) as Hn.
    destruct (child_evolve s) as [[[]|e0|code] s0]; cbn [fst] in *.
    + contradiction.
    + apply (child_catch_no_throw e0 s0 e). rewrite E1. reflexivity.
    + discriminate.
  - exists code. reflexivity.
Qed.

(** C8. A failure inside a cleanup path or inside a failure handler is never
    thrown on: the process prints a fixed diagnostic on [std::cerr] and
    exits with status 1.
    - Pipe destruction: if closing the ends in [~pipe_t] throws, the
      destructor prints [dtor_msg] and exits with 1, also when it runs
      because the scope of [p] is left by a return or by an exception; the
      destructor never throws.
    - Parent: if the [try] block throws and [kill] fails with an error
      other than [ESRCH], the parent prints [parent_fatal_msg] and exits
      with 1.
    - Child, capturing the message: if the first [try] block throws an
      exception derived from [std::exception] and copying [what()] into the
      message throws, the child prints [fatal_msg] and exits with 1.
    - Child, reporting the failure: if the second [try] block throws, the
      child prints [fatal_msg] and exits with 1.
    - The child always ends in [std::exit]: it neither returns nor throws. *)
Theorem double_fault_exits :
  (forall s e s1,
      bind close_r (fun _ => close_w) s = (Throw e, s1) ->
      pipe_t_dtor s = (Exit 1, with_cerr (cerr s1 ++ [dtor_msg]) s1)) /\
  (forall A (body : M A) s o s1 e s2,
      body s = (o, s1) -> (forall code, o <> Exit code) ->
      bind close_r (fun _ => close_w) s1 = (Throw e, s2) ->
      with_pipe body s = (Exit 1, with_cerr (cerr s2 ++ [dtor_msg]) s2)) /\
  (forall s e, fst (pipe_t_dtor s) <> Throw e) /\
  (forall child_pid s e s1,
      parent_receive s = (Throw e, s1) -> kill_tolerated (os s) = false ->
      fst (parent child_pid s) = Exit 1 /\
      cerr (snd (parent child_pid s)) = cerr s1 ++ [parent_fatal_msg]) /\
  (forall s e s1,
      child_evolve s = (Throw e, s1) -> e <> unknown_exception ->
      what_fault (os s) = true ->
      child s = (Exit 1, with_cerr (cerr s1 ++ [fatal_msg]) s1)) /\
  (forall s s1 e s2,
      try_catch child_evolve child_catch s = (Normal tt, s1) ->
      child_report (with_m (set0 1 (m s1)) s1) = (Throw e, s2) ->
      child s = (Exit 1, with_cerr (cerr s2 ++ [fatal_msg]) s2)) /\
  (forall s, exists code, fst (child s) = Exit code).
Proof.
  assert (Hdtor : forall s e s1,
             bind close_r (fun _ => close_w) s = (Throw e, s1) ->
             pipe_t_dtor s = (Exit 1, with_cerr (cerr s1 ++ [dtor_msg]) s1)).
  { intros s e s1 H. unfold pipe_t_dtor, try_catch. rewrite H.
    apply fatal_run. }
  split; [exact Hdtor|].
  split.
  { intros A body s o s1 e s2 Hb Ho Hd. unfold with_pipe. rewrite Hb.
    rewrite (Hdtor _ _ _ Hd).
    destruct o as [a|e0|code]; try reflexivity.
    exfalso. exact (Ho code eq_refl). }
  split.
  { intros s e. unfold pipe_t_dtor, try_catch.
    destruct (bind close_r (fun _ => close_w) s) as [[[]|e0|code] s1];
      cbn; discriminate. }
  split.
  { intros child_pid s e s1 H Hk.
    destruct (parent_failure_handler child_pid s e s1 H) as (Ho & _ & Hc & _).
    rewrite Hk in Ho, Hc. unfold parent, bind.
    destruct (try_catch parent_receive (parent_catch child_pid) s)
      as [o s2]; cbn [fst snd] in *. subst o. split; [reflexivity|exact Hc]. }
  split.
  { intros s e s1 H He Hf. unfold child. unfold bind at 1.
    unfold try_catch at 1. rewrite H.
    pose proof (keeps_eq os _ _ _ _
                  (keeps_child_evolve os os_blind_os local_blind_os) H) as Hos.
    assert (Hc : child_catch e s1
                 = (Exit 1, with_cerr (cerr s1 ++ [fatal_msg]) s1)).
    { destruct e; try congruence;
        cbn [child_catch]; unfold try_catch, set_what, bind, get;
        rewrite Hos, Hf; reflexivity. }
    rewrite Hc. reflexivity. }
  split.
  { intros s s1 e s2 H1 H2. unfold child, bind. rewrite H1.
    cbn [modify]. unfold try_catch. rewrite H2. apply fatal_run. }
  exact child_exits.
Qed.

(** ** The caller's island *)

Lemma close_r_normal s s' :
  close_r s = (Normal tt, s') ->
  r_status (p s') = false /\ w_status (p s') = w_status (p s).
Proof.
  intros H. destruct (r_status (p s)) eqn:Hr.
  - destruct (hd None (closes s)) as [e|] eqn:Hc.
    + rewrite (close_r_fail s e Hr Hc) in H. discriminate.
    + rewrite (close_r_ok s Hr Hc) in H. inversion H. split; reflexivity.
  - rewrite (close_r_closed s Hr) in H. inversion H. subst s'.
    split; [exact Hr|reflexivity].
Qed.

Lemma close_w_normal s s' :
  close_w s = (Normal tt, s') ->
  w_status (p s') = false /\ r_status (p s') = r_status (p s).
Proof.
  intros H. destruct (w_status (p s)) eqn:Hw.
  - destruct (hd None (closes s)) as [e|] eqn:Hc.
    + rewrite (close_w_fail s e Hw Hc) in H. discriminate.
    + rewrite (close_w_ok s Hw Hc) in H. inversion H. split; reflexivity.
  - rewrite (close_w_closed s Hw) in H. inversion H. subst s'.
    split; [exact Hw|reflexivity].
Qed.

Lemma read_blind_p : read_blind p.
Proof. repeat split. Qed.

Lemma parent_receive_normal s s' :
  parent_receive s = (Normal tt, s') ->
  r_status (p s') = false /\ w_status (p s') = false.
Proof.
  unfold parent_receive, bind. intros H.
  destruct (close_w s) as [[[]|e|code] s1] eqn:E1; try discriminate.
  destruct (read_loop [] s1) as [[ss|e|code] s2] eqn:E2; try discriminate.
  pose proof (keeps_eq p _ _ _ _ (keeps_read_loop p [] read_blind_p) E2) as Hp.
  destruct (close_w_normal _ _ E1) as [Hw _].
  destruct (iarchive ss) as [w|ms]; [discriminate|].
  cbn [modify] in H.
  destruct (close_r (with_m ms s2)) as [[[]|e|code] s3] eqn:E3;
    try discriminate.
  inversion H. subst s'.
  destruct (close_r_normal _ _ E3) as [Hr Hw']. split; [exact Hr|].
  rewrite Hw'. cbn [p with_m]. rewrite Hp. exact Hw.
Qed.

Lemma parent_catch_no_return child_pid e s :
  fst (parent_catch child_pid e s) <> Normal tt.
Proof.
  unfold parent_catch, bind, get.
  destruct (sys_kill child_pid SIGTERM s) as [[r|e0|code] s1]; cbn [fst];
    try discriminate.
  destruct (_ && _); cbn; discriminate.
Qed.

Lemma os_blind_installs : os_blind installs. Proof. repeat split. Qed.
Lemma flag_blind_installs : flag_blind installs.
Proof. intros r w s. reflexivity. Qed.

Lemma parent_post child_pid s :
  installs_whole s ->
  match parent child_pid s with
  | (Normal _, s') => r_status (p s') = false /\ w_status (p s') = false
  | (_, s') => isl s' = isl s
  end.
Proof.
  intros Hok. unfold installs_whole in Hok.
  rewrite <- nth_tl, <- !hd_nth in Hok.
  unfold parent. unfold bind at 1.
  pose proof (keeps_try_catch isl parent_receive (parent_catch child_pid)
                (keeps_parent_receive isl os_blind_isl flag_blind_isl
                   (fun _ _ => eq_refl))
                (fun e => keeps_parent_catch isl child_pid e os_blind_isl
                            (fun _ _ => eq_refl)) s) as Hisl.
  pose proof (keeps_try_catch installs parent_receive (parent_catch child_pid)
                (keeps_parent_receive installs os_blind_installs
                   flag_blind_installs (fun _ _ => eq_refl))
                (fun e => keeps_parent_catch installs child_pid e
                            os_blind_installs (fun _ _ => eq_refl)) s) as Hins.
  destruct (try_catch parent_receive (parent_catch child_pid) s)
    as [[[]|e|code] s1] eqn:E; cbn [snd] in Hisl, Hins; try exact Hisl.
  assert (Hflags : r_status (p s1) = false /\ w_status (p s1) = false).
  { unfold try_catch in E.
    destruct (parent_receive s) as [[[]|e|code] s0] eqn:E0.
    - inversion E. subst s0. exact (parent_receive_normal _ _ E0).
    - exfalso. apply (parent_catch_no_return child_pid e s0).
      rewrite E. reflexivity.
    - discriminate. }
  unfold bind at 1, get. destruct (negb (get0 (m s1) =? 0)); [exact Hisl|].
  unfold bind, island_call. rewrite Hins.
  destruct (hd None (installs s)) as [e1|]; [exact Hisl|].
  cbn [installs with_isl with_installs]. rewrite (Hok eq_refl).
  exact Hflags.
Qed.

Lemma pipe_t_dtor_closed s :
  r_status (p s) = false -> w_status (p s) = false ->
  pipe_t_dtor s = (Normal tt, s).
Proof.
  intros Hr Hw. unfold pipe_t_dtor, try_catch, bind.
  rewrite (close_r_closed s Hr), (close_w_closed s Hw). reflexivity.
Qed.

Lemma keeps_pipe_t_ctor {X} (f : state -> X) :
  os_blind f -> (forall v s, f (with_p v s) = f s) -> keeps f pipe_t_ctor.
Proof.
  intros H Hp. unfold pipe_t_ctor.
  apply keeps_bind; [apply keeps_sys_pipe; assumption|]. intros r.
  apply keeps_bind.
  - destruct (fst r =? -1); [apply keeps_raise_errno|apply keeps_ret].
  - intros _. apply keeps_modify. intros s. apply Hp.
Qed.

Lemma run_evolve_post s :
  installs_whole s ->
  match run_evolve s with
  | (Normal _, _) => True
  | (_, s') => isl s' = isl s
  end.
Proof.
  intros Hok. unfold run_evolve. unfold bind at 1. cbn [modify].
  set (s0 := with_m message_def s).
  change (isl s) with (isl s0). change (installs_whole s0) in Hok.
  clearbody s0. unfold bind at 1.
  pose proof (keeps_pipe_t_ctor isl os_blind_isl (fun _ _ => eq_refl) s0) as H1.
  pose proof (keeps_pipe_t_ctor installs os_blind_installs
                (fun _ _ => eq_refl) s0) as K1.
  destruct (pipe_t_ctor s0) as [[[]|e|code] s1]; cbn [fst snd] in *;
    try exact H1.
  rewrite <- H1. unfold installs_whole in Hok. rewrite <- K1 in Hok.
  clear H1 K1 s0. unfold with_pipe.
  set (body := bind sys_fork _).
  assert (Hbody : match body s1 with
                  | (Normal _, s') =>
                      r_status (p s') = false /\ w_status (p s') = false
                  | (_, s') => isl s' = isl s1
                  end).
  { subst body. unfold bind at 1.
    pose proof (keeps_sys_fork isl os_blind_isl s1) as H2.
    pose proof (keeps_sys_fork installs os_blind_installs s1) as K2.
    destruct (sys_fork s1) as [[child_pid|e|code] s2]; cbn [snd] in H2, K2;
      try exact H2.
    rewrite <- H2. rewrite <- K2 in Hok. unfold bind at 1.
    destruct (child_pid =? -1); [reflexivity|]. cbn [ret].
    destruct (negb (child_pid =? 0)); [apply parent_post; exact Hok|].
    pose proof (keeps_child isl os_blind_isl local_blind_isl s2) as H3.
    destruct (child_exits s2) as [code Hcode].
    destruct (child s2) as [o s3]; cbn [fst snd] in *. subst o. exact H3. }
  destruct (body s1) as [[[]|e|code] s2]; cbv beta iota in Hbody.
  - destruct Hbody as [Hr Hw]. rewrite (pipe_t_dtor_closed s2 Hr Hw).
    exact I.
  - pose proof (keeps_pipe_t_dtor isl os_blind_isl flag_blind_isl
                  (fun _ _ => eq_refl) s2) as H4.
    destruct (pipe_t_dtor s2) as [[[]|e'|code] s3]; cbn [snd] in *;
      congruence.
  - exact Hbody.
Qed.

(** C3, amended.  [run_evolve] leaves the caller's island exactly as it was
    whenever it ends in another way than by returning (it throws, or the
    process exits), unless the island's [set_population] throws after its
    [set_algorithm] has returned.  Every failure of a system call, of the
    decoding, of the task in the child and of [set_algorithm] is covered. *)
Theorem run_evolve_failure_keeps_island s :
  fst (run_evolve s) <> Normal tt ->
  (nth 0 (installs s) None = None -> nth 1 (installs s) None = None) ->
  isl (snd (run_evolve s)) = isl s.
Proof.
  intros Hn Hok. pose proof (run_evolve_post s Hok) as H.
  destruct (run_evolve s) as [[[]|e|code] s']; cbn [fst snd] in *;
    [exfalso; apply Hn; reflexivity|exact H|exact H].
Qed.

(** ** The messages of the child *)

Lemma os_blind_wire_view : os_blind wire_view.
Proof. repeat split. Qed.
Lemma flag_blind_wire_view : flag_blind wire_view.
Proof. intros r w s. reflexivity. Qed.

Lemma wire_view_eq s s' :
  wire_view s' = wire_view s ->
  os s' = os s /\ isl s' = isl s /\ m s' = m s /\ sent s' = sent s.
Proof. unfold wire_view. intros H. inversion H. auto. Qed.

Lemma send_message_view ms s :
  let s' := snd (send_message ms s) in
  os s' = os s /\ isl s' = isl s /\ m s' = m s /\ sent s' = sent s ++ [ms].
Proof.
  unfold send_message, bind, modify.
  set (s0 := with_sent (sent s ++ [ms]) s).
  pose proof (keeps_send_loop wire_view (oarchive ms) os_blind_wire_view s0) as H.
  apply wire_view_eq in H. exact H.
Qed.

(** Sending the current message, then closing the write end and exiting. *)
Lemma send_and_exit_sent e0 i0 s :
  wire_ok e0 i0 (m s) -> Forall (wire_ok e0 i0) (sent s) ->
  Forall (wire_ok e0 i0)
    (sent (snd (bind get (fun s0 =>
                  bind (send_message (m s0)) (fun _ =>
                  bind close_w (fun _ => exit (A:=unit) 0))) s))).
Proof.
  intros Hm Hs. unfold bind at 1, get. unfold bind at 1.
  destruct (send_message_view (m s) s) as (_ & _ & _ & Hsent).
  assert (Hall : Forall (wire_ok e0 i0) (sent (snd (send_message (m s) s)))).
  { rewrite Hsent. apply Forall_app. split; [exact Hs|].
    constructor; [exact Hm|constructor]. }
  destruct (send_message (m s) s) as [[[]|e|code] s1]; cbn [snd] in *;
    try exact Hall.
  pose proof (keeps_bind sent close_w (fun _ => exit (A:=unit) 0)
                (keeps_close_w sent os_blind_sent flag_blind_sent)
                (fun _ => keeps_exit sent 0) s1) as Hk.
  rewrite Hk. exact Hall.
Qed.

Lemma child_evolve_sent e0 i0 s :
  os s = e0 -> isl s = i0 ->
  get0 (m s) = 0 -> get1 (m s) = EmptyString ->
  Forall (wire_ok e0 i0) (sent s) ->
  Forall (wire_ok e0 i0) (sent (snd (child_evolve s))).
Proof.
  intros Hos Hisl H0 H1 Hs. unfold child_evolve. unfold bind at 1.
  pose proof (keeps_close_r wire_view os_blind_wire_view flag_blind_wire_view s)
    as Hk.
  apply wire_view_eq in Hk. destruct Hk as (Kos & Kisl & Km & Ksent).
  destruct (close_r s) as [[[]|e|code] sa]; cbn [snd] in *;
    try (rewrite Ksent; exact Hs).
  unfold bind at 1, run_task. unfold bind at 1, get.
  destruct (evolve (os sa) (get_algorithm (isl sa)) (get_population (isl sa)))
    as [algo new_pop|e] eqn:Ev; cbn [ret throw snd fst];
    [|rewrite Ksent; exact Hs].
  unfold bind at 1. cbn [modify].
  apply send_and_exit_sent; cbn [m sent with_m]; [|rewrite Ksent; exact Hs].
  split; cbn [get0 get1 get2 get3 set2 set3].
  - intros _. split; [rewrite Km; exact H1|].
    rewrite <- Hos, <- Hisl, <- Kos, <- Kisl. exact Ev.
  - intros Hne. exfalso. apply Hne. rewrite Km. exact H0.
Qed.

Lemma child_report_sent e0 i0 s :
  get0 (m s) <> 0 ->
  Forall (wire_ok e0 i0) (sent s) ->
  Forall (wire_ok e0 i0) (sent (snd (child_report s))).
Proof.
  intros H0 Hs. unfold child_report. unfold bind at 1, reset_results.
  unfold bind at 1, get.
  destruct (reset_fault (os s)); cbn [throw modify snd]; [exact Hs|].
  apply send_and_exit_sent; cbn [m sent with_m]; [|exact Hs].
  split; cbn [get0 get1 get2 get3 set2 set3].
  - intros H. exfalso. apply H0. exact H.
  - intros _. split; reflexivity.
Qed.

Lemma child_sent e0 i0 s :
  os s = e0 -> isl s = i0 ->
  get0 (m s) = 0 -> get1 (m s) = EmptyString ->
  Forall (wire_ok e0 i0) (sent s) ->
  Forall (wire_ok e0 i0) (sent (snd (child s))).
Proof.
  intros Hos Hisl H0 H1 Hs. unfold child. unfold bind at 1.
  assert (Hfirst : Forall (wire_ok e0 i0)
                     (sent (snd (try_catch child_evolve child_catch s)))).
  { unfold try_catch.
    pose proof (child_evolve_sent e0 i0 s Hos Hisl H0 H1 Hs) as Ha.
    destruct (child_evolve s) as [[[]|e|code] s1]; cbn [snd] in *;
      try exact Ha.
    rewrite (keeps_child_catch sent e (fun _ _ => eq_refl)
               (fun _ _ => eq_refl) s1).
    exact Ha. }
  destruct (try_catch child_evolve child_catch s) as [[[]|e|code] s1];
    cbn [snd] in *; try exact Hfirst.
  unfold bind at 1. cbn [modify]. unfold try_catch.
  pose proof (child_report_sent e0 i0 (with_m (set0 1 (m s1)) s1)
                ltac:(cbn; discriminate) Hfirst) as Hb.
  destruct (child_report (with_m (set0 1 (m s1)) s1)) as [[[]|e|code] s2];
    cbn [snd] in *; exact Hb.
Qed.

Lemma keeps_island_call {X} (f : state -> X) set :
  (forall v s, f (with_isl v s) = f s) ->
  (forall v s, f (with_installs v s) = f s) ->
  keeps f (island_call set).
Proof.
  intros Hi Hn s. unfold island_call.
  destruct (hd None (installs s)); cbn [snd]; rewrite ?Hi, Hn; reflexivity.
Qed.

Lemma keeps_parent {X} (f : state -> X) child_pid :
  os_blind f -> flag_blind f ->
  (forall v s, f (with_m v s) = f s) ->
  (forall v s, f (with_cerr v s) = f s) ->
  (forall v s, f (with_isl v s) = f s) ->
  (forall v s, f (with_installs v s) = f s) ->
  keeps f (parent child_pid).
Proof.
  intros H F Hm Hc Hi Hn. unfold parent.
  apply keeps_bind.
  { apply keeps_try_catch; [apply keeps_parent_receive; assumption|].
    intros e. apply keeps_parent_catch; assumption. }
  intros _. apply keeps_bind; [apply keeps_get|]. intros s0.
  destruct (negb _); [apply keeps_throw|].
  apply keeps_bind; [|intros _]; apply keeps_island_call; assumption.
Qed.

Lemma run_evolve_sent s :
  Forall (wire_ok (os s) (isl s)) (sent s) ->
  Forall (wire_ok (os s) (isl s)) (sent (snd (run_evolve s))).
Proof.
  intros Hs. unfold run_evolve. unfold bind at 1. cbn [modify].
  set (s0 := with_m message_def s).
  assert (Hm0 : m s0 = message_def) by reflexivity.
  change (sent s) with (sent s0) in Hs.
  change (os s) with (os s0) in *. change (isl s) with (isl s0) in *.
  clearbody s0. clear s. unfold bind at 1.
  pose proof (keeps_pipe_t_ctor wire_view os_blind_wire_view
                (fun _ _ => eq_refl) s0) as H1.
  apply wire_view_eq in H1. destruct H1 as (Kos & Kisl & Km & Ksent).
  destruct (pipe_t_ctor s0) as [[[]|e|code] s1]; cbn [snd] in *;
    try (rewrite Ksent; exact Hs).
  rewrite <- Kos, <- Kisl in *. rewrite <- Ksent in Hs. rewrite <- Km in Hm0.
  clear Kos Kisl Km Ksent. clear s0.
  assert (Hbody : forall k : Z -> M unit,
             (forall child_pid s,
                 os s = os s1 -> isl s = isl s1 -> m s = m s1 ->
                 sent s = sent s1 ->
                 Forall (wire_ok (os s1) (isl s1)) (sent (snd (k child_pid s)))) ->
             Forall (wire_ok (os s1) (isl s1))
               (sent (snd (with_pipe (bind sys_fork k) s1)))).
  { intros k Hk. unfold with_pipe. unfold bind at 1.
    pose proof (keeps_sys_fork wire_view os_blind_wire_view s1) as H2.
    apply wire_view_eq in H2. destruct H2 as (Kos & Kisl & Km & Ksent).
    destruct (sys_fork s1) as [[child_pid|e|code] s2]; cbn [snd] in *.
    - specialize (Hk child_pid s2 Kos Kisl Km Ksent).
      destruct (k child_pid s2) as [[[]|e|code] s3]; cbn [snd] in *;
        try exact Hk;
        pose proof (keeps_pipe_t_dtor sent os_blind_sent flag_blind_sent
                      (fun _ _ => eq_refl) s3) as H4;
        destruct (pipe_t_dtor s3) as [[[]|e'|code'] s4]; cbn [snd] in *;
        rewrite H4; exact Hk.
    - pose proof (keeps_pipe_t_dtor sent os_blind_sent flag_blind_sent
                    (fun _ _ => eq_refl) s2) as H4.
      destruct (pipe_t_dtor s2) as [[[]|e'|code'] s4]; cbn [snd] in *;
        rewrite H4, Ksent; exact Hs.
    - rewrite Ksent. exact Hs. }
  apply Hbody. intros child_pid s Kos Kisl Km Ksent. unfold bind at 1.
  destruct (child_pid =? -1); cbn [raise_errno bind get throw ret snd];
    [rewrite Ksent; exact Hs|].
  destruct (negb (child_pid =? 0)).
  - rewrite (keeps_parent sent child_pid os_blind_sent flag_blind_sent
               (fun _ _ => eq_refl) (fun _ _ => eq_refl) (fun _ _ => eq_refl)
               (fun _ _ => eq_refl) s).
    rewrite Ksent. exact Hs.
  - apply child_sent; try assumption.
    + rewrite Km, Hm0. reflexivity.
    + rewrite Km, Hm0. reflexivity.
    + rewrite Ksent. exact Hs.
Qed.

(** C4. Every message handed to [send_message] satisfies the invariant of
    the wire message: a zero status flag comes with an empty error text and
    with the algorithm and population that the task returned; a non-zero
    status flag comes with a default-constructed algorithm and population.
    This holds in every process started in [run_evolve], whatever the
    operating system replies and whatever the task does. *)
Theorem child_messages_satisfy_invariant e i cl wr rd inb :
  Forall (wire_ok e i) (sent (snd (run_evolve (boot e i cl wr rd inb)))).
Proof.
  apply (run_evolve_sent (boot e i cl wr rd inb)). constructor.
Qed.

(** ** Runs without operating-system failures *)

Lemma Forall_hd_none (l : list (option Z)) :
  Forall (eq None) l -> hd None l = None.
Proof. intros H. destruct H; [reflexivity|symmetry; assumption]. Qed.

Lemma Forall_tl {A} (Q : A -> Prop) (l : list A) :
  Forall Q l -> Forall Q (tl l).
Proof. intros H. destruct H; [constructor|assumption]. Qed.

Lemma outbox_app t1 t2 : outbox (t1 ++ t2) = outbox t1 ++ outbox t2.
Proof.
  induction t1 as [|[c r] t1 IH]; [reflexivity|].
  cbn [app]. destruct c; cbn [outbox]; rewrite IH; try reflexivity.
  rewrite app_assoc. reflexivity.
Qed.

Lemma outbox_writes fd chunks :
  outbox (map (write_ok fd) chunks) = concat chunks.
Proof.
  induction chunks as [|c cs IH]; [reflexivity|].
  cbn [map write_ok outbox concat]. rewrite IH.
  replace (Z.of_nat (List.length c) =? -1) with false
    by (symmetry; apply Z.eqb_neq; lia).
  reflexivity.
Qed.

Lemma after_writes_closes chunks s :
  closes (after_writes chunks s) = closes s.
Proof.
  revert s. induction chunks as [|c cs IH]; intros s; [reflexivity|].
  cbn [after_writes]. rewrite IH. reflexivity.
Qed.

Lemma sys_read_ok fd s :
  Forall read_succeeds (reads s) ->
  exists k s1,
    sys_read fd buffer_size s = (Normal (Z.of_nat k, firstn k (inbox s)), s1) /\
    inbox s1 = skipn k (inbox s) /\ reads s1 = tl (reads s) /\
    (k <= List.length (inbox s))%nat /\
    (inbox s <> [] -> 1 <= k)%nat.
Proof.
  intros H. unfold sys_read. pose proof buffer_size_pos as Hb.
  assert (Hg : forall limit,
             let k := granted limit buffer_size (List.length (inbox s)) in
             (k <= List.length (inbox s))%nat /\ (inbox s <> [] -> 1 <= k)%nat).
  { intros limit k. subst k. unfold granted.
    destruct (inbox s) as [|b l]; cbn [List.length];
      [split; [destruct limit; lia|congruence]|].
    destruct limit; split; intros; lia. }
  destruct (reads s) as [|[e|n] rest]; cbn [hd_error].
  - eexists _, _. split; [reflexivity|].
    split; [reflexivity|]. split; [reflexivity|]. apply (Hg None).
  - inversion H as [|x l Hx Hl]. contradiction.
  - eexists _, _. split; [reflexivity|].
    split; [reflexivity|]. split; [reflexivity|]. apply (Hg (Some n)).
Qed.

Lemma read_loop_ok ss s :
  Forall read_succeeds (reads s) ->
  fst (read_loop ss s) = Normal (ss ++ inbox s).
Proof.
  remember (List.length (inbox s)) as n eqn:En.
  revert ss s En. induction n as [n IH] using lt_wf_ind. intros ss s En H.
  rewrite read_loop_eq.
  destruct (sys_read_ok (read (p s)) s H) as (k & s1 & E & Hin & Hrd & Hle & Hpos).
  rewrite E.
  destruct (inbox s) as [|b l] eqn:Hbox.
  - assert (k = 0)%nat by (cbn in Hle; lia). subst k.
    cbn [Z.of_nat Z.eqb fst]. rewrite app_nil_r. reflexivity.
  - assert (1 <= k)%nat by (apply Hpos; discriminate).
    replace (Z.of_nat k =? 0) with false by (symmetry; apply Z.eqb_neq; lia).
    replace (Z.of_nat k =? -1) with false by (symmetry; apply Z.eqb_neq; lia).
    rewrite (IH (List.length (inbox s1))) with (s := s1); try reflexivity.
    + rewrite Hin, Nat2Z.id, firstn_firstn, Nat.min_id, <- app_assoc.
      rewrite firstn_skipn. reflexivity.
    + subst n. rewrite Hin, length_skipn. cbn [List.length] in *. lia.
    + rewrite Hrd. apply Forall_tl. exact H.
Qed.

Lemma with_pipe_closed {A} (body : M A) s o s' :
  body s = (o, s') ->
  r_status (p s') = false -> w_status (p s') = false ->
  with_pipe body s = (o, s').
Proof.
  intros Hb Hr Hw. unfold with_pipe. rewrite Hb.
  rewrite (pipe_t_dtor_closed s' Hr Hw).
  destruct o; reflexivity.
Qed.

Lemma read_blind_closes : read_blind closes.
Proof. repeat split. Qed.
Lemma read_blind_isl : read_blind isl.
Proof. repeat split. Qed.

(** The calls of the read loop when no [read] fails. *)
Lemma read_loop_reads ss s :
  Forall read_succeeds (reads s) ->
  exists t,
    trace (snd (read_loop ss s)) = trace s ++ t /\
    Forall (read_ok (read (p s))) t.
Proof.
  remember (List.length (inbox s)) as n eqn:En.
  revert ss s En. induction n as [n IH] using lt_wf_ind. intros ss s En H.
  rewrite read_loop_eq.
  destruct (sys_read_ok (read (p s)) s H) as (k & s1 & E & Hin & Hrd & Hle & Hpos).
  assert (Ht : trace s1 = trace s ++ [(SysRead (read (p s)) buffer_size, Z.of_nat k)]
               /\ p s1 = p s).
  { clear - E. unfold sys_read in E.
    destruct (hd_error (reads s)) as [[e|n']|]; inversion E as [[Hk Hb Hs]];
      try lia; cbn [trace p log with_trace with_inbox with_reads];
      rewrite Hk; split; reflexivity. }
  destruct Ht as [Ht Hp1]. rewrite E.
  assert (Hev : read_ok (read (p s)) (SysRead (read (p s)) buffer_size, Z.of_nat k))
    by (exists k; reflexivity).
  destruct k as [|k].
  - cbn [Z.of_nat Z.eqb snd]. eexists. split; [exact Ht|].
    constructor; [exact Hev|constructor].
  - replace (Z.of_nat (S k) =? 0) with false by (symmetry; apply Z.eqb_neq; lia).
    replace (Z.of_nat (S k) =? -1) with false by (symmetry; apply Z.eqb_neq; lia).
    destruct (IH (List.length (inbox s1))
                ltac:(subst n; rewrite Hin, length_skipn; lia)
                (ss ++ firstn (Z.to_nat (Z.of_nat (S k))) (firstn (S k) (inbox s)))
                s1 eq_refl ltac:(rewrite Hrd; apply Forall_tl; exact H))
      as (t & Ht' & Hall).
    rewrite Ht', Ht, Hp1 in *. rewrite <- app_assoc. eexists. split; [reflexivity|].
    constructor; assumption.
Qed.

(** The parent's [try] block when nothing fails. *)
Lemma parent_receive_ok s ms :
  w_status (p s) = true -> r_status (p s) = true ->
  Forall (eq None) (closes s) -> Forall read_succeeds (reads s) ->
  iarchive (inbox s) = inr ms ->
  exists s' t,
    parent_receive s = (Normal tt, s') /\ m s' = ms /\ isl s' = isl s /\
    installs s' = installs s /\
    trace s' = trace s ++ (SysClose (write (p s)), 0) :: t
                       ++ [(SysClose (read (p s)), 0)] /\
    Forall (read_ok (read (p s))) t.
Proof.
  intros Hw Hr Hc Hrd Hdec. unfold parent_receive. unfold bind at 1.
  rewrite (close_w_ok s Hw (Forall_hd_none _ Hc)).
  set (s1 := with_p _ _). unfold bind at 1.
  pose proof (read_loop_ok [] s1 Hrd) as Hfst.
  pose proof (keeps_read_loop p [] read_blind_p s1) as Kp.
  pose proof (keeps_read_loop closes [] read_blind_closes s1) as Kc.
  pose proof (keeps_read_loop isl [] read_blind_isl s1) as Ki.
  pose proof (keeps_read_loop installs []
                (os_blind_read_blind _ os_blind_installs) s1) as Kn.
  destruct (read_loop_reads [] s1 Hrd) as (t & Ht & Hall).
  destruct (read_loop [] s1) as [o s2]; cbn [fst snd] in *. subst o.
  change (inbox s1) with (inbox s). cbn [app]. rewrite Hdec.
  unfold bind at 1. cbn [modify].
  set (s3 := with_m ms s2).
  assert (Hr3 : r_status (p s3) = true) by (cbn [p s3 with_m]; rewrite Kp; exact Hr).
  assert (Hc3 : hd None (closes s3) = None).
  { cbn [closes s3 with_m]. rewrite Kc. apply Forall_hd_none.
    apply (Forall_tl _ _ Hc). }
  rewrite (close_r_ok s3 Hr3 Hc3). eexists. exists t. split; [reflexivity|].
  split; [reflexivity|].
  cbn [isl installs trace p read with_p log with_trace with_closes s3 with_m].
  rewrite Ki, Kn, Kp, Ht.
  cbn [isl installs trace p read s1 with_p log with_trace with_closes].
  rewrite <- !app_assoc. repeat split. exact Hall.
Qed.

(** The parent after the [fork] when nothing fails: it installs the decoded
    result, or throws the child's error text. *)
Lemma parent_decoded child_pid s ms :
  w_status (p s) = true -> r_status (p s) = true ->
  Forall (eq None) (closes s) -> Forall read_succeeds (reads s) ->
  iarchive (inbox s) = inr ms ->
  Forall (eq None) (installs s) ->
  exists s' t,
    parent child_pid s
    = (if get0 ms =? 0 then Normal tt else Throw (ChildTaskFailed (get1 ms)), s')
    /\ isl s' = (if get0 ms =? 0 then mk_island (get2 ms) (get3 ms) else isl s)
    /\ r_status (p s') = false /\ w_status (p s') = false
    /\ trace s' = trace s ++ (SysClose (write (p s)), 0) :: t
                          ++ [(SysClose (read (p s)), 0)]
    /\ Forall (read_ok (read (p s))) t.
Proof.
  intros Hw Hr Hc Hrd Hdec Hins.
  destruct (parent_receive_ok s ms Hw Hr Hc Hrd Hdec)
    as (s1 & t & E & Hm & Hi & Hn & Ht & Hall).
  destruct (parent_receive_normal _ _ E) as [Hr1 Hw1].
  assert (H1 : hd None (installs s1) = None).
  { rewrite Hn. destruct Hins; [reflexivity|symmetry; assumption]. }
  assert (H2 : hd None (tl (installs s1)) = None).
  { rewrite Hn. destruct Hins as [|x l Hx Hl]; [reflexivity|].
    destruct Hl; [reflexivity|symmetry; assumption]. }
  unfold parent. unfold bind at 1. unfold try_catch. rewrite E.
  unfold bind at 1, get. rewrite Hm.
  destruct (get0 ms =? 0); cbn [negb].
  - unfold bind, island_call. rewrite H1.
    cbn [installs with_isl with_installs]. rewrite H2.
    eexists. exists t. split; [reflexivity|].
    cbn [isl p trace with_isl with_installs set_population set_algorithm
         get_algorithm get_population].
    repeat split; assumption.
  - exists s1, t. split; [reflexivity|]. repeat split; assumption.
Qed.

Lemma run_evolve_parent_trace e i pcl prd ins inb ms fds pid :
  pipe_reply e = inr fds -> fork_reply e = inr pid -> pid <> 0 -> pid <> -1 ->
  Forall (eq None) pcl -> Forall read_succeeds prd -> Forall (eq None) ins ->
  iarchive inb = inr ms ->
  exists s' t,
    run_evolve (with_installs ins (boot e i pcl [] prd inb))
    = (if get0 ms =? 0 then Normal tt else Throw (ChildTaskFailed (get1 ms)), s')
    /\ isl s' = (if get0 ms =? 0 then mk_island (get2 ms) (get3 ms) else i)
    /\ trace s' = (SysPipe, 0) :: (SysFork, pid) :: (SysClose (snd fds), 0) :: t
                  ++ [(SysClose (fst fds), 0)]
    /\ Forall (read_ok (fst fds)) t.
Proof.
  intros Hpipe Hfork Hpid0 Hpid1 Hc Hrd Hins Hdec.
  unfold run_evolve. unfold bind at 1. cbn [modify]. unfold bind at 1.
  unfold pipe_t_ctor, bind at 1, sys_pipe. cbn [os boot with_m with_installs].
  rewrite Hpipe. cbn [fst snd Z.eqb ret bind modify].
  set (s1 := with_p _ _).
  set (s2 := log SysFork pid s1).
  destruct (parent_decoded pid s2 ms eq_refl eq_refl Hc Hrd Hdec Hins)
    as (s' & t & E & Hi & Hr & Hw & Ht & Hall).
  assert (Hbody : bind sys_fork
             (fun child_pid =>
                bind (if child_pid =? -1 then raise_errno "fork" else ret tt)
                  (fun _ => if negb (child_pid =? 0) then parent child_pid
                            else child)) s1
            = (if get0 ms =? 0 then Normal tt
               else Throw (ChildTaskFailed (get1 ms)), s')).
  { unfold bind at 1, sys_fork. change (os s1) with e. rewrite Hfork.
    fold s2. apply Z.eqb_neq in Hpid0, Hpid1. rewrite Hpid1, Hpid0.
    cbn [negb bind ret]. exact E. }
  rewrite (with_pipe_closed _ _ _ _ Hbody Hr Hw).
  exists s', t. split; [reflexivity|]. split; [exact Hi|].
  split; [exact Ht|exact Hall].
Qed.

Lemma run_evolve_parent_decoded pe i pcl prd inb ms :
  parent_process pe ->
  Forall (eq None) pcl -> Forall read_succeeds prd ->
  iarchive inb = inr ms ->
  exists s',
    run_evolve (boot pe i pcl [] prd inb)
    = (if get0 ms =? 0 then Normal tt else Throw (ChildTaskFailed (get1 ms)), s')
    /\ isl s' = (if get0 ms =? 0 then mk_island (get2 ms) (get3 ms) else i).
Proof.
  intros [[fds Hpipe] (pid & Hfork & Hpid0 & Hpid1)] Hc Hrd Hdec.
  destruct (run_evolve_parent_trace pe i pcl prd [] inb ms fds pid Hpipe Hfork
              Hpid0 Hpid1 Hc Hrd ltac:(constructor) Hdec)
    as (s' & t & E & Hi & _).
  exists s'. split; [exact E|exact Hi].
Qed.

(** The tail shared by both [try] blocks of the child, when nothing fails. *)
Lemma send_and_exit_ok s :
  w_status (p s) = true ->
  hd None (closes s) = None -> Forall (eq None) (writes s) ->
  exists chunks s',
    bind get (fun s0 =>
      bind (send_message (m s0)) (fun _ =>
      bind close_w (fun _ => exit (A:=unit) 0))) s = (Exit 0, s') /\
    concat chunks = oarchive (m s) /\
    trace s' = trace s ++ map (write_ok (write (p s))) chunks
                       ++ [(SysClose (write (p s)), 0)] /\
    sent s' = sent s ++ [m s].
Proof.
  intros Hw Hc Hwr. unfold bind at 1, get. unfold bind at 1.
  unfold send_message, bind at 1. cbn [modify].
  set (s0 := with_sent (sent s ++ [m s]) s).
  destruct (send_loop_ok (oarchive (m s)) s0 Hwr) as (chunks & Hcat & E).
  rewrite E. set (s1 := after_writes chunks s0).
  assert (Hw1 : w_status (p s1) = true).
  { unfold s1. rewrite (after_writes_blind p chunks s0 os_blind_p). exact Hw. }
  assert (Hc1 : hd None (closes s1) = None).
  { unfold s1. rewrite after_writes_closes. exact Hc. }
  unfold bind at 1. rewrite (close_w_ok s1 Hw1 Hc1).
  exists chunks. eexists. split; [reflexivity|]. split; [exact Hcat|].
  cbn [trace sent p write with_p log with_trace with_closes].
  unfold s1. rewrite after_writes_trace.
  rewrite (after_writes_blind sent chunks s0 os_blind_sent).
  rewrite (after_writes_blind p chunks s0 os_blind_p).
  rewrite <- app_assoc. split; reflexivity.
Qed.

Lemma child_success s algo new_pop :
  r_status (p s) = true -> w_status (p s) = true ->
  Forall (eq None) (closes s) -> Forall (eq None) (writes s) ->
  evolve (os s) (get_algorithm (isl s)) (get_population (isl s))
  = Evolved algo new_pop ->
  exists chunks s',
    child s = (Exit 0, s') /\
    concat chunks = oarchive (set3 new_pop (set2 algo (m s))) /\
    trace s' = trace s ++ (SysClose (read (p s)), 0)
                       :: map (write_ok (write (p s))) chunks
                       ++ [(SysClose (write (p s)), 0)] /\
    sent s' = sent s ++ [set3 new_pop (set2 algo (m s))].
Proof.
  intros Hr Hw Hc Hwr Hev.
  unfold child, bind at 1, try_catch at 1, child_evolve, bind at 1.
  rewrite (close_r_ok s Hr (Forall_hd_none _ Hc)).
  set (s1 := with_p _ _).
  unfold bind at 1, run_task, bind at 1, get.
  change (os s1) with (os s). change (isl s1) with (isl s). rewrite Hev.
  cbn [ret fst snd]. unfold bind at 1. cbn [modify].
  set (s2 := with_m _ s1).
  destruct (send_and_exit_ok s2 Hw (Forall_hd_none _ (Forall_tl _ _ Hc)) Hwr)
    as (chunks & s' & E & Hcat & Ht & Hsent).
  fold get. rewrite E. exists chunks, s'. split; [reflexivity|].
  split; [exact Hcat|]. rewrite Ht, Hsent.
  cbn [trace sent m p write s2 s1 with_m with_p log with_trace with_closes].
  rewrite <- app_assoc. split; reflexivity.
Qed.

(** The child's two handlers and second [try] block after an exception [e]
    left the first, when nothing else fails. *)
Lemma child_reports s e s1 :
  child_evolve s = (Throw e, s1) ->
  (e <> unknown_exception -> what_fault (os s1) = false) ->
  reset_fault (os s1) = false ->
  w_status (p s1) = true ->
  hd None (closes s1) = None -> Forall (eq None) (writes s1) ->
  exists chunks s',
    child s = (Exit 0, s') /\
    concat chunks
    = oarchive (mk_message 1 (report_text e (get1 (m s1)))
                  algorithm_def population_def) /\
    trace s' = trace s1 ++ map (write_ok (write (p s1))) chunks
                        ++ [(SysClose (write (p s1)), 0)] /\
    sent s' = sent s1 ++ [mk_message 1 (report_text e (get1 (m s1)))
                            algorithm_def population_def].
Proof.
  intros E Hwf Hrf Hw Hc Hwr.
  unfold child. unfold bind at 1. unfold try_catch at 1. rewrite E.
  assert (Hcatch : child_catch e s1
                   = (Normal tt,
                      with_m (set1 (report_text e (get1 (m s1))) (m s1)) s1)).
  { destruct e; cbn [child_catch report_text].
    1, 2: unfold try_catch, set_what, bind, get;
      rewrite Hwf by discriminate; reflexivity.
    unfold ret. destruct s1 as [i0 [a b c d] ? ? ? ? ? ? ? ? ? ? ?].
    reflexivity. }
  rewrite Hcatch. unfold bind at 1. cbn [modify].
  unfold try_catch, child_report, bind at 1, reset_results, bind at 1, get.
  cbn [os with_m]. rewrite Hrf. cbn [modify].
  set (s4 := with_m _ _).
  destruct (send_and_exit_ok s4 Hw Hc Hwr) as (chunks & s' & Es & Hcat & Ht & Hs).
  fold get. rewrite Es. exists chunks, s'. split; [reflexivity|].
  split; [exact Hcat|]. split; [exact Ht|exact Hs].
Qed.

(** [run_evolve] in the child process reaches the child's branch with both
    ends open and nothing written yet. *)
Lemma run_evolve_in_child ce i cl wr :
  child_process ce ->
  exists s2,
    (forall code s', child s2 = (Exit code, s') ->
                     child_run ce i cl wr = (Exit code, s')) /\
    r_status (p s2) = true /\ w_status (p s2) = true /\
    closes s2 = cl /\ writes s2 = wr /\ os s2 = ce /\ isl s2 = i /\
    m s2 = message_def /\ sent s2 = [] /\ outbox (trace s2) = [].
Proof.
  intros [[fds Hpipe] Hfork].
  unfold child_run, run_evolve. unfold bind at 1. cbn [modify]. unfold bind at 1.
  unfold pipe_t_ctor, bind at 1, sys_pipe. cbn [os boot with_m].
  rewrite Hpipe. cbn [fst snd Z.eqb ret bind modify].
  set (s1 := with_p _ _).
  exists (log SysFork 0 s1). split; [|repeat split; reflexivity].
  intros code s' E. unfold with_pipe, bind at 1, sys_fork.
  change (os s1) with ce. rewrite Hfork. cbn [Z.eqb negb bind ret].
  rewrite E. reflexivity.
Qed.

Lemma child_run_exits e i cl wr fds code s' :
  pipe_reply e = inr fds ->
  child (after_fork (as_child e) i cl wr [] [] fds 0) = (Exit code, s') ->
  child_run (as_child e) i cl wr = (Exit code, s').
Proof.
  intros Hpipe E.
  unfold child_run, run_evolve. unfold bind at 1. cbn [modify]. unfold bind at 1.
  unfold pipe_t_ctor, bind at 1, sys_pipe. cbn [os boot with_m as_child pipe_reply].
  rewrite Hpipe. cbn [fst snd Z.eqb ret bind modify].
  set (s1 := with_p _ _).
  unfold with_pipe, bind at 1, sys_fork. change (os s1) with (as_child e).
  cbn [as_child fork_reply Z.eqb negb bind ret].
  match goal with
  | |- context [child ?x] =>
      change x with (after_fork (as_child e) i cl wr [] [] fds 0)
  end.
  rewrite E. reflexivity.
Qed.

(** ** The kernel's verdict on the calls of the two processes *)

Lemma replay_app fds others tab t1 t2 :
  replay fds others tab (t1 ++ t2)
  = match replay fds others tab t1 with
    | Accepted tab' => replay fds others tab' t2
    | v => v
    end.
Proof.
  revert tab. induction t1 as [|ev t1 IH]; intros tab; [reflexivity|].
  cbn [app replay]. destruct (kernel_step fds others tab ev); auto.
Qed.

Lemma replay_after_fork fds others pid t :
  fst fds <> snd fds -> pid <> -1 ->
  replay fds others no_fds ((SysPipe, 0) :: (SysFork, pid) :: t)
  = replay fds others (mk_fdtab true true) t.
Proof.
  intros Hne Hpid. apply Z.eqb_neq in Hne, Hpid.
  cbn [replay]. unfold kernel_step at 1, no_fds.
  cbn [fst snd Z.eqb rd_open wr_open orb]. rewrite Hne. cbn [orb].
  unfold kernel_step at 1. cbn [fst snd]. rewrite Hpid. reflexivity.
Qed.

Lemma replay_writes fds others rd chunks :
  replay fds others (mk_fdtab rd true) (map (write_ok (snd fds)) chunks)
  = Accepted (mk_fdtab rd true).
Proof.
  induction chunks as [|c cs IH]; [reflexivity|].
  cbn [map replay]. unfold kernel_step at 1, write_ok. cbn [fst snd wr_open].
  replace (Z.of_nat (List.length c) =? -1) with false
    by (symmetry; apply Z.eqb_neq; lia).
  rewrite Z.eqb_refl. exact IH.
Qed.

Lemma replay_close_w fds others rd :
  fst fds <> snd fds ->
  replay fds others (mk_fdtab rd true) [(SysClose (snd fds), 0)]
  = Accepted (mk_fdtab rd false).
Proof.
  intros Hne. cbn [replay]. unfold kernel_step.
  cbn [fst snd Z.eqb rd_open wr_open].
  replace (snd fds =? fst fds) with false
    by (symmetry; apply Z.eqb_neq; congruence).
  rewrite Z.eqb_refl. reflexivity.
Qed.

Lemma replay_close_r fds others wr :
  replay fds others (mk_fdtab true wr) [(SysClose (fst fds), 0)]
  = Accepted (mk_fdtab false wr).
Proof.
  cbn [replay]. unfold kernel_step. cbn [fst snd Z.eqb rd_open wr_open].
  rewrite Z.eqb_refl. reflexivity.
Qed.

(** Once a process has closed its write end and no other process holds
    one, every [read] that does not fail is answered, the one that returns
    0 included. *)
Lemma replay_reads fds t :
  Forall (read_ok (fst fds)) t ->
  replay fds false (mk_fdtab true false) t = Accepted (mk_fdtab true false).
Proof.
  induction 1 as [|ev t [k ->] Hall IH]; [reflexivity|].
  cbn [replay]. unfold kernel_step at 1. cbn [fst snd rd_open wr_open].
  replace (Z.of_nat k =? -1) with false by (symmetry; apply Z.eqb_neq; lia).
  rewrite Z.eqb_refl. cbn [andb orb]. rewrite andb_false_r. exact IH.
Qed.

Lemma outbox_reads fd t : Forall (read_ok fd) t -> outbox t = [].
Proof. induction 1 as [|ev t [k ->] Hall IH]; [reflexivity|exact IH]. Qed.

(** The calls of a child that sends one message and closes the write end,
    after a first [close] of the read end that returned [r]. *)
Lemma replay_child fds r chunks :
  fst fds <> snd fds -> r = 0 \/ r = -1 ->
  replay fds true no_fds
    ((SysPipe, 0) :: (SysFork, 0) :: (SysClose (fst fds), r)
       :: map (write_ok (snd fds)) chunks ++ [(SysClose (snd fds), 0)])
  = Accepted (mk_fdtab (r =? -1) false).
Proof.
  intros Hne Hr. rewrite (replay_after_fork fds true 0 _ Hne ltac:(discriminate)).
  cbn [replay]. unfold kernel_step at 1. cbn [fst snd rd_open wr_open].
  destruct Hr as [-> | ->]; cbn [Z.eqb Pos.eqb].
  - rewrite Z.eqb_refl. cbn [andb]. rewrite replay_app, replay_writes.
    apply (replay_close_w fds true false Hne).
  - rewrite replay_app, replay_writes.
    apply (replay_close_w fds true true Hne).
Qed.

(** ** Success and failure of the task, end to end *)

(** A child that sends exactly the bytes of one message and exits, seen from
    a caller for which nothing fails. *)
Lemma fork_island_call_decoded e i pcl prd ins ccl cwr fds pid code sc ms :
  pipe_reply e = inr fds -> fork_reply e = inr pid ->
  pid <> 0 -> pid <> -1 -> fst fds <> snd fds ->
  Forall (eq None) pcl -> Forall read_succeeds prd -> Forall (eq None) ins ->
  child_run (as_child e) i ccl cwr = (Exit code, sc) ->
  (exists tab, replay fds true no_fds (trace sc) = Accepted tab) ->
  iarchive (outbox (trace sc)) = inr ms ->
  exists s',
    fork_island_call e i pcl prd ins ccl cwr
    = Ends (if get0 ms =? 0 then Normal tt
            else Throw (ChildTaskFailed (get1 ms))) s' /\
    isl s' = (if get0 ms =? 0 then mk_island (get2 ms) (get3 ms) else i).
Proof.
  intros Hpipe Hfork Hpid0 Hpid1 Hne Hpcl Hprd Hins Ec [tab Hrc] Hdec.
  destruct (run_evolve_parent_trace e i pcl prd ins _ ms fds pid Hpipe Hfork
              Hpid0 Hpid1 Hpcl Hprd Hins Hdec)
    as (s' & t & Ep & Hi & Ht & Hall).
  assert (Hin : in_child e = false).
  { unfold in_child. rewrite Hfork. apply Z.eqb_neq. exact Hpid0. }
  assert (Hf : forks e = true).
  { unfold forks. rewrite Hpipe, Hfork. apply Z.eqb_neq in Hpid0, Hpid1.
    rewrite Hpid0, Hpid1. reflexivity. }
  assert (Hfds : pipe_fds e = fds) by (unfold pipe_fds; rewrite Hpipe; reflexivity).
  assert (Hrp : replay fds false no_fds (trace s') = Accepted (mk_fdtab false false)).
  { rewrite Ht. rewrite (replay_after_fork fds false pid _ Hne Hpid1).
    change (?x :: t ++ ?l) with ([x] ++ t ++ l).
    rewrite replay_app, (replay_close_w fds false true Hne).
    rewrite replay_app, (replay_reads fds t Hall).
    apply replay_close_r. }
  assert (Hop : outbox (trace s') = []).
  { rewrite Ht. cbn [outbox]. rewrite outbox_app, (outbox_reads _ _ Hall).
    reflexivity. }
  exists s'. split; [|exact Hi].
  unfold fork_island_call. cbv zeta. rewrite Hin, Hf, Hfds, Ec.
  cbn [fst snd]. rewrite Hrc, Ep. cbn [fst snd]. rewrite Hrp, Hop.
  reflexivity.
Qed.

(** C1. When no system call fails in either process, the island's setters
    return and the archive reads back the message it wrote, a task that
    returns [algo] and [new_pop] in the child makes the call of [run_evolve]
    end for the caller by returning, with the island holding exactly [algo]
    and [new_pop].  The child sends this one message and exits with status
    0.  The call ends because the parent has closed its write end before it
    reads, so that its last [read] sees the end of the stream.  Nothing is
    assumed about the size of the encoded message nor about how the kernel
    cuts the stream into reads. *)
Theorem run_evolve_success_round_trip e i pcl prd ins ccl cwr algo new_pop :
  parent_process e -> fst (pipe_fds e) <> snd (pipe_fds e) ->
  Forall (eq None) pcl -> Forall read_succeeds prd -> Forall (eq None) ins ->
  Forall (eq None) ccl -> Forall (eq None) cwr ->
  evolve e (get_algorithm i) (get_population i) = Evolved algo new_pop ->
  iarchive (oarchive (mk_message 0 EmptyString algo new_pop))
  = inr (mk_message 0 EmptyString algo new_pop) ->
  exists s',
    fork_island_call e i pcl prd ins ccl cwr = Ends (Normal tt) s' /\
    isl s' = mk_island algo new_pop /\
    fst (child_run (as_child e) i ccl cwr) = Exit 0 /\
    sent (snd (child_run (as_child e) i ccl cwr))
    = [mk_message 0 EmptyString algo new_pop].
Proof.
  intros [[fds Hpipe] (pid & Hfork & Hpid0 & Hpid1)] Hne Hpcl Hprd Hins Hccl Hcwr
    Hev Hcodec.
  unfold pipe_fds in Hne. rewrite Hpipe in Hne.
  destruct (child_success (after_fork (as_child e) i ccl cwr [] [] fds 0)
              algo new_pop eq_refl eq_refl Hccl Hcwr Hev)
    as (chunks & sc & Ec & Hcat & Ht & Hs).
  apply (child_run_exits e i ccl cwr fds 0 sc Hpipe) in Ec.
  cbn [after_fork trace sent m p read write log with_trace with_p with_m boot app]
    in Ht, Hs, Hcat.
  change (set3 new_pop (set2 algo message_def))
    with (mk_message 0 EmptyString algo new_pop) in *.
  assert (Hout : outbox (trace sc) = oarchive (mk_message 0 EmptyString algo new_pop)).
  { rewrite Ht. cbn [outbox]. rewrite outbox_app, outbox_writes, Hcat.
    cbn [outbox]. apply app_nil_r. }
  destruct (fork_island_call_decoded e i pcl prd ins ccl cwr fds pid 0 sc
              (mk_message 0 EmptyString algo new_pop) Hpipe Hfork Hpid0 Hpid1 Hne
              Hpcl Hprd Hins Ec
              ltac:(eexists; rewrite Ht; apply replay_child; [exact Hne|left; reflexivity])
              ltac:(rewrite Hout; exact Hcodec))
    as (s' & Ecall & Hi).
  cbn [get0 get2 get3 Z.eqb] in Ecall, Hi.
  exists s'. rewrite Ec. cbn [fst snd]. repeat split; assumption.
Qed.

Lemma append_inj_l (a b c : string) :
  (a ++ b)%string = (a ++ c)%string -> b = c.
Proof.
  induction a as [|x a IH]; cbn [String.append]; intros H; [exact H|].
  inversion H. apply IH. assumption.
Qed.

Lemma ChildTaskFailed_inj M M' :
  ChildTaskFailed M = ChildTaskFailed M' -> M = M'.
Proof.
  unfold ChildTaskFailed, child_error_desc. intros H. injection H as H1.
  repeat apply append_inj_l in H1. exact H1.
Qed.

Lemma ChildTaskFailed_not_SyscallFailure M call err :
  ChildTaskFailed M <> SyscallFailure call err.
Proof.
  unfold ChildTaskFailed, SyscallFailure, child_error_desc, errno_desc.
  cbn [String.append]. intros H. discriminate H.
Qed.

(** A task that throws [e], end to end, when nothing else fails. *)
Lemma task_failure_reported e i pcl prd ins ccl cwr x :
  parent_process e -> fst (pipe_fds e) <> snd (pipe_fds e) ->
  Forall (eq None) pcl -> Forall read_succeeds prd -> Forall (eq None) ins ->
  Forall (eq None) ccl -> Forall (eq None) cwr ->
  evolve e (get_algorithm i) (get_population i) = Raised x ->
  (x <> unknown_exception -> what_fault e = false) -> reset_fault e = false ->
  iarchive (oarchive (mk_message 1 (what x) algorithm_def population_def))
  = inr (mk_message 1 (what x) algorithm_def population_def) ->
  exists s',
    fork_island_call e i pcl prd ins ccl cwr
    = Ends (Throw (ChildTaskFailed (what x))) s' /\
    isl s' = i /\
    fst (child_run (as_child e) i ccl cwr) = Exit 0 /\
    sent (snd (child_run (as_child e) i ccl cwr))
    = [mk_message 1 (what x) algorithm_def population_def].
Proof.
  intros [[fds Hpipe] (pid & Hfork & Hpid0 & Hpid1)] Hne Hpcl Hprd Hins Hccl Hcwr
    Hev Hwf Hrf Hcodec.
  unfold pipe_fds in Hne. rewrite Hpipe in Hne.
  set (s2 := after_fork (as_child e) i ccl cwr [] [] fds 0).
  assert (E : child_evolve s2
              = (Throw x,
                 with_p (mk_pipe (fst fds) (snd fds) false true)
                   (log (SysClose (fst fds)) 0 (with_closes (tl ccl) s2)))).
  { unfold child_evolve, bind at 1.
    rewrite (close_r_ok s2 eq_refl (Forall_hd_none _ Hccl)).
    unfold bind at 1, run_task, bind at 1, get.
    cbn [os isl with_p log with_trace with_closes s2 after_fork with_m boot
         as_child evolve].
    rewrite Hev. reflexivity. }
  destruct (child_reports s2 x _ E Hwf Hrf eq_refl
              (Forall_hd_none _ (Forall_tl _ _ Hccl)) Hcwr)
    as (chunks & sc & Ec & Hcat & Ht & Hs).
  apply (child_run_exits e i ccl cwr fds 0 sc Hpipe) in Ec.
  cbn [s2 after_fork trace sent m p read write log with_trace with_p with_m
       with_closes boot app get1 message_def] in Ht, Hs, Hcat.
  assert (Htext : report_text x EmptyString = what x) by (destruct x; reflexivity).
  rewrite Htext in *.
  assert (Hout : outbox (trace sc)
                 = oarchive (mk_message 1 (what x) algorithm_def population_def)).
  { rewrite Ht. cbn [outbox]. rewrite outbox_app, outbox_writes, Hcat.
    cbn [outbox]. apply app_nil_r. }
  destruct (fork_island_call_decoded e i pcl prd ins ccl cwr fds pid 0 sc _
              Hpipe Hfork Hpid0 Hpid1 Hne Hpcl Hprd Hins Ec
              ltac:(eexists; rewrite Ht; apply replay_child; [exact Hne|left; reflexivity])
              ltac:(rewrite Hout; exact Hcodec))
    as (s' & Ecall & Hi).
  cbn [get0 get1 Z.eqb] in Ecall, Hi.
  exists s'. rewrite Ec. cbn [fst snd]. repeat split; assumption.
Qed.

(** C2. When no system call fails in either process, no allocation fails
    in the child and the archive reads back the message it wrote, a task
    that throws an exception derived from [std::exception] with message
    [M = what x] makes the call of [run_evolve] end for the caller with the
    child-failure error carrying exactly [M]: the child sends the message
    once and exits, the parent throws [ChildTaskFailed M], and [M] is
    determined by that error.  The island is unchanged. *)
Theorem run_evolve_reports_task_failure e i pcl prd ins ccl cwr x :
  parent_process e -> fst (pipe_fds e) <> snd (pipe_fds e) ->
  Forall (eq None) pcl -> Forall read_succeeds prd -> Forall (eq None) ins ->
  Forall (eq None) ccl -> Forall (eq None) cwr ->
  evolve e (get_algorithm i) (get_population i) = Raised x ->
  x <> unknown_exception ->
  what_fault e = false -> reset_fault e = false ->
  iarchive (oarchive (mk_message 1 (what x) algorithm_def population_def))
  = inr (mk_message 1 (what x) algorithm_def population_def) ->
  exists s',
    fork_island_call e i pcl prd ins ccl cwr
    = Ends (Throw (ChildTaskFailed (what x))) s' /\
    (forall M s'', fork_island_call e i pcl prd ins ccl cwr
                   = Ends (Throw (ChildTaskFailed M)) s'' -> M = what x) /\
    isl s' = i /\
    fst (child_run (as_child e) i ccl cwr) = Exit 0 /\
    sent (snd (child_run (as_child e) i ccl cwr))
    = [mk_message 1 (what x) algorithm_def population_def].
Proof.
  intros Hp Hne Hpcl Hprd Hins Hccl Hcwr Hev _ Hwf Hrf Hcodec.
  destruct (task_failure_reported e i pcl prd ins ccl cwr x Hp Hne Hpcl Hprd
              Hins Hccl Hcwr Hev (fun _ => Hwf) Hrf Hcodec)
    as (s' & Ho & Hi & Hx & Hs).
  exists s'. repeat split; try assumption.
  intros M s'' HM. rewrite Ho in HM. symmetry. apply ChildTaskFailed_inj.
  congruence.
Qed.

(** C5. When no system call fails in either process, the child can build
    the default algorithm and population, and the archive reads back the
    message it wrote, a task that throws something not derived from
    [std::exception] makes the call of [run_evolve] end for the caller with
    the child-failure error with an empty message; this error is not a
    system-call failure, whatever the call and error code.  The island is
    unchanged.  Whether copying an error text could fail in the child does
    not matter: no text is copied. *)
Theorem run_evolve_reports_unknown_failure e i pcl prd ins ccl cwr :
  parent_process e -> fst (pipe_fds e) <> snd (pipe_fds e) ->
  Forall (eq None) pcl -> Forall read_succeeds prd -> Forall (eq None) ins ->
  Forall (eq None) ccl -> Forall (eq None) cwr ->
  evolve e (get_algorithm i) (get_population i) = Raised unknown_exception ->
  reset_fault e = false ->
  iarchive (oarchive (mk_message 1 EmptyString algorithm_def population_def))
  = inr (mk_message 1 EmptyString algorithm_def population_def) ->
  exists s',
    fork_island_call e i pcl prd ins ccl cwr
    = Ends (Throw (ChildTaskFailed EmptyString)) s' /\
    (forall call err s'', fork_island_call e i pcl prd ins ccl cwr
                          <> Ends (Throw (SyscallFailure call err)) s'') /\
    isl s' = i /\
    fst (child_run (as_child e) i ccl cwr) = Exit 0 /\
    sent (snd (child_run (as_child e) i ccl cwr))
    = [mk_message 1 EmptyString algorithm_def population_def].
Proof.
  intros Hp Hne Hpcl Hprd Hins Hccl Hcwr Hev Hrf Hcodec.
  destruct (task_failure_reported e i pcl prd ins ccl cwr unknown_exception
              Hp Hne Hpcl Hprd Hins Hccl Hcwr Hev
              ltac:(intros H; exfalso; apply H; reflexivity) Hrf Hcodec)
    as (s' & Ho & Hi & Hx & Hs).
  cbn [what] in *. exists s'. repeat split; try assumption.
  intros call err s'' HM. rewrite Ho in HM.
  apply (ChildTaskFailed_not_SyscallFailure EmptyString call err). congruence.
Qed.

(** ** A failed close of the read end after a good decode *)

Lemma parent_receive_close_r_fails s ms err :
  w_status (p s) = true -> r_status (p s) = true ->
  nth 0 (closes s) None = None -> nth 1 (closes s) None = Some err ->
  Forall read_succeeds (reads s) ->
  iarchive (inbox s) = inr ms ->
  exists s',
    parent_receive s = (Throw (SyscallFailure "close" err), s') /\
    m s' = ms /\ isl s' = isl s /\ os s' = os s /\ cerr s' = cerr s /\
    r_status (p s') = true /\ w_status (p s') = false /\
    closes s' = tl (tl (closes s)).
Proof.
  intros Hw Hr Hc0 Hc1 Hrd Hdec. rewrite <- hd_nth in Hc0.
  rewrite <- nth_tl, <- hd_nth in Hc1.
  unfold parent_receive. unfold bind at 1. rewrite (close_w_ok s Hw Hc0).
  set (s1 := with_p _ _). unfold bind at 1.
  pose proof (read_loop_ok [] s1 Hrd) as Hfst.
  pose proof (keeps_read_loop p [] read_blind_p s1) as Kp.
  pose proof (keeps_read_loop closes [] read_blind_closes s1) as Kc.
  pose proof (keeps_read_loop wire_view []
                (os_blind_read_blind _ os_blind_wire_view) s1) as Kv.
  pose proof (keeps_read_loop cerr []
                (os_blind_read_blind _ os_blind_cerr) s1) as Ke.
  apply wire_view_eq in Kv. destruct Kv as (Kos & Kisl & _ & _).
  destruct (read_loop [] s1) as [o s2]; cbn [fst snd] in *. subst o.
  change (inbox s1) with (inbox s). cbn [app]. rewrite Hdec.
  unfold bind at 1. cbn [modify].
  set (s3 := with_m ms s2).
  assert (Hr3 : r_status (p s3) = true) by (cbn [p s3 with_m]; rewrite Kp; exact Hr).
  assert (Hc3 : hd None (closes s3) = Some err).
  { cbn [closes s3 with_m]. rewrite Kc. exact Hc1. }
  rewrite (close_r_fail s3 err Hr3 Hc3). eexists. split; [reflexivity|].
  cbn [m isl os cerr p closes log with_trace with_errno with_closes s3 with_m].
  rewrite Kp, Kc. repeat split; assumption.
Qed.

(** C10. The parent's handler also runs when the only failure is the
    [close] of the read end after the message was received and decoded.
    With both ends open, the first [close] (of the write end) succeeding,
    the second (of the read end) failing with [err], no failing [read] and a
    decodable message [ms] in the pipe:
    - the [try] block throws the system-call failure for "close" with the
      decoded message in [m]; the handler sends [SIGTERM] to the child and
      throws the same error again (or exits with 1 if [kill] fails with an
      error other than [ESRCH]);
    - [run_evolve] in the parent therefore never returns: it ends with that
      error when the destructor's new attempt to close the read end
      succeeds, and with exit status 1 otherwise; the island is left as it
      was, even when [ms] carries a zero status flag. *)
Theorem close_failure_after_decode_discards_result pe i pcl prd inb ms err :
  nth 0 pcl None = None -> nth 1 pcl None = Some err ->
  Forall read_succeeds prd ->
  iarchive inb = inr ms ->
  (forall child_pid s,
      os s = pe -> closes s = pcl -> reads s = prd -> inbox s = inb ->
      w_status (p s) = true -> r_status (p s) = true ->
      let r := try_catch parent_receive (parent_catch child_pid) s in
      fst (parent_receive s) = Throw (SyscallFailure "close" err) /\
      m (snd (parent_receive s)) = ms /\
      fst r = (if kill_tolerated pe
               then Throw (SyscallFailure "close" err) else Exit 1) /\
      (exists kret, In (SysKill child_pid SIGTERM, kret) (trace (snd r))) /\
      isl (snd r) = isl s) /\
  (parent_process pe ->
   let r := run_evolve (boot pe i pcl [] prd inb) in
   fst r = (if kill_tolerated pe
            then match nth 2 pcl None with
                 | None => Throw (SyscallFailure "close" err)
                 | Some _ => Exit 1
                 end
            else Exit 1) /\
   isl (snd r) = i /\
   (exists child_pid kret,
       fork_reply pe = inr child_pid /\
       In (SysKill child_pid SIGTERM, kret) (trace (snd r)))).
Proof.
  intros Hc0 Hc1 Hrd Hdec.
  assert (Hblock : forall child_pid s,
             os s = pe -> closes s = pcl -> reads s = prd -> inbox s = inb ->
             w_status (p s) = true -> r_status (p s) = true ->
             exists s1 s2 kret,
               parent_receive s = (Throw (SyscallFailure "close" err), s1) /\
               m s1 = ms /\
               try_catch parent_receive (parent_catch child_pid) s
               = (if kill_tolerated pe
                  then Throw (SyscallFailure "close" err) else Exit 1, s2) /\
               trace s2 = trace s1 ++ [(SysKill child_pid SIGTERM, kret)] /\
               isl s2 = isl s /\
               r_status (p s2) = true /\ w_status (p s2) = false /\
               closes s2 = tl (tl pcl)).
  { intros child_pid s Hos Hcl Hrds Hinb Hw Hr.
    destruct (parent_receive_close_r_fails s ms err Hw Hr
                ltac:(rewrite Hcl; exact Hc0) ltac:(rewrite Hcl; exact Hc1)
                ltac:(rewrite Hrds; exact Hrd) ltac:(rewrite Hinb; exact Hdec))
      as (s1 & E & Hm & Hisl & Hos1 & Hcerr & Hr1 & Hw1 & Hcl1).
    exists s1. unfold try_catch. rewrite E.
    unfold parent_catch, bind, sys_kill, get, kill_tolerated.
    rewrite Hos1, Hos, Hcl in *.
    destruct (kill_reply pe) as [kerr|].
    - cbn [errno log with_trace with_errno Z.eqb Pos.eqb andb].
      destruct (kerr =? ESRCH); cbn [negb];
        eexists _, _; (split; [reflexivity|]); (split; [exact Hm|]);
        (split; [reflexivity|]); cbn; auto.
    - eexists _, _. split; [reflexivity|]. split; [exact Hm|].
      split; [reflexivity|]. cbn. auto. }
  split.
  - intros child_pid s Hos Hcl Hrds Hinb Hw Hr r. subst r.
    destruct (Hblock child_pid s Hos Hcl Hrds Hinb Hw Hr)
      as (s1 & s2 & kret & E & Hm & Et & Htr & Hisl & _).
    rewrite E, Et. cbn [fst snd]. repeat split; try assumption.
    exists kret. rewrite Htr. apply in_or_app. right. left. reflexivity.
  - intros [[fds Hpipe] (pid & Hfork & Hpid0 & Hpid1)].
    assert (Hrun : exists s',
               run_evolve (boot pe i pcl [] prd inb)
               = (if kill_tolerated pe
                  then match nth 2 pcl None with
                       | None => Throw (SyscallFailure "close" err)
                       | Some _ => Exit 1
                       end
                  else Exit 1, s') /\
               isl s' = i /\
               exists kret, In (SysKill pid SIGTERM, kret) (trace s')).
    { unfold run_evolve. unfold bind at 1. cbn [modify]. unfold bind at 1.
      unfold pipe_t_ctor, bind at 1, sys_pipe. cbn [os boot with_m].
      rewrite Hpipe. cbn [fst snd Z.eqb ret bind modify].
      set (s1 := with_p _ _). set (s2 := log SysFork pid s1).
      destruct (Hblock pid s2 eq_refl eq_refl eq_refl eq_refl eq_refl eq_refl)
        as (sa & sb & kret & E & Hm & Et & Htr & Hisl & Hr & Hw & Hcl).
      assert (Hbody : bind sys_fork
                 (fun child_pid =>
                    bind (if child_pid =? -1 then raise_errno "fork" else ret tt)
                      (fun _ => if negb (child_pid =? 0) then parent child_pid
                                else child)) s1
                = (if kill_tolerated pe
                   then Throw (SyscallFailure "close" err) else Exit 1, sb)).
      { unfold bind at 1, sys_fork. change (os s1) with pe. rewrite Hfork.
        fold s2. apply Z.eqb_neq in Hpid0, Hpid1. rewrite Hpid1, Hpid0.
        cbn [negb bind ret]. unfold parent, bind at 1. rewrite Et.
        destruct (kill_tolerated pe); reflexivity. }
      unfold with_pipe. rewrite Hbody.
      assert (Hin : In (SysKill pid SIGTERM, kret) (trace sb)).
      { rewrite Htr. apply in_or_app. right. left. reflexivity. }
      destruct (kill_tolerated pe).
      - rewrite <- hd_nth in Hc0. unfold pipe_t_dtor, try_catch, bind.
        destruct (nth 2 pcl None) as [e2|] eqn:Hc2.
        + assert (H2 : hd None (closes sb) = Some e2).
          { rewrite Hcl, hd_nth, !nth_tl. exact Hc2. }
          rewrite (close_r_fail sb e2 Hr H2). cbn [print_cerr modify exit].
          eexists. split; [reflexivity|]. cbn. split; [exact Hisl|].
          exists kret. apply in_or_app. left. exact Hin.
        + assert (H2 : hd None (closes sb) = None).
          { rewrite Hcl, hd_nth, !nth_tl. exact Hc2. }
          rewrite (close_r_ok sb Hr H2).
          rewrite close_w_closed by exact Hw.
          eexists. split; [reflexivity|]. cbn. split; [exact Hisl|].
          exists kret. apply in_or_app. left. exact Hin.
      - eexists. split; [reflexivity|]. split; [exact Hisl|].
        exists kret. exact Hin. }
    destruct Hrun as (s' & Erun & Hisl & kret & Hin).
    intros r. subst r. rewrite Erun. cbn [fst snd].
    split; [reflexivity|]. split; [exact Hisl|].
    exists pid, kret. split; assumption.
Qed.

End Proofs.

(** * Further properties of the code *)

Section More.
Context {C : Collaborators} {P : Platform}.

(** ** Reaching the two branches of [run_evolve] *)

Lemma run_evolve_after_fork e i cl wr rd inb fds pid :
  pipe_reply e = inr fds -> fork_reply e = inr pid -> pid <> -1 ->
  run_evolve (boot e i cl wr rd inb)
  = with_pipe (if negb (pid =? 0) then parent pid else child)
      (after_fork e i cl wr rd inb fds pid).
Proof.
  intros Hpipe Hfork Hpid. apply Z.eqb_neq in Hpid.
  unfold run_evolve. unfold bind at 1. cbn [modify]. unfold bind at 1.
  unfold pipe_t_ctor, bind at 1, sys_pipe. cbn [os boot with_m].
  rewrite Hpipe. cbn [fst snd Z.eqb ret bind modify].
  set (s1 := with_p _ _).
  unfold with_pipe, bind at 1, sys_fork. change (os s1) with e.
  rewrite Hfork. unfold bind at 1. rewrite Hpid. cbn [ret].
  reflexivity.
Qed.

(** ** Failures before the two processes exist *)

(** X1. When [pipe] fails with error [err], [run_evolve] throws the
    system-call failure for "pipe" with [err]; the pipe object was never
    constructed, so no destructor runs: [pipe] is the only system call made
    ([fork] and [close] are never called), nothing is printed and the island
    is untouched. *)
Theorem pipe_failure_raises e i cl wr rd inb err :
  pipe_reply e = inl err ->
  let r := run_evolve (boot e i cl wr rd inb) in
  fst r = Throw (SyscallFailure "pipe" err) /\
  trace (snd r) = [(SysPipe, -1)] /\
  closes (snd r) = cl /\ cerr (snd r) = [] /\ isl (snd r) = i.
Proof.
  intros H r. subst r.
  assert (E : exists s', run_evolve (boot e i cl wr rd inb)
                         = (Throw (SyscallFailure "pipe" err), s') /\
                         trace s' = [(SysPipe, -1)] /\ closes s' = cl /\
                         cerr s' = [] /\ isl s' = i).
  { unfold run_evolve. unfold bind at 1. cbn [modify]. unfold bind at 1.
    unfold pipe_t_ctor, bind at 1, sys_pipe. cbn [os boot with_m].
    rewrite H. eexists. split; [reflexivity|]. repeat split. }
  destruct E as (s' & E & H1 & H2 & H3 & H4). rewrite E.
  repeat split; assumption.
Qed.

(** X2. When [pipe] succeeds and [fork] fails with error [err], the
    exception leaves the scope of the pipe, whose destructor closes the read
    end and then the write end.  If both [close] calls succeed, [run_evolve]
    throws the system-call failure for "fork" with [err], having made
    exactly the calls [pipe], [fork], [close(read)], [close(write)], and the
    island is untouched.  If the first of these [close] calls fails, the
    process prints [dtor_msg] and exits with status 1 without closing the
    write end. *)
Theorem fork_failure_closes_pipe e i cl wr rd inb fds err :
  pipe_reply e = inr fds -> fork_reply e = inl err ->
  let r := run_evolve (boot e i cl wr rd inb) in
  (nth 0 cl None = None -> nth 1 cl None = None ->
   fst r = Throw (SyscallFailure "fork" err) /\
   trace (snd r)
   = [(SysPipe, 0); (SysFork, -1); (SysClose (fst fds), 0);
      (SysClose (snd fds), 0)] /\
   r_status (p (snd r)) = false /\ w_status (p (snd r)) = false /\
   isl (snd r) = i) /\
  (forall e0, nth 0 cl None = Some e0 ->
   fst r = Exit 1 /\
   trace (snd r) = [(SysPipe, 0); (SysFork, -1); (SysClose (fst fds), -1)] /\
   cerr (snd r) = [dtor_msg] /\ isl (snd r) = i).
Proof.
  intros Hpipe Hfork r. subst r.
  set (s2 := log SysFork (-1)
               (with_errno err
                  (with_p (mk_pipe (fst fds) (snd fds) true true)
                     (log SysPipe 0 (with_m message_def (boot e i cl wr rd inb)))))).
  assert (E : run_evolve (boot e i cl wr rd inb)
              = match pipe_t_dtor s2 with
                | (Normal _, s') => (Throw (SyscallFailure "fork" err), s')
                | (Throw e', s') => (Throw e', s')
                | (Exit code, s') => (Exit code, s')
                end).
  { unfold run_evolve. unfold bind at 1. cbn [modify]. unfold bind at 1.
    unfold pipe_t_ctor, bind at 1, sys_pipe. cbn [os boot with_m].
    rewrite Hpipe. cbn [fst snd Z.eqb ret bind modify].
    set (s1 := with_p _ _).
    unfold with_pipe, bind at 1, sys_fork. change (os s1) with e.
    rewrite Hfork. reflexivity. }
  rewrite E. clear E.
  assert (Hr : r_status (p s2) = true) by reflexivity.
  assert (Hcl : closes s2 = cl) by reflexivity.
  split.
  - intros H0 H1. rewrite <- hd_nth in H0. rewrite <- nth_tl, <- hd_nth in H1.
    unfold pipe_t_dtor, try_catch, bind.
    rewrite (close_r_ok s2 Hr ltac:(rewrite Hcl; exact H0)).
    set (s3 := with_p _ _).
    rewrite (close_w_ok s3 eq_refl ltac:(exact H1)).
    cbn [fst snd]. repeat split.
  - intros e0 H0. rewrite <- hd_nth in H0.
    unfold pipe_t_dtor, try_catch, bind.
    rewrite (close_r_fail s2 e0 Hr ltac:(rewrite Hcl; exact H0)).
    cbn [fst snd print_cerr modify exit]. repeat split.
Qed.

(** ** The parent's decision *)

(** X3. Once the bytes in the pipe decode to a message [ms] and no system
    call fails, the parent looks at the status flag alone.  With a zero flag
    it returns and the island holds the algorithm and population of [ms],
    whatever the error text of [ms] is; with any non-zero flag it throws the
    child-failure error carrying the error text of [ms] and leaves the
    island alone, whatever the algorithm and population of [ms] are. *)
Theorem parent_acts_on_status pe i pcl prd inb ms :
  parent_process pe ->
  Forall (eq None) pcl -> Forall read_succeeds prd ->
  iarchive inb = inr ms ->
  let r := run_evolve (boot pe i pcl [] prd inb) in
  (get0 ms = 0 ->
   fst r = Normal tt /\ isl (snd r) = mk_island (get2 ms) (get3 ms)) /\
  (get0 ms <> 0 ->
   fst r = Throw (ChildTaskFailed (get1 ms)) /\ isl (snd r) = i).
Proof.
  intros Hp Hc Hrd Hdec r. subst r.
  destruct (run_evolve_parent_decoded pe i pcl prd inb ms Hp Hc Hrd Hdec)
    as (s' & E & Hi).
  rewrite E. cbn [fst snd]. split; intros H0.
  - apply Z.eqb_eq in H0. rewrite H0 in *. split; [reflexivity|exact Hi].
  - apply Z.eqb_neq in H0. rewrite H0 in *. split; [reflexivity|exact Hi].
Qed.

(** ** The parent's read loop *)

Lemma sys_read_cases fd s :
  (exists err,
      hd_error (reads s) = Some (ReadFail err) /\
      sys_read fd buffer_size s
      = (Normal (-1, []),
         log (SysRead fd buffer_size) (-1)
           (with_errno err (with_reads (tl (reads s)) s))))
  \/
  (exists k s1,
      sys_read fd buffer_size s = (Normal (Z.of_nat k, firstn k (inbox s)), s1) /\
      inbox s1 = skipn k (inbox s) /\ reads s1 = tl (reads s) /\
      (k <= List.length (inbox s))%nat /\
      (inbox s <> [] -> 1 <= k)%nat).
Proof.
  unfold sys_read. pose proof buffer_size_pos as Hb.
  assert (Hg : forall limit,
             let k := granted limit buffer_size (List.length (inbox s)) in
             (k <= List.length (inbox s))%nat /\ (inbox s <> [] -> 1 <= k)%nat).
  { intros limit k. subst k. unfold granted.
    destruct (inbox s) as [|b l]; cbn [List.length];
      [split; [destruct limit; lia|congruence]|].
    destruct limit; split; intros; lia. }
  destruct (hd_error (reads s)) as [[err|n]|].
  - left. exists err. split; reflexivity.
  - right. eexists _, _. split; [reflexivity|].
    split; [reflexivity|]. split; [reflexivity|]. apply (Hg (Some n)).
  - right. eexists _, _. split; [reflexivity|].
    split; [reflexivity|]. split; [reflexivity|]. apply (Hg None).
Qed.

Lemma hd_error_In {A} (l : list A) x : hd_error l = Some x -> In x l.
Proof. destruct l; [discriminate|]. intros H. inversion H. left. reflexivity. Qed.

Lemma In_tl {A} (l : list A) x : In x (tl l) -> In x l.
Proof. destruct l; [intros []|]. intros H. right. exact H. Qed.

Lemma read_loop_spec ss s :
  (fst (read_loop ss s) = Normal (ss ++ inbox s) /\
   inbox (snd (read_loop ss s)) = [])
  \/
  (exists err,
      In (ReadFail err) (reads s) /\
      fst (read_loop ss s) = Throw (SyscallFailure "read" err) /\
      errno (snd (read_loop ss s)) = err).
Proof.
  remember (List.length (inbox s)) as n eqn:En.
  revert ss s En. induction n as [n IH] using lt_wf_ind. intros ss s En.
  rewrite read_loop_eq.
  destruct (sys_read_cases (read (p s)) s)
    as [(err & Hhd & E)|(k & s1 & E & Hin & Hrd & Hle & Hpos)]; rewrite E.
  - right. exists err. split; [apply hd_error_In; exact Hhd|].
    cbn [Z.eqb]. split; reflexivity.
  - destruct (inbox s) as [|b l] eqn:Hbox.
    + assert (k = 0)%nat by (cbn in Hle; lia). subst k.
      left. cbn [Z.of_nat Z.eqb fst snd]. rewrite app_nil_r.
      split; [reflexivity|]. rewrite Hin. reflexivity.
    + assert (1 <= k)%nat by (apply Hpos; discriminate).
      replace (Z.of_nat k =? 0) with false by (symmetry; apply Z.eqb_neq; lia).
      replace (Z.of_nat k =? -1) with false by (symmetry; apply Z.eqb_neq; lia).
      destruct (IH (List.length (inbox s1))
                   ltac:(subst n; rewrite Hin, length_skipn;
                         cbn [List.length] in *; lia)
                   (ss ++ firstn (Z.to_nat (Z.of_nat k)) (firstn k (b :: l)))
                   s1 eq_refl)
        as [[Hn Hempty]|(err & Hmem & Ht & He)].
      * left. split; [|exact Hempty]. rewrite Hn, Hin.
        rewrite Nat2Z.id, firstn_firstn, Nat.min_id, <- app_assoc.
        rewrite firstn_skipn. reflexivity.
      * right. exists err. split; [|split; assumption].
        apply In_tl. rewrite <- Hrd. exact Hmem.
Qed.

(** X4. The parent's read loop either runs to the end of the channel, and
    then the stream holds every byte that was waiting in the pipe, in order,
    after what it held before, and the pipe is empty; or a [read] fails with
    an error [err] taken from the kernel's replies, and then the loop throws
    the system-call failure for "read" with [err].  It never exits the
    process, and it leaves the island, the message, the pipe object and the
    [close] replies as they were. *)
Theorem read_loop_accumulates_or_fails ss s :
  let r := read_loop ss s in
  ((fst r = Normal (ss ++ inbox s) /\ inbox (snd r) = [])
   \/
   (exists err, In (ReadFail err) (reads s) /\
                fst r = Throw (SyscallFailure "read" err))) /\
  isl (snd r) = isl s /\ m (snd r) = m s /\ p (snd r) = p s /\
  closes (snd r) = closes s.
Proof.
  intros r. subst r. split.
  - destruct (read_loop_spec ss s) as [H|(err & H1 & H2 & _)].
    + left. exact H.
    + right. exists err. split; assumption.
  - split; [apply (keeps_read_loop isl ss read_blind_isl)|].
    split; [apply (keeps_read_loop m ss
                     (os_blind_read_blind _ os_blind_m))|].
    split; [apply (keeps_read_loop p ss read_blind_p)|].
    apply (keeps_read_loop closes ss read_blind_closes).
Qed.

(** ** A failing [try] block in the parent, seen by the caller *)

Lemma parent_unwinds child_pid s e s1 :
  parent_receive s = (Throw e, s1) ->
  r_status (p s1) = true -> w_status (p s1) = false ->
  exists s',
    with_pipe (parent child_pid) s
    = (if kill_tolerated (os s)
       then match hd None (closes s1) with
            | None => Throw e
            | Some _ => Exit 1
            end
       else Exit 1, s') /\
    isl s' = isl s /\
    (exists kret, In (SysKill child_pid SIGTERM, kret) (trace s')) /\
    (kill_tolerated (os s) = true -> hd None (closes s1) = None ->
     r_status (p s') = false /\ w_status (p s') = false).
Proof.
  intros H Hr Hw.
  pose proof (keeps_eq os _ _ _ _
                (keeps_parent_receive os os_blind_os flag_blind_os
                   (fun _ _ => eq_refl)) H) as Hos.
  pose proof (keeps_eq isl _ _ _ _
                (keeps_parent_receive isl os_blind_isl flag_blind_isl
                   (fun _ _ => eq_refl)) H) as Hisl.
  unfold with_pipe, parent. unfold bind at 1. unfold try_catch. rewrite H.
  unfold parent_catch, bind at 1, sys_kill. rewrite Hos.
  unfold kill_tolerated.
  assert (Hgen : forall kret sk,
             r_status (p sk) = true -> w_status (p sk) = false ->
             closes sk = closes s1 -> isl sk = isl s1 ->
             In (SysKill child_pid SIGTERM, kret) (trace sk) ->
             exists s',
               (let (o, s'0) := pipe_t_dtor sk in
                match o with
                | Normal _ => (Throw (A:=unit) e, s'0)
                | Throw e0 => (Throw e0, s'0)
                | Exit code => (Exit code, s'0)
                end)
               = (match hd None (closes s1) with
                  | None => Throw e
                  | Some _ => Exit 1
                  end, s') /\
               isl s' = isl s /\
               (exists kret, In (SysKill child_pid SIGTERM, kret) (trace s')) /\
               (hd None (closes s1) = None ->
                r_status (p s') = false /\ w_status (p s') = false)).
  { intros kret sk Hrk Hwk Hck Hik Hin.
    unfold pipe_t_dtor, try_catch, bind. rewrite <- Hck.
    destruct (hd None (closes sk)) as [e2|] eqn:Hc2.
    - rewrite (close_r_fail sk e2 Hrk Hc2). cbn [print_cerr modify exit].
      eexists. split; [reflexivity|]. cbn. split; [congruence|].
      split; [|discriminate].
      exists kret. apply in_or_app. left. exact Hin.
    - rewrite (close_r_ok sk Hrk Hc2). rewrite close_w_closed by exact Hwk.
      eexists. split; [reflexivity|]. cbn. split; [congruence|].
      split; [|intros _; split; [reflexivity|exact Hwk]].
      exists kret. apply in_or_app. left. exact Hin. }
  destruct (kill_reply (os s)) as [kerr|].
  - unfold bind at 1, get.
    cbn [errno log with_trace with_errno Z.eqb Pos.eqb andb].
    destruct (kerr =? ESRCH); cbn [negb throw fst snd].
    + destruct (Hgen (-1)
                  (log (SysKill child_pid SIGTERM) (-1) (with_errno kerr s1))
                  Hr Hw eq_refl eq_refl
                  ltac:(cbn; apply in_or_app; right; left; reflexivity))
        as (s' & E & Hi & Hk & Hf).
      exists s'. split; [exact E|]. split; [exact Hi|].
      split; [exact Hk|]. intros _. exact Hf.
    + eexists. split; [reflexivity|]. cbn. split; [exact Hisl|].
      split; [|discriminate].
      exists (-1). apply in_or_app. right. left. reflexivity.
  - unfold bind at 1, get. cbn [andb Z.eqb throw fst snd].
    destruct (Hgen 0 (log (SysKill child_pid SIGTERM) 0 s1)
                Hr Hw eq_refl eq_refl
                ltac:(cbn; apply in_or_app; right; left; reflexivity))
      as (s' & E & Hi & Hk & Hf).
    exists s'. split; [exact E|]. split; [exact Hi|].
    split; [exact Hk|]. intros _. exact Hf.
Qed.

Lemma parent_receive_decode_fails s w :
  w_status (p s) = true -> r_status (p s) = true ->
  hd None (closes s) = None ->
  Forall read_succeeds (reads s) ->
  iarchive (inbox s) = inl w ->
  exists s',
    parent_receive s = (Throw (std_exception w), s') /\
    r_status (p s') = true /\ w_status (p s') = false /\
    closes s' = tl (closes s).
Proof.
  intros Hw Hr Hc Hrd Hdec. unfold parent_receive. unfold bind at 1.
  rewrite (close_w_ok s Hw Hc).
  set (s1 := with_p _ _). unfold bind at 1.
  pose proof (read_loop_ok [] s1 Hrd) as Hfst.
  pose proof (keeps_read_loop p [] read_blind_p s1) as Kp.
  pose proof (keeps_read_loop closes [] read_blind_closes s1) as Kc.
  destruct (read_loop [] s1) as [o s2]; cbn [fst snd] in *. subst o.
  change (inbox s1) with (inbox s). cbn [app]. rewrite Hdec.
  unfold bind at 1. cbn [throw]. exists s2. split; [reflexivity|].
  rewrite Kp, Kc. repeat split; apply Hr.
Qed.

Lemma parent_receive_read_fails s err :
  w_status (p s) = true -> r_status (p s) = true ->
  hd None (closes s) = None ->
  hd_error (reads s) = Some (ReadFail err) ->
  exists s',
    parent_receive s = (Throw (SyscallFailure "read" err), s') /\
    r_status (p s') = true /\ w_status (p s') = false /\
    closes s' = tl (closes s).
Proof.
  intros Hw Hr Hc Hrd. unfold parent_receive. unfold bind at 1.
  rewrite (close_w_ok s Hw Hc).
  set (s1 := with_p _ _). unfold bind at 1.
  rewrite read_loop_eq. unfold sys_read.
  change (reads s1) with (reads s). rewrite Hrd. cbn [Z.eqb].
  eexists. split; [reflexivity|]. repeat split; apply Hr.
Qed.

(** X5. The bytes in the pipe do not decode (for instance the child died
    before writing anything, so the parent reads the end of the channel at
    once): with the write end closed and every [read] succeeding, the
    archive's exception [std_exception w] is thrown in the [try] block, the
    child is sent [SIGTERM], and the island is untouched.  The caller gets
    that same exception, with both ends of the pipe closed, when [kill]
    succeeds or fails with [ESRCH] and the destructor's [close] of the read
    end succeeds; otherwise the process exits with status 1. *)
Theorem undecodable_reply_raises pe i pcl prd inb w :
  parent_process pe ->
  nth 0 pcl None = None -> Forall read_succeeds prd ->
  iarchive inb = inl w ->
  let r := run_evolve (boot pe i pcl [] prd inb) in
  fst r = (if kill_tolerated pe
           then match nth 1 pcl None with
                | None => Throw (std_exception w)
                | Some _ => Exit 1
                end
           else Exit 1) /\
  isl (snd r) = i /\
  (exists child_pid kret,
      fork_reply pe = inr child_pid /\
      In (SysKill child_pid SIGTERM, kret) (trace (snd r))) /\
  (kill_tolerated pe = true -> nth 1 pcl None = None ->
   r_status (p (snd r)) = false /\ w_status (p (snd r)) = false).
Proof.
  intros [[fds Hpipe] (pid & Hfork & Hpid0 & Hpid1)] Hc0 Hrd Hdec r. subst r.
  rewrite (run_evolve_after_fork pe i pcl [] prd inb fds pid Hpipe Hfork Hpid1).
  apply Z.eqb_neq in Hpid0. rewrite Hpid0. cbn [negb].
  set (s2 := after_fork pe i pcl [] prd inb fds pid).
  rewrite <- hd_nth in Hc0.
  destruct (parent_receive_decode_fails s2 w eq_refl eq_refl Hc0 Hrd Hdec)
    as (s1 & E & Hr & Hw & Hcl).
  destruct (parent_unwinds pid s2 _ s1 E Hr Hw) as (s' & Eu & Hi & Hk & Hf).
  rewrite Eu. cbn [fst snd]. change (os s2) with pe in *.
  rewrite Hcl in *. rewrite hd_nth, nth_tl in *.
  split; [reflexivity|]. split; [exact Hi|].
  split; [|exact Hf].
  destruct Hk as [kret Hk]. exists pid, kret. split; assumption.
Qed.

(** X6. The parent's first [read] fails with error [err] after the write
    end was closed: the [try] block throws the system-call failure for
    "read" with [err], the child is sent [SIGTERM] and the island is
    untouched.  The caller gets that same error, with both ends of the pipe
    closed, when [kill] succeeds or fails with [ESRCH] and the destructor's
    [close] of the read end succeeds; otherwise the process exits with
    status 1. *)
Theorem read_failure_raises pe i pcl prd inb err :
  parent_process pe ->
  nth 0 pcl None = None -> hd_error prd = Some (ReadFail err) ->
  let r := run_evolve (boot pe i pcl [] prd inb) in
  fst r = (if kill_tolerated pe
           then match nth 1 pcl None with
                | None => Throw (SyscallFailure "read" err)
                | Some _ => Exit 1
                end
           else Exit 1) /\
  isl (snd r) = i /\
  (exists child_pid kret,
      fork_reply pe = inr child_pid /\
      In (SysKill child_pid SIGTERM, kret) (trace (snd r))) /\
  (kill_tolerated pe = true -> nth 1 pcl None = None ->
   r_status (p (snd r)) = false /\ w_status (p (snd r)) = false).
Proof.
  intros [[fds Hpipe] (pid & Hfork & Hpid0 & Hpid1)] Hc0 Hrd r. subst r.
  rewrite (run_evolve_after_fork pe i pcl [] prd inb fds pid Hpipe Hfork Hpid1).
  apply Z.eqb_neq in Hpid0. rewrite Hpid0. cbn [negb].
  set (s2 := after_fork pe i pcl [] prd inb fds pid).
  rewrite <- hd_nth in Hc0.
  destruct (parent_receive_read_fails s2 err eq_refl eq_refl Hc0 Hrd)
    as (s1 & E & Hr & Hw & Hcl).
  destruct (parent_unwinds pid s2 _ s1 E Hr Hw) as (s' & Eu & Hi & Hk & Hf).
  rewrite Eu. cbn [fst snd]. change (os s2) with pe in *.
  rewrite Hcl in *. rewrite hd_nth, nth_tl in *.
  split; [reflexivity|]. split; [exact Hi|].
  split; [|exact Hf].
  destruct Hk as [kret Hk]. exists pid, kret. split; assumption.
Qed.

(** ** No end of the pipe is left open *)

Lemma pipe_t_dtor_normal s s' :
  pipe_t_dtor s = (Normal tt, s') ->
  r_status (p s') = false /\ w_status (p s') = false.
Proof.
  unfold pipe_t_dtor, try_catch, bind. intros H.
  destruct (close_r s) as [[[]|e|code] s1] eqn:E1; try discriminate.
  destruct (close_w s1) as [[[]|e|code] s2] eqn:E2; try discriminate.
  inversion H. subst s'.
  destruct (close_r_normal _ _ E1) as [Hr _].
  destruct (close_w_normal _ _ E2) as [Hw Hr'].
  split; [rewrite Hr'; exact Hr|exact Hw].
Qed.

Lemma run_evolve_closes_pipe e i cl wr rd inb :
  match run_evolve (boot e i cl wr rd inb) with
  | (Exit _, _) => True
  | (_, s') => r_status (p s') = false /\ w_status (p s') = false
  end.
Proof.
  unfold run_evolve. unfold bind at 1. cbn [modify]. unfold bind at 1.
  unfold pipe_t_ctor, bind at 1, sys_pipe. cbn [os boot with_m].
  destruct (pipe_reply e) as [err|fds].
  - cbn. split; reflexivity.
  - cbn [fst snd Z.eqb ret bind modify]. unfold with_pipe.
    match goal with |- context [bind sys_fork ?k ?s1] =>
      destruct (bind sys_fork k s1) as [[[]|e1|code] s2] end;
      try exact I.
    + destruct (pipe_t_dtor s2) as [[[]|e'|code] s3] eqn:Ed; try exact I.
      * exact (pipe_t_dtor_normal _ _ Ed).
      * exfalso. destruct (pipe_t_dtor_outcome s2) as [H|H];
          rewrite Ed in H; discriminate.
    + destruct (pipe_t_dtor s2) as [[[]|e'|code] s3] eqn:Ed; try exact I.
      * exact (pipe_t_dtor_normal _ _ Ed).
      * exfalso. destruct (pipe_t_dtor_outcome s2) as [H|H];
          rewrite Ed in H; discriminate.
Qed.

(** X7. Whenever [run_evolve] gives control back to its caller, by
    returning or by throwing, no end of the pipe is left marked open:
    both [r_status] and [w_status] are [false], whatever the operating
    system replied and whatever the task did.  (The only other way out is
    [std::exit], which ends the process.) *)
Theorem run_evolve_leaves_no_end_open e i cl wr rd inb :
  let r := run_evolve (boot e i cl wr rd inb) in
  (forall code, fst r <> Exit code) ->
  r_status (p (snd r)) = false /\ w_status (p (snd r)) = false.
Proof.
  intros r Hne. subst r.
  pose proof (run_evolve_closes_pipe e i cl wr rd inb) as H.
  destruct (run_evolve (boot e i cl wr rd inb)) as [[[]|e1|code] s'];
    cbn [fst snd] in *; try exact H.
  exfalso. exact (Hne code eq_refl).
Qed.

(** ** System-call failures inside the child *)

(** Sending the current message succeeds and the [close] of the write end
    then fails. *)
Lemma send_then_close_fails s err :
  w_status (p s) = true ->
  Forall (eq None) (writes s) -> hd None (closes s) = Some err ->
  exists s',
    bind get (fun s0 =>
      bind (send_message (m s0)) (fun _ =>
      bind close_w (fun _ => exit (A:=unit) 0))) s
    = (Throw (SyscallFailure "close" err), s') /\
    outbox (trace s') = outbox (trace s) ++ oarchive (m s) /\
    sent s' = sent s ++ [m s] /\
    w_status (p s') = true /\ closes s' = tl (closes s) /\
    Forall (eq None) (writes s') /\ os s' = os s /\ m s' = m s.
Proof.
  intros Hw Hwr Hc. unfold bind at 1, get. unfold bind at 1.
  unfold send_message, bind at 1. cbn [modify].
  set (s0 := with_sent (sent s ++ [m s]) s).
  destruct (send_loop_ok (oarchive (m s)) s0 Hwr) as (chunks & Hcat & E).
  rewrite E. set (s1 := after_writes chunks s0).
  assert (Hw1 : w_status (p s1) = true).
  { unfold s1. rewrite (after_writes_blind p chunks s0 os_blind_p). exact Hw. }
  assert (Hc1 : hd None (closes s1) = Some err).
  { unfold s1. rewrite after_writes_closes. exact Hc. }
  unfold bind at 1. rewrite (close_w_fail s1 err Hw1 Hc1).
  eexists. split; [reflexivity|].
  cbn [trace sent p closes writes os m log with_trace with_errno with_closes].
  unfold s1. rewrite after_writes_trace, !outbox_app, outbox_writes, Hcat.
  rewrite (after_writes_blind sent chunks s0 os_blind_sent).
  rewrite (after_writes_blind p chunks s0 os_blind_p).
  rewrite (after_writes_blind os chunks s0 os_blind_os).
  rewrite (after_writes_blind m chunks s0 os_blind_m).
  rewrite after_writes_closes, after_writes_writes.
  cbn [outbox]. rewrite app_nil_r.
  repeat split; try assumption.
  clear - Hwr. cbn [writes s0 with_sent].
  remember (List.length chunks) as k eqn:Ek. clear Ek.
  revert k. induction Hwr; intros [|k]; cbn [skipn]; auto.
Qed.

(** The child's two handlers and second [try] block after an exception [e]
    derived from [std::exception], when nothing else fails. *)
Lemma child_reports_exception s e s1 :
  child_evolve s = (Throw e, s1) -> e <> unknown_exception ->
  w_status (p s1) = true ->
  hd None (closes s1) = None -> Forall (eq None) (writes s1) ->
  what_fault (os s1) = false -> reset_fault (os s1) = false ->
  exists s',
    child s = (Exit 0, s') /\
    outbox (trace s')
    = outbox (trace s1)
      ++ oarchive (mk_message 1 (what e) algorithm_def population_def) /\
    sent s' = sent s1 ++ [mk_message 1 (what e) algorithm_def population_def].
Proof.
  intros E He Hw Hc Hwr Hwf Hrf.
  unfold child. unfold bind at 1. unfold try_catch at 1. rewrite E.
  assert (Hcatch : child_catch e s1
                   = (Normal tt, with_m (set1 (what e) (m s1)) s1)).
  { destruct e; try congruence; cbn [child_catch];
      unfold try_catch, set_what, bind, get; rewrite Hwf; reflexivity. }
  rewrite Hcatch. unfold bind at 1. cbn [modify].
  unfold try_catch, child_report, bind at 1, reset_results, bind at 1, get.
  cbn [os with_m]. rewrite Hrf. cbn [modify].
  set (s4 := with_m _ _).
  assert (Hc4 : hd None (closes s4) = None) by exact Hc.
  unfold bind at 1, get. unfold bind at 1.
  unfold send_message, bind at 1. cbn [modify].
  set (s5 := with_sent _ s4).
  destruct (send_loop_ok (oarchive (m s4)) s5 Hwr) as (chunks & Hcat & Es).
  rewrite Es. set (s6 := after_writes chunks s5).
  assert (Hw6 : w_status (p s6) = true).
  { unfold s6. rewrite (after_writes_blind p chunks s5 os_blind_p). exact Hw. }
  assert (Hc6 : hd None (closes s6) = None).
  { unfold s6. rewrite after_writes_closes. exact Hc. }
  unfold bind at 1. rewrite (close_w_ok s6 Hw6 Hc6).
  eexists. split; [reflexivity|].
  cbn [trace sent with_p log with_trace with_closes].
  unfold s6. rewrite after_writes_trace, !outbox_app, outbox_writes, Hcat.
  rewrite (after_writes_blind sent chunks s5 os_blind_sent).
  cbn [outbox]. rewrite app_nil_r. split; reflexivity.
Qed.

(** X8. In the child, the task returns, the whole success message is
    written, and then the [close] of the write end fails with error [err].
    The child treats this like any failure: it sends a second message, a
    failure report whose text is the [what()] of the "close" error, closes
    the write end (third [close] reply) and exits with status 0.  The pipe
    then carries the encoded success message followed by the encoded
    failure report. *)
Theorem child_close_failure_sends_second_message ce i ccl cwr algo new_pop err :
  child_process ce ->
  nth 0 ccl None = None -> nth 1 ccl None = Some err ->
  nth 2 ccl None = None ->
  Forall (eq None) cwr ->
  evolve ce (get_algorithm i) (get_population i) = Evolved algo new_pop ->
  what_fault ce = false -> reset_fault ce = false ->
  let ok := mk_message 0 EmptyString algo new_pop in
  let report := mk_message 1 (what (SyscallFailure "close" err))
                  algorithm_def population_def in
  fst (child_run ce i ccl cwr) = Exit 0 /\
  sent (snd (child_run ce i ccl cwr)) = [ok; report] /\
  outbox (trace (snd (child_run ce i ccl cwr)))
  = oarchive ok ++ oarchive report.
Proof.
  intros Hch H0 H1 H2 Hwr Hev Hwf Hrf ok report.
  destruct (run_evolve_in_child ce i ccl cwr Hch)
    as (s2 & Hrun & Hr & Hw & Hc & Hwrs & Hos & Hisl & Hm & Hsent & Hout).
  rewrite <- hd_nth in H0. rewrite <- nth_tl, <- hd_nth in H1.
  rewrite <- !nth_tl, <- hd_nth in H2.
  assert (E : exists s1,
             child_evolve s2 = (Throw (SyscallFailure "close" err), s1) /\
             outbox (trace s1) = oarchive ok /\ sent s1 = [ok] /\
             w_status (p s1) = true /\ closes s1 = tl (tl ccl) /\
             Forall (eq None) (writes s1) /\ os s1 = ce).
  { unfold child_evolve, bind at 1.
    rewrite (close_r_ok s2 Hr ltac:(rewrite Hc; exact H0)).
    set (s3 := with_p _ _).
    unfold bind at 1, run_task, bind at 1, get.
    change (os s3) with (os s2). change (isl s3) with (isl s2).
    rewrite Hos, Hisl, Hev. cbn [ret fst snd]. unfold bind at 1. cbn [modify].
    set (s4 := with_m _ s3).
    destruct (send_then_close_fails s4 err Hw
                ltac:(cbn [writes s4 s3 with_m with_p log with_trace with_closes];
                      rewrite Hwrs; exact Hwr)
                ltac:(cbn [closes s4 s3 with_m with_p log with_trace with_closes];
                      rewrite Hc; exact H1))
      as (s' & Es & Ho & Hs & Hw' & Hc' & Hwr' & Hos' & _).
    fold get. rewrite Es. exists s'. split; [reflexivity|].
    rewrite Ho, Hs, Hc', Hos'.
    cbn [trace sent closes os m s4 s3 with_m with_p log with_trace with_closes].
    rewrite outbox_app, Hout, Hsent, Hm, Hc, Hos. cbn [outbox app].
    repeat split; assumption. }
  destruct E as (s1 & E & Ho1 & Hs1 & Hw1 & Hc1 & Hwr1 & Hos1).
  destruct (child_reports_exception s2 _ s1 E ltac:(discriminate) Hw1
              ltac:(rewrite Hc1; exact H2) Hwr1
              ltac:(rewrite Hos1; exact Hwf) ltac:(rewrite Hos1; exact Hrf))
    as (s' & Ec & Ho & Hs).
  rewrite (Hrun _ _ Ec). cbn [fst snd]. rewrite Ho, Hs, Ho1, Hs1.
  repeat split.
Qed.

(** X9. The child's very first call, the [close] of the read end, fails
    with error [err].  Whatever the task would have done, the child sends
    one failure report whose text is the [what()] of the "close" error and
    exits with status 0; when nothing else fails, the call of [run_evolve]
    ends for the caller with the child-failure error carrying that text and
    the island is untouched. *)
Theorem child_close_failure_reported_to_caller e i pcl prd ins ccl cwr err :
  parent_process e -> fst (pipe_fds e) <> snd (pipe_fds e) ->
  Forall (eq None) pcl -> Forall read_succeeds prd -> Forall (eq None) ins ->
  nth 0 ccl None = Some err -> nth 1 ccl None = None ->
  Forall (eq None) cwr ->
  what_fault e = false -> reset_fault e = false ->
  let report := mk_message 1 (what (SyscallFailure "close" err))
                  algorithm_def population_def in
  iarchive (oarchive report) = inr report ->
  fst (child_run (as_child e) i ccl cwr) = Exit 0 /\
  sent (snd (child_run (as_child e) i ccl cwr)) = [report] /\
  exists s',
    fork_island_call e i pcl prd ins ccl cwr
    = Ends (Throw (ChildTaskFailed (what (SyscallFailure "close" err)))) s' /\
    isl s' = i.
Proof.
  intros [[fds Hpipe] (pid & Hfork & Hpid0 & Hpid1)] Hne Hpcl Hprd Hins H0 H1
    Hwr Hwf Hrf report Hcodec. subst report.
  unfold pipe_fds in Hne. rewrite Hpipe in Hne.
  rewrite <- hd_nth in H0. rewrite <- nth_tl, <- hd_nth in H1.
  set (s2 := after_fork (as_child e) i ccl cwr [] [] fds 0).
  assert (E : child_evolve s2
              = (Throw (SyscallFailure "close" err),
                 log (SysClose (read (p s2))) (-1)
                   (with_errno err (with_closes (tl (closes s2)) s2)))).
  { unfold child_evolve, bind at 1.
    rewrite (close_r_fail s2 err eq_refl H0). reflexivity. }
  destruct (child_reports s2 _ _ E (fun _ => Hwf) Hrf eq_refl H1 Hwr)
    as (chunks & sc & Ec & Hcat & Ht & Hs).
  apply (child_run_exits e i ccl cwr fds 0 sc Hpipe) in Ec.
  cbn [s2 after_fork trace sent m p read write log with_trace with_p with_m
       with_closes with_errno boot app get1 message_def report_text
       SyscallFailure] in Ht, Hs, Hcat.
  fold (SyscallFailure "close" err) in Ht, Hs, Hcat.
  assert (Hout : outbox (trace sc)
                 = oarchive (mk_message 1 (what (SyscallFailure "close" err))
                               algorithm_def population_def)).
  { rewrite Ht. cbn [outbox]. rewrite outbox_app, outbox_writes, Hcat.
    cbn [outbox]. apply app_nil_r. }
  destruct (fork_island_call_decoded e i pcl prd ins ccl cwr fds pid 0 sc _
              Hpipe Hfork Hpid0 Hpid1 Hne Hpcl Hprd Hins Ec
              ltac:(eexists; rewrite Ht; apply replay_child;
                    [exact Hne|right; reflexivity])
              ltac:(rewrite Hout; exact Hcodec))
    as (s' & Ecall & Hi).
  cbn [get0 get1 Z.eqb] in Ecall, Hi.
  rewrite Ec. cbn [fst snd]. split; [reflexivity|]. split; [exact Hs|].
  exists s'. split; assumption.
Qed.

(** ** How many writes the sender makes *)

Lemma send_loop_ok_count ss s :
  Forall (eq None) (writes s) ->
  exists chunks,
    concat chunks = ss /\
    List.length chunks = S (List.length ss / buffer_size) /\
    Forall (fun c => List.length c = buffer_size) (removelast chunks) /\
    List.length (last chunks []) = (List.length ss mod buffer_size)%nat /\
    send_loop ss s = (Normal tt, after_writes chunks s).
Proof.
  pose proof buffer_size_pos as Hb.
  remember (List.length ss) as n eqn:En.
  revert ss s En. induction n as [n IH] using lt_wf_ind. intros ss s En Hwr.
  rewrite send_loop_eq.
  pose proof (Forall_hd_none _ Hwr) as Hw.
  destruct (le_lt_dec buffer_size (List.length ss)) as [Hle|Hlt].
  - unfold bind. rewrite (write_buffer_ok s _ Hw).
    set (s1 := after_writes [firstn buffer_size ss] s).
    assert (Hlen : List.length (skipn buffer_size ss) = (n - buffer_size)%nat)
      by (rewrite length_skipn; lia).
    destruct (IH (n - buffer_size)%nat ltac:(lia) (skipn buffer_size ss) s1
                 ltac:(symmetry; exact Hlen) (Forall_tl _ _ Hwr))
      as (cs & Hcat & Hcount & Hfull & Hlast & E).
    exists (firstn buffer_size ss :: cs).
    assert (Hn : n = (n - buffer_size + 1 * buffer_size)%nat) by lia.
    split; [cbn [concat]; rewrite Hcat; apply firstn_skipn|].
    split; [cbn [List.length]; rewrite Hcount;
            replace (n / buffer_size)%nat
              with ((n - buffer_size + 1 * buffer_size) / buffer_size)%nat
              by (f_equal; lia);
            rewrite Nat.div_add by lia; lia|].
    destruct cs as [|c cs']; [discriminate|].
    split; [cbn [removelast]; constructor;
            [rewrite length_firstn; lia|exact Hfull]|].
    split; [|exact E].
    change (last (firstn buffer_size ss :: c :: cs') [])
      with (last (c :: cs') []).
    rewrite Hlast.
    replace (n mod buffer_size)%nat
      with ((n - buffer_size + 1 * buffer_size) mod buffer_size)%nat
      by (f_equal; lia).
    rewrite Nat.Div0.mod_add. reflexivity.
  - exists [firstn buffer_size ss].
    split; [cbn [concat]; rewrite app_nil_r; apply firstn_all2; lia|].
    split; [cbn [List.length]; rewrite Nat.div_small by lia;
            reflexivity|].
    split; [constructor|].
    split; [|apply write_buffer_ok; exact Hw].
    cbn [last]. rewrite length_firstn, Nat.mod_small by lia. lia.
Qed.

(** X10. When every [write] succeeds, [send_message] makes exactly
    [len / 1024 + 1] calls to [write], where [len] is the length of the
    encoded message: every call but the last hands over exactly 1024 bytes
    and the last one hands over the remaining [len mod 1024] bytes.  In
    particular, when [len] is a multiple of 1024 (or zero) the last [write]
    is a call with zero bytes. *)
Theorem send_message_write_count ms s :
  Forall (eq None) (writes s) ->
  let r := send_message ms s in
  exists chunks,
    fst r = Normal tt /\
    trace (snd r) = trace s ++ map (write_ok (write (p s))) chunks /\
    concat chunks = oarchive ms /\
    List.length chunks = S (List.length (oarchive ms) / 1024) /\
    Forall (fun c => List.length c = 1024%nat) (removelast chunks) /\
    List.length (last chunks []) = (List.length (oarchive ms) mod 1024)%nat.
Proof.
  intros Hwr r. subst r. rewrite <- buffer_size_value.
  unfold send_message, bind, modify.
  set (s0 := with_sent (sent s ++ [ms]) s).
  destruct (send_loop_ok_count (oarchive ms) s0 Hwr)
    as (chunks & Hcat & Hcount & Hfull & Hlast & E).
  rewrite E. cbn [fst snd]. exists chunks.
  split; [reflexivity|]. split; [apply (after_writes_trace chunks s0)|].
  repeat split; assumption.
Qed.

(** ** What the exit status of the child means *)

Lemma send_and_exit_outcome s :
  let r := bind get (fun s0 =>
             bind (send_message (m s0)) (fun _ =>
             bind close_w (fun _ => exit (A:=unit) 0))) s in
  ended_well s r \/ (cerr (snd r) = cerr s /\ exists e, fst r = Throw e).
Proof.
  intros r. assert (Er : r = r) by reflexivity. unfold r at 2 in Er.
  clearbody r. unfold bind at 1, get in Er. unfold bind at 1 in Er.
  unfold send_message, bind at 1 in Er. cbn [modify] in Er.
  set (s0 := with_sent (sent s ++ [m s]) s) in Er.
  destruct (send_loop_spec (oarchive (m s)) s0)
    as [(chunks & Hcat & _ & E)|(chunks & c & rest & err & _ & _ & _ & E)];
    rewrite E in Er.
  - set (s1 := after_writes chunks s0) in Er.
    assert (Hcerr : cerr s1 = cerr s)
      by apply (after_writes_blind cerr chunks s0 os_blind_cerr).
    assert (Hsent : sent s1 = sent s ++ [m s])
      by apply (after_writes_blind sent chunks s0 os_blind_sent).
    assert (Hout : outbox (trace s1) = outbox (trace s) ++ oarchive (m s)).
    { unfold s1. rewrite after_writes_trace, outbox_app, outbox_writes, Hcat.
      reflexivity. }
    unfold bind at 1 in Er. destruct (w_status (p s1)) eqn:Hw.
    + destruct (hd None (closes s1)) as [e|] eqn:Hc.
      * rewrite (close_w_fail s1 e Hw Hc) in Er. subst r. right.
        split; [exact Hcerr|]. eexists. reflexivity.
      * rewrite (close_w_ok s1 Hw Hc) in Er. subst r. left.
        split; [reflexivity|]. split; [exact Hcerr|]. split; [reflexivity|].
        exists (m s), (sent s), (outbox (trace s)).
        cbn [snd sent trace with_p log with_trace with_closes exit].
        rewrite outbox_app, Hout. cbn [outbox]. rewrite app_nil_r.
        split; [exact Hsent|reflexivity].
    + rewrite (close_w_closed s1 Hw) in Er. subst r. left.
      split; [reflexivity|]. split; [exact Hcerr|]. split; [exact Hw|].
      exists (m s), (sent s), (outbox (trace s)). split; assumption.
  - subst r. right. split; [|eexists; reflexivity].
    cbn [snd]. unfold after_failed_write.
    cbn [cerr log with_trace with_errno with_writes].
    apply (after_writes_blind cerr chunks s0 os_blind_cerr).
Qed.

Lemma ended_well_from s s0 r :
  cerr s0 = cerr s -> ended_well s0 r -> ended_well s r.
Proof.
  intros Hc (H1 & H2 & H3 & H4). split; [exact H1|].
  split; [congruence|]. split; assumption.
Qed.

Lemma child_evolve_outcome s :
  let r := child_evolve s in
  ended_well s r \/ (cerr (snd r) = cerr s /\ exists e, fst r = Throw e).
Proof.
  intros r. assert (Er : r = r) by reflexivity. unfold r at 2 in Er.
  clearbody r. unfold child_evolve in Er. unfold bind at 1 in Er.
  pose proof (keeps_close_r cerr os_blind_cerr flag_blind_cerr s) as Kc.
  pose proof (close_r_no_exit s) as Hne.
  destruct (close_r s) as [[[]|e|code] s1]; cbn [fst snd] in *.
  - unfold bind at 1, run_task in Er. unfold bind at 1, get in Er.
    destruct (evolve (os s1) (get_algorithm (isl s1)) (get_population (isl s1)))
      as [algo new_pop|e]; cbn [ret throw fst snd] in Er.
    + unfold bind at 1 in Er. cbn [modify] in Er.
      set (s2 := with_m _ s1) in Er. fold get in Er.
      destruct (send_and_exit_outcome s2) as [H|[H1 H2]]; subst r.
      * left. apply (ended_well_from s s2); [exact Kc|exact H].
      * right. split; [rewrite H1; exact Kc|exact H2].
    + subst r. right. split; [exact Kc|]. eexists. reflexivity.
  - subst r. right. split; [exact Kc|]. eexists. reflexivity.
  - exfalso. exact (Hne code eq_refl).
Qed.

Lemma child_report_outcome s :
  let r := child_report s in
  ended_well s r \/ (cerr (snd r) = cerr s /\ exists e, fst r = Throw e).
Proof.
  intros r. assert (Er : r = r) by reflexivity. unfold r at 2 in Er.
  clearbody r. unfold child_report in Er. unfold bind at 1 in Er.
  unfold reset_results in Er. unfold bind at 1, get in Er.
  destruct (reset_fault (os s)); cbn [throw modify fst snd] in Er.
  - subst r. right. split; [reflexivity|]. eexists. reflexivity.
  - set (s1 := with_m _ s) in Er. fold get in Er.
    destruct (send_and_exit_outcome s1) as [H|[H1 H2]]; subst r.
    + left. apply (ended_well_from s s1); [reflexivity|exact H].
    + right. split; [exact H1|exact H2].
Qed.

Lemma child_catch_outcome e s :
  let r := child_catch e s in
  (fst r = Normal tt /\ cerr (snd r) = cerr s) \/
  (fst r = Exit 1 /\ cerr (snd r) = cerr s ++ [fatal_msg]).
Proof.
  assert (H : forall e',
             let r := try_catch (set_what e') (fun _ =>
                        bind (print_cerr fatal_msg) (fun _ => exit 1)) s in
             (fst r = Normal tt /\ cerr (snd r) = cerr s) \/
             (fst r = Exit 1 /\ cerr (snd r) = cerr s ++ [fatal_msg])).
  { intros e' r. subst r. unfold try_catch, set_what, bind, get.
    destruct (what_fault (os s)); cbn; [right|left]; split; reflexivity. }
  destruct e; cbn [child_catch]; try apply H.
  left. split; reflexivity.
Qed.

(** X11. The child process ends in exactly one of two ways.  Either it
    exits with status 0, and then it printed nothing, its write end is
    closed, and the last message it handed to [send_message] was written out
    in full as the last bytes it put into the pipe; or it exits with status
    1, and then the last line it printed on [std::cerr] is [fatal_msg]. *)
Theorem child_exit_status s :
  let r := child s in
  ended_well s r \/
  (fst r = Exit 1 /\ cerr (snd r) = cerr s ++ [fatal_msg]).
Proof.
  intros r. assert (Er : r = r) by reflexivity. unfold r at 2 in Er.
  clearbody r. unfold child in Er. unfold bind at 1 in Er.
  unfold try_catch at 1 in Er.
  destruct (child_evolve_outcome s) as [H|[Hc [e He]]].
  - destruct H as (H1 & H2).
    destruct (child_evolve s) as [o s1]; cbn [fst] in H1. subst o r.
    left. split; [reflexivity|exact H2].
  - destruct (child_evolve s) as [o s1]; cbn [fst snd] in *. subst o.
    destruct (child_catch_outcome e s1) as [[Hn Hk]|[Hx Hk]];
      destruct (child_catch e s1) as [o s2]; cbn [fst snd] in *; subst o.
    + unfold bind at 1 in Er. cbn [modify] in Er.
      unfold try_catch in Er.
      set (s3 := with_m _ s2) in Er.
      destruct (child_report_outcome s3) as [H|[Hc3 [e3 He3]]].
      * destruct H as (H1 & H2).
        destruct (child_report s3) as [o s4]; cbn [fst] in H1. subst o r.
        left. apply (ended_well_from s s3); [cbn; congruence|].
        split; [reflexivity|exact H2].
      * destruct (child_report s3) as [o s4]; cbn [fst snd] in *. subst o r.
        right. cbn. split; [reflexivity|].
        rewrite Hc3. cbn. congruence.
    + subst r. right. split; [reflexivity|cbn; congruence].
Qed.

(** ** Which system calls each side makes *)

Lemma adds_weaken {A} (Q Q' : syscall * Z -> Prop) (c : M A) :
  (forall ev, Q ev -> Q' ev) -> adds Q c -> adds Q' c.
Proof.
  intros HQ H s. destruct (H s) as (t & Ht & Hall). exists t.
  split; [exact Ht|]. eapply Forall_impl; eassumption.
Qed.

Lemma adds_same {A} Q (c : M A) :
  (forall s, trace (snd (c s)) = trace s) -> adds Q c.
Proof.
  intros H s. exists []. rewrite app_nil_r. split; [apply H|constructor].
Qed.

Lemma adds_one {A} (Q : syscall * Z -> Prop) (c : M A) :
  (forall s, exists ev, trace (snd (c s)) = trace s ++ [ev] /\ Q ev) ->
  adds Q c.
Proof.
  intros H s. destruct (H s) as (ev & Ht & Hq). exists [ev].
  split; [exact Ht|]. constructor; [exact Hq|constructor].
Qed.

Lemma adds_bind {A B} Q (c : M A) (k : A -> M B) :
  adds Q c -> (forall a, adds Q (k a)) -> adds Q (bind c k).
Proof.
  intros Hc Hk s. unfold bind. destruct (Hc s) as (t1 & Ht1 & H1).
  destruct (c s) as [[a|e|code] s1]; cbn [snd] in *;
    try (exists t1; split; assumption).
  destruct (Hk a s1) as (t2 & Ht2 & H2). exists (t1 ++ t2).
  split; [rewrite Ht2, Ht1, app_assoc; reflexivity|].
  apply Forall_app. split; assumption.
Qed.

Lemma adds_try_catch {A} Q (c : M A) h :
  adds Q c -> (forall e, adds Q (h e)) -> adds Q (try_catch c h).
Proof.
  intros Hc Hh s. unfold try_catch. destruct (Hc s) as (t1 & Ht1 & H1).
  destruct (c s) as [[a|e|code] s1]; cbn [snd] in *;
    try (exists t1; split; assumption).
  destruct (Hh e s1) as (t2 & Ht2 & H2). exists (t1 ++ t2).
  split; [rewrite Ht2, Ht1, app_assoc; reflexivity|].
  apply Forall_app. split; assumption.
Qed.

Lemma adds_sys_close fd : adds is_close (sys_close fd).
Proof.
  apply adds_one. intros s. unfold sys_close.
  destruct (hd None (closes s)); eexists; split; try reflexivity; exact I.
Qed.

Lemma adds_sys_write fd buf : adds is_write (sys_write fd buf).
Proof.
  apply adds_one. intros s. unfold sys_write.
  destruct (hd None (writes s)); eexists; split; try reflexivity; exact I.
Qed.

Lemma adds_sys_read fd count : adds is_read (sys_read fd count).
Proof.
  apply adds_one. intros s. unfold sys_read.
  destruct (hd_error (reads s)) as [[e|n]|]; eexists; split;
    try reflexivity; exact I.
Qed.

Lemma adds_sys_kill pid sig : adds is_kill (sys_kill pid sig).
Proof.
  apply adds_one. intros s. unfold sys_kill.
  destruct (kill_reply (os s)); eexists; split; try reflexivity; exact I.
Qed.

Lemma adds_check {A} Q (r : Z) (c : M A) (a : A) :
  adds Q c -> adds Q (if r =? -1 then c else ret a).
Proof.
  intros H. destruct (r =? -1); [exact H|]. apply adds_same. reflexivity.
Qed.

Lemma adds_raise_errno {A} Q fname : adds Q (raise_errno (A:=A) fname).
Proof. apply adds_same. reflexivity. Qed.

Lemma adds_close_r : adds is_close close_r.
Proof.
  unfold close_r. apply adds_bind; [apply adds_same; reflexivity|].
  intros s0. destruct (r_status (p s0)); [|apply adds_same; reflexivity].
  apply adds_bind; [apply adds_sys_close|]. intros r.
  apply adds_bind; [apply adds_check, adds_raise_errno|].
  intros _. apply adds_same. reflexivity.
Qed.

Lemma adds_close_w : adds is_close close_w.
Proof.
  unfold close_w. apply adds_bind; [apply adds_same; reflexivity|].
  intros s0. destruct (w_status (p s0)); [|apply adds_same; reflexivity].
  apply adds_bind; [apply adds_sys_close|]. intros r.
  apply adds_bind; [apply adds_check, adds_raise_errno|].
  intros _. apply adds_same. reflexivity.
Qed.

Lemma adds_fatal {A} Q line code :
  adds Q (bind (print_cerr line) (fun _ => exit (A:=A) code)).
Proof. apply adds_same. reflexivity. Qed.

Lemma adds_pipe_t_dtor : adds is_close pipe_t_dtor.
Proof.
  unfold pipe_t_dtor. apply adds_try_catch.
  - apply adds_bind; [apply adds_close_r|]. intros _. apply adds_close_w.
  - intros e. apply adds_fatal.
Qed.

Lemma adds_with_pipe {A} Q (body : M A) :
  adds Q body -> (forall ev, is_close ev -> Q ev) -> adds Q (with_pipe body).
Proof.
  intros Hb HQ s. unfold with_pipe. destruct (Hb s) as (t1 & Ht1 & H1).
  destruct (body s) as [[a|e|code] s1]; cbn [snd] in *;
    try (exists t1; split; assumption);
    destruct (adds_pipe_t_dtor s1) as (t2 & Ht2 & H2);
    destruct (pipe_t_dtor s1) as [[[]|e'|code'] s2]; cbn [snd] in *;
    exists (t1 ++ t2);
    (split; [rewrite Ht2, Ht1, app_assoc; reflexivity|]);
    apply Forall_app; (split; [exact H1|]);
    eapply Forall_impl; eassumption.
Qed.

Lemma adds_send_loop ss : adds is_write (send_loop ss).
Proof.
  remember (List.length ss) as n eqn:En.
  revert ss En. induction n as [n IH] using lt_wf_ind. intros ss En.
  assert (Hw : adds is_write (write_buffer (firstn buffer_size ss))).
  { unfold write_buffer. apply adds_bind; [apply adds_same; reflexivity|].
    intros s0. apply adds_bind; [apply adds_sys_write|]. intros r.
    apply adds_check, adds_raise_errno. }
  rewrite send_loop_eq.
  destruct (le_lt_dec buffer_size (List.length ss)) as [Hle|Hlt];
    [|exact Hw].
  apply adds_bind; [exact Hw|]. intros _.
  eapply IH; [|reflexivity]. subst n. apply skipn_buffer_shorter. exact Hle.
Qed.

Lemma adds_send_message ms : adds is_write (send_message ms).
Proof.
  unfold send_message. apply adds_bind; [apply adds_same; reflexivity|].
  intros _. apply adds_send_loop.
Qed.

Lemma adds_read_loop ss : adds is_read (read_loop ss).
Proof.
  intros s. remember (List.length (inbox s)) as n eqn:En.
  revert ss s En. induction n as [n IH] using lt_wf_ind. intros ss s En.
  rewrite read_loop_eq.
  destruct (adds_sys_read (read (p s)) buffer_size s) as (t1 & Ht1 & H1).
  destruct (sys_read (read (p s)) buffer_size s)
    as [[[r buffer]|e|code] s1] eqn:E; cbn [snd] in *;
    try (exists t1; split; assumption).
  destruct (r =? 0) eqn:E0; [exists t1; split; assumption|].
  destruct (r =? -1) eqn:E1; [exists t1; split; assumption|].
  destruct (IH (List.length (inbox s1))
               ltac:(subst n; eapply sys_read_progress; eassumption)
               (ss ++ firstn (Z.to_nat r) buffer) s1 eq_refl)
    as (t2 & Ht2 & H2).
  exists (t1 ++ t2). split; [rewrite Ht2, Ht1, app_assoc; reflexivity|].
  apply Forall_app. split; assumption.
Qed.

Lemma adds_child : adds child_call child.
Proof.
  assert (Hc : forall c : M unit, adds is_close c -> adds child_call c)
    by (intros c; apply adds_weaken; intros ev H; left; exact H).
  assert (Hw : forall c : M unit, adds is_write c -> adds child_call c)
    by (intros c; apply adds_weaken; intros ev H; right; exact H).
  assert (Htail : adds child_call
            (bind get (fun s0 =>
               bind (send_message (m s0)) (fun _ =>
               bind close_w (fun _ => exit (A:=unit) 0))))).
  { apply adds_bind; [apply adds_same; reflexivity|]. intros s0.
    apply adds_bind; [apply Hw, adds_send_message|]. intros _.
    apply adds_bind; [apply Hc, adds_close_w|]. intros _.
    apply adds_same. reflexivity. }
  unfold child. apply adds_bind.
  - apply adds_try_catch.
    + unfold child_evolve. apply adds_bind; [apply Hc, adds_close_r|].
      intros _. apply adds_bind.
      { apply adds_same. intros s. unfold run_task, bind, get.
        destruct (evolve _ _ _); reflexivity. }
      intros r. apply adds_bind; [apply adds_same; reflexivity|].
      intros _. exact Htail.
    + intros e. apply adds_same. intros s.
      destruct e; cbn [child_catch]; try reflexivity;
        unfold try_catch, set_what, bind, get;
        destruct (what_fault (os s)); reflexivity.
  - intros _. apply adds_bind; [apply adds_same; reflexivity|]. intros _.
    apply adds_try_catch; [|intros e; apply adds_fatal].
    unfold child_report. apply adds_bind; [|intros _; exact Htail].
    apply adds_same. intros s. unfold reset_results, bind, get.
    destruct (reset_fault (os s)); reflexivity.
Qed.

Lemma adds_parent child_pid : adds parent_call (parent child_pid).
Proof.
  assert (Hc : forall c : M unit, adds is_close c -> adds parent_call c)
    by (intros c; apply adds_weaken; intros ev H; left; exact H).
  unfold parent. apply adds_bind.
  - apply adds_try_catch.
    + unfold parent_receive. apply adds_bind; [apply Hc, adds_close_w|].
      intros _. apply adds_bind.
      { eapply adds_weaken; [|apply adds_read_loop].
        intros ev H. right. left. exact H. }
      intros ss. apply adds_bind; [|intros _; apply Hc, adds_close_r].
      apply adds_same. intros s. destruct (iarchive ss); reflexivity.
    + intros e. unfold parent_catch. apply adds_bind.
      { eapply adds_weaken; [|apply adds_sys_kill].
        intros ev H. right. right. exact H. }
      intros r. apply adds_bind; [apply adds_same; reflexivity|].
      intros s0. destruct (_ && _); apply adds_same; reflexivity.
  - intros _. apply adds_bind; [apply adds_same; reflexivity|]. intros s0.
    destruct (negb _); [apply adds_same; reflexivity|].
    apply adds_bind; [|intros _]; apply adds_same;
      apply (keeps_island_call trace); reflexivity.
Qed.

(** X12. After a successful [pipe] and [fork], a process makes only these
    system calls until [run_evolve] ends: the child (where [fork] returned
    0) only [close] and [write]; the parent only [close], [read] and
    [kill].  So the parent never writes into the pipe, the child never
    reads from it and never signals anyone, and neither calls [pipe] or
    [fork] again. *)
Theorem calls_after_fork e i cl wr rd inb fds pid :
  pipe_reply e = inr fds -> fork_reply e = inr pid -> pid <> -1 ->
  let r := run_evolve (boot e i cl wr rd inb) in
  exists t,
    trace (snd r) = [(SysPipe, 0); (SysFork, pid)] ++ t /\
    Forall (if pid =? 0 then child_call else parent_call) t /\
    (pid <> 0 -> outbox (trace (snd r)) = []).
Proof.
  intros Hpipe Hfork Hpid r. subst r.
  rewrite (run_evolve_after_fork e i cl wr rd inb fds pid Hpipe Hfork Hpid).
  assert (Hadds : adds (if pid =? 0 then child_call else parent_call)
                    (with_pipe (if negb (pid =? 0) then parent pid else child))).
  { destruct (pid =? 0); cbn [negb]; apply adds_with_pipe;
      try apply adds_child; try apply adds_parent;
      intros ev H; left; exact H. }
  destruct (Hadds (after_fork e i cl wr rd inb fds pid)) as (t & Ht & Hall).
  exists t. split; [exact Ht|]. split; [exact Hall|].
  intros H0. apply Z.eqb_neq in H0. rewrite H0 in Hall. rewrite Ht.
  rewrite outbox_app. cbn [trace after_fork log with_trace with_p with_m boot
    app outbox].
  clear - Hall. induction Hall as [|[c z] t Hq Hall IH]; [reflexivity|].
  destruct c; cbn [outbox]; try exact IH.
  exfalso. destruct Hq as [Hq|[Hq|Hq]]; exact Hq.
Qed.

(** ** What a normal return tells the caller *)

Lemma with_pipe_normal {A} (body : M A) s a s' :
  with_pipe body s = (Normal a, s') ->
  exists s1, body s = (Normal a, s1) /\ pipe_t_dtor s1 = (Normal tt, s').
Proof.
  unfold with_pipe. intros H.
  destruct (body s) as [[a0|e|code] s1]; try discriminate;
    destruct (pipe_t_dtor s1) as [[[]|e'|code'] s2] eqn:Ed; try discriminate.
  inversion H. subst. exists s1. split; [reflexivity|exact Ed].
Qed.

Lemma run_evolve_normal_fork e i cl wr rd inb :
  fst (run_evolve (boot e i cl wr rd inb)) = Normal tt ->
  exists fds pid,
    pipe_reply e = inr fds /\ fork_reply e = inr pid /\ pid <> -1.
Proof.
  set (r := run_evolve (boot e i cl wr rd inb)).
  assert (Er : r = r) by reflexivity. unfold r at 2 in Er. clearbody r.
  intros Hn. unfold run_evolve in Er. unfold bind at 1 in Er.
  cbn [modify] in Er. unfold bind at 1 in Er.
  unfold pipe_t_ctor, bind at 1, sys_pipe in Er. cbn [os boot with_m] in Er.
  destruct (pipe_reply e) as [err|fds] eqn:Hpipe.
  - subst r. discriminate.
  - cbn [fst snd Z.eqb ret bind modify] in Er.
    set (s1 := with_p _ _) in Er.
    unfold with_pipe, bind at 1, sys_fork in Er. change (os s1) with e in Er.
    destruct (fork_reply e) as [err|pid] eqn:Hfork.
    + exfalso. unfold bind at 1 in Er.
      cbv beta iota zeta delta [Z.eqb Pos.eqb raise_errno bind get throw] in Er.
      match type of Er with context [pipe_t_dtor ?x] =>
        destruct (pipe_t_dtor x) as [[[]|e'|code'] s2] end;
        subst r; discriminate.
    + exists fds, pid. split; [reflexivity|]. split; [reflexivity|].
      intros ->. unfold bind at 1 in Er.
      cbv beta iota zeta delta [Z.eqb Pos.eqb raise_errno bind get throw] in Er.
      match type of Er with context [pipe_t_dtor ?x] =>
        destruct (pipe_t_dtor x) as [[[]|e'|code'] s2] end;
        subst r; discriminate.
Qed.

Lemma adds_parent_receive : adds quiet_call parent_receive.
Proof.
  unfold parent_receive. apply adds_bind.
  { eapply adds_weaken; [|apply adds_close_w]. intros ev H. left. exact H. }
  intros _. apply adds_bind.
  { eapply adds_weaken; [|apply adds_read_loop]. intros ev H. right. exact H. }
  intros ss. apply adds_bind.
  - apply adds_same. intros s. destruct (iarchive ss); reflexivity.
  - intros _. eapply adds_weaken; [|apply adds_close_r].
    intros ev H. left. exact H.
Qed.

Lemma parent_normal child_pid s s' :
  parent child_pid s = (Normal tt, s') ->
  exists s1,
    parent_receive s = (Normal tt, s1) /\ get0 (m s1) = 0 /\
    isl s' = mk_island (get2 (m s1)) (get3 (m s1)) /\
    m s' = m s1 /\ p s' = p s1 /\ trace s' = trace s1.
Proof.
  unfold parent. unfold bind at 1. unfold try_catch. intros H.
  pose proof (parent_catch_no_return child_pid) as Hno.
  destruct (parent_receive s) as [[[]|e|code] s1].
  - exists s1. split; [reflexivity|]. unfold bind at 1, get in H.
    destruct (get0 (m s1) =? 0) eqn:E0; cbn [negb] in H; [|discriminate].
    apply Z.eqb_eq in E0. split; [exact E0|].
    unfold bind, island_call in H.
    destruct (hd None (installs s1)); [discriminate|].
    cbn [installs with_isl with_installs] in H.
    destruct (hd None (tl (installs s1))); [discriminate|].
    inversion H. repeat split.
  - exfalso. specialize (Hno e s1).
    destruct (parent_catch child_pid e s1) as [[[]|e'|code] s2];
      cbn [fst] in *; try discriminate. apply Hno. reflexivity.
  - discriminate.
Qed.

(** X13. When [run_evolve] returns normally, then [pipe] and [fork] had
    succeeded and this is the parent; after the [fork] the process made
    only [close] and [read] calls (the child was never signalled); the
    message it decoded has a zero status flag; the island holds exactly the
    algorithm and the population of that message. *)
Theorem normal_return_means_success e i cl wr rd inb :
  let r := run_evolve (boot e i cl wr rd inb) in
  fst r = Normal tt ->
  exists fds pid t,
    pipe_reply e = inr fds /\ fork_reply e = inr pid /\
    pid <> 0 /\ pid <> -1 /\
    trace (snd r) = [(SysPipe, 0); (SysFork, pid)] ++ t /\
    Forall quiet_call t /\
    get0 (m (snd r)) = 0 /\
    isl (snd r) = mk_island (get2 (m (snd r))) (get3 (m (snd r))).
Proof.
  intros r Hn. subst r.
  destruct (run_evolve_normal_fork e i cl wr rd inb Hn)
    as (fds & pid & Hpipe & Hfork & Hpid).
  exists fds, pid.
  rewrite (run_evolve_after_fork e i cl wr rd inb fds pid Hpipe Hfork Hpid)
    in *.
  set (s2 := after_fork e i cl wr rd inb fds pid) in *.
  destruct (with_pipe _ s2) as [o s'] eqn:E. cbn [fst snd] in *. subst o.
  destruct (with_pipe_normal _ _ _ _ E) as (s3 & Eb & Ed).
  destruct (pid =? 0) eqn:E0; cbn [negb] in Eb.
  - exfalso. destruct (child_exits s2) as [code Hc].
    rewrite Eb in Hc. discriminate.
  - apply Z.eqb_neq in E0.
    destruct (parent_normal pid s2 s3 Eb) as (s1 & Er & Hst & Hi3 & Hm3 & Hp3 & Ht3).
    destruct (parent_receive_normal _ _ Er) as [Hr Hw].
    assert (Hd : pipe_t_dtor s3 = (Normal tt, s3)).
    { apply pipe_t_dtor_closed; rewrite Hp3; assumption. }
    rewrite Hd in Ed. inversion Ed. subst s'.
    destruct (adds_parent_receive s2) as (t & Ht & Hall).
    rewrite Er in Ht. cbn [snd] in Ht.
    exists t. repeat split; try assumption.
    + rewrite Ht3. exact Ht.
    + rewrite Hm3. exact Hst.
    + rewrite Hm3. exact Hi3.
Qed.

(** ** The parent reads only after it has closed its write end *)

Lemma bind_keeps_tail {X A B} (f : state -> X) (c : M A) (k : A -> M B) s :
  (forall a, keeps f (k a)) -> f (snd (bind c k s)) = f (snd (c s)).
Proof.
  intros H. unfold bind.
  destruct (c s) as [[a|e|code] s1]; cbn [snd]; [apply H|reflexivity|reflexivity].
Qed.

Lemma adds_parent_catch child_pid e : adds is_kill (parent_catch child_pid e).
Proof.
  unfold parent_catch. apply adds_bind; [apply adds_sys_kill|].
  intros r. apply adds_bind; [apply adds_same; reflexivity|].
  intros s0. destruct (_ && _); apply adds_same; reflexivity.
Qed.

Lemma read_loop_reads_from ss s :
  exists t,
    trace (snd (read_loop ss s)) = trace s ++ t /\
    Forall (reads_from (read (p s))) t.
Proof.
  remember (List.length (inbox s)) as n eqn:En.
  revert ss s En. induction n as [n IH] using lt_wf_ind. intros ss s En.
  rewrite read_loop_eq.
  assert (H1 : exists k, trace (snd (sys_read (read (p s)) buffer_size s))
                         = trace s ++ [(SysRead (read (p s)) buffer_size, k)]).
  { unfold sys_read.
    destruct (hd_error (reads s)) as [[e|n']|]; eexists; reflexivity. }
  destruct H1 as [k H1].
  pose proof (keeps_sys_read p (read (p s)) buffer_size read_blind_p s) as Kp.
  assert (Hev : Forall (reads_from (read (p s)))
                  [(SysRead (read (p s)) buffer_size, k)]).
  { constructor; [exists buffer_size, k; reflexivity|constructor]. }
  destruct (sys_read (read (p s)) buffer_size s)
    as [[[r buffer]|e|code] s1] eqn:E; cbn [snd] in *;
    try (eexists; split; [exact H1|exact Hev]).
  destruct (r =? 0) eqn:E0; [eexists; split; [exact H1|exact Hev]|].
  destruct (r =? -1) eqn:E1; [eexists; split; [exact H1|exact Hev]|].
  destruct (IH (List.length (inbox s1))
               ltac:(subst n; eapply sys_read_progress; eassumption)
               (ss ++ firstn (Z.to_nat r) buffer) s1 eq_refl)
    as (t2 & Ht2 & H2).
  rewrite Kp in H2. eexists. split.
  - rewrite Ht2, H1, <- app_assoc. reflexivity.
  - apply Forall_app. split; assumption.
Qed.

(** What follows the parent's [close_w] in its [try] block. *)
Lemma parent_reads_calls s :
  exists t,
    trace (snd (bind (read_loop [])
                  (fun ss =>
                     bind match iarchive ss with
                          | inl w => throw (std_exception w)
                          | inr ms => modify (with_m ms)
                          end
                       (fun _ => close_r)) s))
    = trace s ++ t /\
    Forall (parent_call_on (read (p s))) t.
Proof.
  unfold bind at 1.
  destruct (read_loop_reads_from [] s) as (t1 & Ht1 & H1).
  assert (H1' : Forall (parent_call_on (read (p s))) t1).
  { eapply Forall_impl; [|exact H1]. intros ev H. right. left. exact H. }
  destruct (read_loop [] s) as [[ss|e|code] s1]; cbn [snd] in *;
    try (exists t1; split; assumption).
  unfold bind.
  destruct (iarchive ss) as [w|ms]; cbn [throw modify snd];
    [exists t1; split; assumption|].
  destruct (adds_close_r (with_m ms s1)) as (t2 & Ht2 & H2).
  destruct (close_r (with_m ms s1)) as [[[]|e|code] s2]; cbn [snd] in *;
    exists (t1 ++ t2);
    (split; [rewrite Ht2; cbn [trace with_m]; rewrite Ht1, app_assoc; reflexivity|]);
    apply Forall_app; (split; [exact H1'|]);
    (eapply Forall_impl; [|exact H2]); intros ev H; left; exact H.
Qed.

(** The calls of the parent after the [fork]: the [close] of the write end
    comes first, and when it fails no [read] follows. *)
Lemma parent_calls child_pid s :
  w_status (p s) = true ->
  exists rc t,
    trace (snd (parent child_pid s))
    = trace s ++ (SysClose (write (p s)), rc) :: t /\
    (rc = 0 \/ rc = -1) /\
    (rc = -1 -> Forall close_or_kill t) /\
    Forall (parent_call_on (read (p s))) t.
Proof.
  intros Hw. unfold parent.
  rewrite (bind_keeps_tail trace).
  2:{ intros _. apply keeps_bind; [apply keeps_get|]. intros s0.
      destruct (negb _); [apply keeps_throw|].
      apply keeps_bind; [|intros _]; apply keeps_island_call; reflexivity. }
  unfold try_catch, parent_receive. unfold bind at 1.
  destruct (hd None (closes s)) as [e|] eqn:Hc.
  - rewrite (close_w_fail s e Hw Hc).
    match goal with |- context [parent_catch child_pid ?x ?y] =>
      destruct (adds_parent_catch child_pid x y) as (t & Ht & Hall) end.
    exists (-1), t. cbn [snd]. split; [|split; [right; reflexivity|split]].
    + rewrite Ht. cbn [trace log with_trace with_errno with_closes].
      rewrite <- app_assoc. reflexivity.
    + intros _. eapply Forall_impl; [|exact Hall]. intros ev H. right. exact H.
    + eapply Forall_impl; [|exact Hall]. intros ev H. right. right. exact H.
  - rewrite (close_w_ok s Hw Hc). set (s1 := with_p _ _).
    destruct (parent_reads_calls s1) as (t1 & Ht1 & H1).
    change (read (p s1)) with (read (p s)) in H1.
    match goal with |- context [bind (read_loop []) ?k s1] =>
      destruct (bind (read_loop []) k s1) as [[[]|e|code] s2] end;
      cbn [snd] in Ht1.
    1, 3: exists 0, t1; cbn [snd]; split;
      [rewrite Ht1; cbn [trace s1 with_p log with_trace with_closes];
       rewrite <- app_assoc; reflexivity
      |split; [left; reflexivity|split; [intros H; discriminate H|exact H1]]].
    destruct (adds_parent_catch child_pid e s2) as (t2 & Ht2 & H2).
    exists 0, (t1 ++ t2). cbn [snd]. split; [|split; [left; reflexivity|split]].
    + rewrite Ht2, Ht1. cbn [trace s1 with_p log with_trace with_closes].
      rewrite <- !app_assoc. reflexivity.
    + intros H. discriminate H.
    + apply Forall_app. split; [exact H1|].
      eapply Forall_impl; [|exact H2]. intros ev H. right. right. exact H.
Qed.

Lemma with_pipe_calls {A} (body : M A) s :
  exists t,
    trace (snd (with_pipe body s)) = trace (snd (body s)) ++ t /\
    Forall is_close t.
Proof.
  unfold with_pipe.
  destruct (body s) as [[a|e|code] s1]; cbn [snd];
    try (exists []; rewrite app_nil_r; split; [reflexivity|constructor]);
    destruct (adds_pipe_t_dtor s1) as (t & Ht & Hall);
    destruct (pipe_t_dtor s1) as [[[]|e'|code'] s2]; cbn [snd] in *;
    exists t; split; assumption.
Qed.

(** X14. In a process that came out of a successful [pipe] and [fork],
    every [read] made until [run_evolve] ends is made by the parent, on the
    read end of the pipe, and after a [close] of the write end that
    succeeded: the parent never waits for the end of a stream that it keeps
    open itself.  When the [close] of the write end fails, no [read] is
    made at all. *)
Theorem reads_follow_close_of_write_end e i cl wr rd inb fds pid :
  pipe_reply e = inr fds -> fork_reply e = inr pid -> pid <> -1 ->
  let r := run_evolve (boot e i cl wr rd inb) in
  forall t1 fd n k t2,
    trace (snd r) = t1 ++ (SysRead fd n, k) :: t2 ->
    pid <> 0 /\ fd = fst fds /\ In (SysClose (snd fds), 0) t1.
Proof.
  intros Hpipe Hfork Hpid r t1 fd n k t2. subst r.
  rewrite (run_evolve_after_fork e i cl wr rd inb fds pid Hpipe Hfork Hpid).
  set (s2 := after_fork e i cl wr rd inb fds pid).
  destruct (with_pipe_calls (if negb (pid =? 0) then parent pid else child) s2)
    as (td & Htd & Hd).
  rewrite Htd. clear Htd.
  destruct (pid =? 0) eqn:E0; cbn [negb].
  - destruct (adds_child s2) as (tc & Htc & Hc). rewrite Htc.
    cbn [s2 after_fork trace log with_trace with_p with_m boot app].
    intros H. exfalso.
    assert (Hall : Forall child_call (tc ++ td)).
    { apply Forall_app. split; [exact Hc|].
      eapply Forall_impl; [|exact Hd]. intros ev Hev. left. exact Hev. }
    rewrite <- ?app_assoc in H. cbn [app] in H.
    destruct t1 as [|x1 [|x2 t1]]; try discriminate H.
    injection H as _ _ H. rewrite H in Hall.
    apply Forall_app in Hall. destruct Hall as [_ Hall].
    inversion Hall as [|x l [Hx|Hx] Hl]; exact Hx.
  - apply Z.eqb_neq in E0.
    destruct (parent_calls pid s2 eq_refl) as (rc & t & Ht & Hrc & Hfail & Hall).
    rewrite Ht.
    cbn [s2 after_fork trace p read write log with_trace with_p with_m boot app]
      in Hall |- *.
    intros H. rewrite <- ?app_assoc in H. cbn [app] in H.
    assert (HT : Forall (parent_call_on (fst fds)) (t ++ td)).
    { apply Forall_app. split; [exact Hall|].
      eapply Forall_impl; [|exact Hd]. intros ev Hev. left. exact Hev. }
    destruct t1 as [|x1 [|x2 [|x3 t1]]]; try discriminate H.
    injection H as H1 H2 H3 H. subst x1 x2 x3.
    assert (Hin : In (SysRead fd n, k) (t ++ td))
      by (rewrite H; apply in_elt).
    split; [exact E0|]. split.
    + rewrite Forall_forall in HT. destruct (HT _ Hin) as [Hx|[Hx|Hx]];
        try (exfalso; exact Hx).
      destruct Hx as (n' & k' & Hx). congruence.
    + right. right. left. destruct Hrc as [-> | ->]; [reflexivity|].
      exfalso.
      assert (HF : Forall close_or_kill (t ++ td)).
      { apply Forall_app. split; [exact (Hfail eq_refl)|].
        eapply Forall_impl; [|exact Hd]. intros ev Hev. left. exact Hev. }
      rewrite Forall_forall in HF. destruct (HF _ Hin) as [Hx|Hx]; exact Hx.
Qed.

(** ** The island's setters *)

(** X15. The message arrives, decodes and has a zero status; no system
    call fails.  If [set_algorithm] throws, [run_evolve] throws the same
    exception and the island is untouched.  If [set_algorithm] returns and
    [set_population] throws, [run_evolve] throws that exception and the
    island keeps the new algorithm together with its old population: the
    first call is not undone.  In both cases both ends of the pipe are
    closed and the child is not signalled. *)
Theorem setter_failure_propagates pe i pcl prd ins inb ms :
  parent_process pe ->
  Forall (eq None) pcl -> Forall read_succeeds prd ->
  iarchive inb = inr ms -> get0 ms = 0 ->
  let r := run_evolve (with_installs ins (boot pe i pcl [] prd inb)) in
  (forall x, nth 0 ins None = Some x ->
   fst r = Throw x /\ isl (snd r) = i /\
   r_status (p (snd r)) = false /\ w_status (p (snd r)) = false /\
   Forall (fun ev => ~ is_kill ev) (trace (snd r))) /\
  (forall x, nth 0 ins None = None -> nth 1 ins None = Some x ->
   fst r = Throw x /\
   isl (snd r) = mk_island (get2 ms) (get_population i) /\
   r_status (p (snd r)) = false /\ w_status (p (snd r)) = false /\
   Forall (fun ev => ~ is_kill ev) (trace (snd r))).
Proof.
  intros [[fds Hpipe] (pid & Hfork & Hpid0 & Hpid1)] Hc Hrd Hdec Hst r.
  subst r.
  set (s2 := with_installs ins (after_fork pe i pcl [] prd inb fds pid)).
  assert (Erun : run_evolve (with_installs ins (boot pe i pcl [] prd inb))
                 = with_pipe (parent pid) s2).
  { apply Z.eqb_neq in Hpid0, Hpid1.
    unfold run_evolve. unfold bind at 1. cbn [modify]. unfold bind at 1.
    unfold pipe_t_ctor, bind at 1, sys_pipe. cbn [os boot with_m with_installs].
    rewrite Hpipe. cbn [fst snd Z.eqb ret bind modify].
    set (s1 := with_p _ _).
    unfold with_pipe, bind at 1, sys_fork. change (os s1) with pe.
    rewrite Hfork. unfold bind at 1. rewrite Hpid1, Hpid0. cbn [ret negb].
    reflexivity. }
  rewrite Erun. clear Erun.
  destruct (parent_receive_ok s2 ms eq_refl eq_refl Hc Hrd Hdec)
    as (s1 & t & E & Hm & Hi & Hn & Ht & Hall).
  destruct (parent_receive_normal _ _ E) as [Hr1 Hw1].
  assert (Hq : Forall (fun ev => ~ is_kill ev) (trace s1)).
  { rewrite Ht.
    cbn [s2 after_fork trace p read write log with_trace with_p with_m
         with_installs boot app].
    repeat (constructor; [intros H; exact H|]).
    apply Forall_app. split.
    - eapply Forall_impl; [|exact Hall]. intros ev [k ->] H. exact H.
    - constructor; [intros H; exact H|constructor]. }
  assert (Hbody : parent pid s2
                  = bind (island_call (set_algorithm (get2 ms)))
                      (fun _ => island_call (set_population (get3 ms))) s1).
  { unfold parent. unfold bind at 1. unfold try_catch. rewrite E.
    unfold bind at 1, get. rewrite Hm.
    apply Z.eqb_eq in Hst. rewrite Hst. reflexivity. }
  change (installs s2) with ins in Hn. change (isl s2) with i in Hi.
  split.
  - intros x H0. rewrite <- hd_nth in H0.
    assert (Eb : parent pid s2 = (Throw x, with_installs (tl ins) s1)).
    { rewrite Hbody. unfold bind, island_call. rewrite Hn, H0. reflexivity. }
    rewrite (with_pipe_closed _ _ _ _ Eb Hr1 Hw1). cbn [fst snd].
    repeat split; assumption.
  - intros x H0 H1. rewrite <- hd_nth in H0. rewrite <- nth_tl, <- hd_nth in H1.
    assert (Eb : parent pid s2
                 = (Throw x,
                    with_installs (tl (tl ins))
                      (with_isl (set_algorithm (get2 ms) (isl s1))
                         (with_installs (tl ins) s1)))).
    { rewrite Hbody. unfold bind, island_call. rewrite Hn, H0.
      cbn [installs with_isl with_installs]. rewrite H1. reflexivity. }
    rewrite (with_pipe_closed _ _ _ _ Eb Hr1 Hw1). cbn [fst snd].
    cbn [isl p trace with_isl with_installs set_algorithm]. rewrite Hi.
    repeat split; assumption.
Qed.

End More.

(** * The theorems at work on the byte-blob instance *)

Import Blob.

Lemma demo_parent_process task kill : parent_process (Demo.parent_env task kill).
Proof.
  split; [exists (3, 4); reflexivity|].
  exists 4242. repeat split; discriminate.
Qed.

Lemma demo_child_process task wf rf : child_process (Demo.child_env task wf rf).
Proof. split; [exists (3, 4); reflexivity|reflexivity]. Qed.

Lemma demo_fds task kill :
  fst (pipe_fds (Demo.parent_env task kill))
  <> snd (pipe_fds (Demo.parent_env task kill)).
Proof. cbn. discriminate. Qed.

Lemma run_evolve_success_round_trip_witness :
  iarchive (oarchive Demo.result_ok) = inr Demo.result_ok /\
  exists s',
    fork_island_call (Demo.parent_env Demo.task_ok None) Demo.island0
      [None; None] Demo.ragged_reads [None; None] [None; None]
      [None; None; None]
    = Ends (Normal tt) s' /\
    isl s' = mk_island [x01; x02] (Demo.evolved_pop ++ [x03]).
Proof.
  assert (Hcodec : iarchive (oarchive Demo.result_ok) = inr Demo.result_ok)
    by (vm_compute; reflexivity).
  split; [exact Hcodec|].
  destruct (run_evolve_success_round_trip
              (Demo.parent_env Demo.task_ok None) Demo.island0
              [None; None] Demo.ragged_reads [None; None] [None; None]
              [None; None; None]
              [x01; x02] (Demo.evolved_pop ++ [x03])
              (demo_parent_process _ _) (demo_fds _ _)
              ltac:(repeat constructor) ltac:(repeat constructor)
              ltac:(repeat constructor) ltac:(repeat constructor)
              ltac:(repeat constructor)
              eq_refl Hcodec) as (s' & H1 & H2 & _).
  exists s'. split; [exact H1|exact H2].
Defined.

Lemma run_evolve_reports_task_failure_witness :
  Demo.task_throws [x02] [x03] = Raised (std_exception "bounds violated") /\
  exists s',
    fork_island_call (Demo.parent_env Demo.task_throws None) Demo.island0
      [None; None] Demo.ragged_reads [None; None] [None; None] [None]
    = Ends (Throw (ChildTaskFailed "bounds violated")) s' /\
    isl s' = Demo.island0.
Proof.
  split; [reflexivity|].
  destruct (run_evolve_reports_task_failure
              (Demo.parent_env Demo.task_throws None) Demo.island0
              [None; None] Demo.ragged_reads [None; None] [None; None] [None]
              (std_exception "bounds violated")
              (demo_parent_process _ _) (demo_fds _ _)
              ltac:(repeat constructor) ltac:(repeat constructor)
              ltac:(repeat constructor) ltac:(repeat constructor)
              ltac:(repeat constructor)
              eq_refl ltac:(discriminate) eq_refl eq_refl
              ltac:(vm_compute; reflexivity)) as (s' & H1 & _ & H2 & _).
  exists s'. split; [exact H1|exact H2].
Defined.

(** The message arrives and decodes; [set_algorithm] throws. *)
Lemma run_evolve_failure_keeps_island_witness :
  let s := with_installs [Some bad_alloc]
             (boot (Demo.parent_env Demo.task_ok None) Demo.island0
                [] [] Demo.ragged_reads (oarchive Demo.result_ok)) in
  fst (run_evolve s) <> Normal tt /\
  isl (snd (run_evolve s)) = Demo.island0.
Proof.
  intros s.
  assert (H : fst (run_evolve s) <> Normal tt) by (vm_compute; discriminate).
  split; [exact H|].
  exact (run_evolve_failure_keeps_island s H
           ltac:(intros H0; discriminate H0)).
Defined.

(** The message arrives and decodes; [set_algorithm] returns and
    [set_population] throws: [run_evolve] fails and the island has the new
    algorithm and the old population. *)
Lemma run_evolve_half_installed :
  let s := with_installs [None; Some bad_alloc]
             (boot (Demo.parent_env Demo.task_ok None) Demo.island0
                [] [] Demo.ragged_reads (oarchive Demo.result_ok)) in
  isl s = mk_island [x02] [x03] /\
  fst (run_evolve s) = Throw bad_alloc /\
  isl (snd (run_evolve s)) = mk_island [x01; x02] [x03] /\
  ~ (fst (run_evolve s) <> Normal tt -> isl (snd (run_evolve s)) = isl s).
Proof.
  intros s.
  assert (Ho : fst (run_evolve s) = Throw bad_alloc) by (vm_compute; reflexivity).
  assert (Hi : isl (snd (run_evolve s)) = mk_island [x01; x02] [x03])
    by (vm_compute; reflexivity).
  split; [reflexivity|]. split; [exact Ho|]. split; [exact Hi|].
  intros H. rewrite Ho, Hi in H. specialize (H ltac:(discriminate)).
  discriminate H.
Qed.

Lemma run_evolve_reports_unknown_failure_witness :
  Demo.task_crashes [x02] [x03] = Raised unknown_exception /\
  exists s',
    fork_island_call (Demo.parent_env Demo.task_crashes None) Demo.island0
      [None; None] Demo.ragged_reads [None; None] [None; None] [None]
    = Ends (Throw (ChildTaskFailed EmptyString)) s'.
Proof.
  split; [reflexivity|].
  destruct (run_evolve_reports_unknown_failure
              (Demo.parent_env Demo.task_crashes None) Demo.island0
              [None; None] Demo.ragged_reads [None; None] [None; None] [None]
              (demo_parent_process _ _) (demo_fds _ _)
              ltac:(repeat constructor) ltac:(repeat constructor)
              ltac:(repeat constructor) ltac:(repeat constructor)
              ltac:(repeat constructor)
              eq_refl eq_refl
              ltac:(vm_compute; reflexivity)) as (s' & H1 & _).
  exists s'. exact H1.
Defined.

(** A parent whose first [read] fails with [EIO]. *)
Lemma parent_failure_kills_child_and_rethrows_witness :
  let s := Demo.forked (Demo.parent_env Demo.task_ok (Some 3)) [] []
             [ReadFail 5] [] in
  fst (parent_receive s) = Throw (SyscallFailure "read" 5) /\
  fst (try_catch parent_receive (parent_catch 4242) s)
  = Throw (SyscallFailure "read" 5) /\
  trace (snd (try_catch parent_receive (parent_catch 4242) s))
  = trace (snd (parent_receive s)) ++ [(SysKill 4242 15, -1)].
Proof.
  intros s.
  assert (H : parent_receive s
              = (Throw (SyscallFailure "read" 5), snd (parent_receive s)))
    by (vm_compute; reflexivity).
  split; [rewrite H; reflexivity|].
  destruct (parent_failure_kills_child_and_rethrows 4242 s _ _ H)
    as (H1 & H2 & _).
  split; [exact H1|exact H2].
Defined.

(** A destructor whose [close] fails; a parent whose [read] and [kill] both
    fail; a child that cannot copy the error text; a child that cannot
    build the default results. *)
Lemma double_fault_exits_witness :
  (let s := Demo.forked (Demo.parent_env Demo.task_ok None) [Some 9] [] [] [] in
   fst (pipe_t_dtor s) = Exit 1 /\
   cerr (snd (pipe_t_dtor s)) = [dtor_msg]) /\
  (let s := Demo.forked (Demo.parent_env Demo.task_ok (Some 1)) [] []
              [ReadFail 5] [] in
   fst (parent 4242 s) = Exit 1 /\
   cerr (snd (parent 4242 s)) = [parent_fatal_msg]) /\
  (let s := Demo.forked (Demo.child_env Demo.task_throws true false) [] [] [] [] in
   fst (child s) = Exit 1 /\ cerr (snd (child s)) = [fatal_msg]) /\
  (let s := Demo.forked (Demo.child_env Demo.task_throws false true) [] [] [] [] in
   fst (child s) = Exit 1 /\ cerr (snd (child s)) = [fatal_msg]).
Proof.
  destruct double_fault_exits as (Hd & _ & _ & Hp & Hc & Hr & _).
  split; [|split; [|split]]; intros s.
  - assert (H : bind close_r (fun _ => close_w) s
                = (Throw (SyscallFailure "close" 9),
                   snd (bind close_r (fun _ => close_w) s)))
      by (vm_compute; reflexivity).
    rewrite (Hd s _ _ H). split; reflexivity.
  - assert (H : parent_receive s
                = (Throw (SyscallFailure "read" 5), snd (parent_receive s)))
      by (vm_compute; reflexivity).
    destruct (Hp 4242 s _ _ H eq_refl) as [H1 H2].
    split; [exact H1|rewrite H2; reflexivity].
  - assert (H : child_evolve s
                = (Throw (std_exception "bounds violated"),
                   snd (child_evolve s)))
      by (vm_compute; reflexivity).
    rewrite (Hc s _ _ H ltac:(discriminate) eq_refl). split; reflexivity.
  - assert (H1 : try_catch child_evolve child_catch s
                 = (Normal tt, snd (try_catch child_evolve child_catch s)))
      by (vm_compute; reflexivity).
    assert (H2 : child_report
                   (with_m (set0 1 (m (snd (try_catch child_evolve child_catch s))))
                      (snd (try_catch child_evolve child_catch s)))
                 = (Throw bad_alloc,
                    snd (child_report
                           (with_m (set0 1 (m (snd (try_catch child_evolve
                                                     child_catch s))))
                              (snd (try_catch child_evolve child_catch s))))))
      by (vm_compute; reflexivity).
    rewrite (Hr s _ _ _ H1 H2). split; reflexivity.
Defined.

(** A read end whose [close] fails with [EIO]. *)
Lemma close_failure_leaves_flag_open_witness :
  let s := Demo.forked (Demo.parent_env Demo.task_ok None) [Some 5] [] [] [] in
  r_status (p s) = true /\ hd None (closes s) = Some 5 /\
  fst (close_r s) = Throw (SyscallFailure "close" 5) /\
  r_status (p (snd (close_r s))) = true /\
  exists r t,
    trace (snd (pipe_t_dtor (snd (close_r s))))
    = trace (snd (close_r s)) ++ (SysClose 3, r) :: t.
Proof.
  intros s. split; [reflexivity|]. split; [reflexivity|].
  destruct (close_failure_leaves_flag_open s) as [Hr _].
  destruct (Hr eq_refl) as [Hfail _].
  destruct (Hfail 5 eq_refl) as (H1 & H2 & _ & H4).
  split; [exact H1|]. split; [rewrite H2; reflexivity|].
  destruct (H4 (snd (close_r s)) H2) as [_ Hd]. exact Hd.
Defined.

(** The read end fails to close with [EIO] after a good message arrived. *)
Lemma close_failure_after_decode_discards_result_witness :
  iarchive (oarchive Demo.result_ok) = inr Demo.result_ok /\
  get0 Demo.result_ok = 0 /\
  fst (run_evolve (boot (Demo.parent_env Demo.task_ok None) Demo.island0
                     [None; Some 5] [] Demo.ragged_reads
                     (oarchive Demo.result_ok)))
  = Throw (SyscallFailure "close" 5) /\
  isl (snd (run_evolve (boot (Demo.parent_env Demo.task_ok None) Demo.island0
                          [None; Some 5] [] Demo.ragged_reads
                          (oarchive Demo.result_ok))))
  = Demo.island0.
Proof.
  assert (Hcodec : iarchive (oarchive Demo.result_ok) = inr Demo.result_ok)
    by (vm_compute; reflexivity).
  split; [exact Hcodec|]. split; [reflexivity|].
  destruct (close_failure_after_decode_discards_result
              (Demo.parent_env Demo.task_ok None) Demo.island0
              [None; Some 5] Demo.ragged_reads (oarchive Demo.result_ok)
              Demo.result_ok 5 eq_refl eq_refl ltac:(repeat constructor) Hcodec)
    as [_ Hrun].
  destruct (Hrun (demo_parent_process _ _)) as (H1 & H2 & _).
  split; [exact H1|exact H2].
Defined.

(** ** Further properties at work *)

(** [pipe] fails with [EMFILE]. *)
Lemma pipe_failure_raises_witness :
  let e := mk_env (inl 24) (inr 4242) None Demo.task_ok false false in
  pipe_reply e = inl 24 /\
  fst (run_evolve (boot e Demo.island0 [Some 9] [] [] []))
  = Throw (SyscallFailure "pipe" 24) /\
  trace (snd (run_evolve (boot e Demo.island0 [Some 9] [] [] [])))
  = [(SysPipe, -1)].
Proof.
  intros e. split; [reflexivity|].
  destruct (pipe_failure_raises e Demo.island0 [Some 9] [] [] [] 24 eq_refl)
    as (H1 & H2 & _).
  split; [exact H1|exact H2].
Defined.

(** [fork] fails with [EAGAIN]; the destructor's closes succeed. *)
Lemma fork_failure_closes_pipe_witness :
  let e := mk_env (inr (3, 4)) (inl 11) None Demo.task_ok false false in
  fst (run_evolve (boot e Demo.island0 [] [] [] []))
  = Throw (SyscallFailure "fork" 11) /\
  trace (snd (run_evolve (boot e Demo.island0 [] [] [] [])))
  = [(SysPipe, 0); (SysFork, -1); (SysClose 3, 0); (SysClose 4, 0)].
Proof.
  intros e.
  destruct (fork_failure_closes_pipe e Demo.island0 [] [] [] [] (3, 4) 11
              eq_refl eq_refl) as [Hok _].
  destruct (Hok eq_refl eq_refl) as (H1 & H2 & _).
  split; [exact H1|exact H2].
Defined.

(** A message with a non-zero status and a non-default payload. *)
Lemma parent_acts_on_status_witness :
  let ms := mk_message 7 "odd" [x01] [x02] in
  iarchive (oarchive ms) = inr ms /\
  fst (run_evolve (boot (Demo.parent_env Demo.task_ok None) Demo.island0
                     [] [] Demo.ragged_reads (oarchive ms)))
  = Throw (ChildTaskFailed "odd") /\
  isl (snd (run_evolve (boot (Demo.parent_env Demo.task_ok None) Demo.island0
                          [] [] Demo.ragged_reads (oarchive ms))))
  = Demo.island0.
Proof.
  intros ms.
  assert (Hcodec : iarchive (oarchive ms) = inr ms) by (vm_compute; reflexivity).
  split; [exact Hcodec|].
  destruct (parent_acts_on_status (Demo.parent_env Demo.task_ok None)
              Demo.island0 [] Demo.ragged_reads (oarchive ms) ms
              (demo_parent_process _ _) ltac:(constructor)
              ltac:(repeat constructor) Hcodec) as [_ Hbad].
  exact (Hbad ltac:(discriminate)).
Defined.

(** The child died before writing: the pipe is empty. *)
Lemma undecodable_reply_raises_witness :
  iarchive [] = inl Blob.short_read /\
  fst (run_evolve (boot (Demo.parent_env Demo.task_ok (Some 3)) Demo.island0
                     [] [] [] []))
  = Throw (std_exception Blob.short_read) /\
  isl (snd (run_evolve (boot (Demo.parent_env Demo.task_ok (Some 3))
                          Demo.island0 [] [] [] [])))
  = Demo.island0.
Proof.
  split; [reflexivity|].
  destruct (undecodable_reply_raises (Demo.parent_env Demo.task_ok (Some 3))
              Demo.island0 [] [] [] Blob.short_read
              (demo_parent_process _ _) eq_refl ltac:(constructor) eq_refl)
    as (H1 & H2 & _).
  split; [exact H1|exact H2].
Defined.

(** The first [read] fails with [EIO]. *)
Lemma read_failure_raises_witness :
  fst (run_evolve (boot (Demo.parent_env Demo.task_ok None) Demo.island0
                     [] [] [ReadFail 5] [x01]))
  = Throw (SyscallFailure "read" 5) /\
  r_status (p (snd (run_evolve (boot (Demo.parent_env Demo.task_ok None)
                                  Demo.island0 [] [] [ReadFail 5] [x01]))))
  = false.
Proof.
  destruct (read_failure_raises (Demo.parent_env Demo.task_ok None)
              Demo.island0 [] [ReadFail 5] [x01] 5
              (demo_parent_process _ _) eq_refl eq_refl)
    as (H1 & _ & _ & H4).
  split; [exact H1|]. exact (proj1 (H4 eq_refl eq_refl)).
Defined.

(** A run that throws: the read end fails to close once. *)
Lemma run_evolve_leaves_no_end_open_witness :
  let s := boot (Demo.parent_env Demo.task_ok None) Demo.island0
             [None; Some 5] [] [] (oarchive Demo.result_ok) in
  (forall code, fst (run_evolve s) <> Exit code) /\
  r_status (p (snd (run_evolve s))) = false /\
  w_status (p (snd (run_evolve s))) = false.
Proof.
  intros s.
  assert (H : forall code, fst (run_evolve s) <> Exit code)
    by (intros code; vm_compute; discriminate).
  split; [exact H|].
  exact (run_evolve_leaves_no_end_open _ _ _ _ _ _ H).
Defined.

(** The child's write end fails to close with [EINTR] after the success
    message went out. *)
Lemma child_close_failure_sends_second_message_witness :
  let ce := Demo.child_env Demo.task_ok false false in
  fst (child_run ce Demo.island0 [None; Some 4] []) = Exit 0 /\
  List.length (sent (snd (child_run ce Demo.island0 [None; Some 4] []))) = 2%nat.
Proof.
  intros ce.
  destruct (child_close_failure_sends_second_message ce Demo.island0
              [None; Some 4] [] [x01; x02] (Demo.evolved_pop ++ [x03]) 4
              (demo_child_process _ _ _) eq_refl eq_refl eq_refl
              ltac:(constructor) eq_refl eq_refl eq_refl)
    as (H1 & H2 & _).
  split; [exact H1|]. rewrite H2. reflexivity.
Defined.

(** The child's read end fails to close with [EIO]. *)
Lemma child_close_failure_reported_to_caller_witness :
  let e := Demo.parent_env Demo.task_ok None in
  exists s',
    fork_island_call e Demo.island0 [] [] [] [Some 5] []
    = Ends (Throw (ChildTaskFailed (what (SyscallFailure "close" 5)))) s' /\
    isl s' = Demo.island0.
Proof.
  intros e.
  destruct (child_close_failure_reported_to_caller e Demo.island0
              [] [] [] [Some 5] [] 5
              (demo_parent_process _ _) (demo_fds _ _)
              ltac:(constructor) ltac:(constructor) ltac:(constructor)
              eq_refl eq_refl
              ltac:(constructor) eq_refl eq_refl
              ltac:(vm_compute; reflexivity))
    as (_ & _ & H3).
  exact H3.
Defined.

(** A message whose encoding has exactly 2048 bytes: three writes, the last
    one empty. *)
Lemma send_message_write_count_witness :
  let ms := mk_message 0 EmptyString [] (repeat x07 2020) in
  let s := Demo.forked (Demo.child_env Demo.task_ok false false) [] [] [] [] in
  List.length (oarchive ms) = 2048%nat /\
  exists chunks,
    trace (snd (send_message ms s)) = trace s ++ map (write_ok 4) chunks /\
    List.length chunks = 3%nat /\ last chunks [x00] = [].
Proof.
  intros ms s.
  assert (Hlen : List.length (oarchive ms) = 2048%nat)
    by (vm_compute; reflexivity).
  split; [exact Hlen|].
  destruct (send_message_write_count ms s ltac:(constructor))
    as (chunks & _ & Ht & _ & Hcount & _ & Hlast).
  exists chunks. split; [exact Ht|].
  rewrite Hlen in Hcount, Hlast.
  change (S (2048 / 1024)) with 3%nat in Hcount.
  change (2048 mod 1024)%nat with 0%nat in Hlast.
  split; [exact Hcount|].
  destruct chunks as [|c0 [|c1 [|c2 [|c3 cs]]]]; try discriminate.
  cbn [last] in *. destruct c2; [reflexivity|discriminate].
Defined.

Lemma calls_after_fork_witness :
  let e := Demo.parent_env Demo.task_ok None in
  outbox (trace (snd (run_evolve (boot e Demo.island0 [] [] [ReadFail 5] []))))
  = [].
Proof.
  intros e.
  destruct (calls_after_fork e Demo.island0 [] [] [ReadFail 5] [] (3, 4) 4242
              eq_refl eq_refl ltac:(discriminate)) as (t & _ & _ & H).
  exact (H ltac:(discriminate)).
Defined.

Lemma normal_return_means_success_witness :
  let s := boot (Demo.parent_env Demo.task_ok None) Demo.island0
             [] [] Demo.ragged_reads (oarchive Demo.result_ok) in
  fst (run_evolve s) = Normal tt /\
  get0 (m (snd (run_evolve s))) = 0 /\
  isl (snd (run_evolve s))
  = mk_island (get2 (m (snd (run_evolve s)))) (get3 (m (snd (run_evolve s)))).
Proof.
  intros s.
  assert (H : fst (run_evolve s) = Normal tt) by (vm_compute; reflexivity).
  split; [exact H|].
  destruct (normal_return_means_success _ _ _ _ _ _ H)
    as (fds & pid & t & _ & _ & _ & _ & _ & _ & H1 & H2).
  split; [exact H1|exact H2].
Defined.

(** The child wrote one byte: the parent closes its write end, reads the
    byte, reads the end of the stream, fails to decode. *)
Lemma reads_follow_close_of_write_end_witness :
  let r := run_evolve (boot (Demo.parent_env Demo.task_ok None) Demo.island0
                         [] [] [] [x01]) in
  trace (snd r)
  = [(SysPipe, 0); (SysFork, 4242); (SysClose 4, 0)]
    ++ (SysRead 3 buffer_size, 1) :: skipn 4 (trace (snd r)) /\
  In (SysClose 4, 0) [(SysPipe, 0); (SysFork, 4242); (SysClose 4, 0)].
Proof.
  intros r.
  assert (H : trace (snd r)
              = [(SysPipe, 0); (SysFork, 4242); (SysClose 4, 0)]
                ++ (SysRead 3 buffer_size, 1) :: skipn 4 (trace (snd r)))
    by (vm_compute; reflexivity).
  split; [exact H|].
  destruct (reads_follow_close_of_write_end (Demo.parent_env Demo.task_ok None)
              Demo.island0 [] [] [] [x01] (3, 4) 4242 eq_refl eq_refl
              ltac:(discriminate) _ _ _ _ _ H) as (_ & _ & Hin).
  exact Hin.
Defined.

(** The message arrives; [set_algorithm] returns, [set_population] throws. *)
Lemma setter_failure_propagates_witness :
  let r := run_evolve
             (with_installs [None; Some bad_alloc]
                (boot (Demo.parent_env Demo.task_ok None) Demo.island0
                   [] [] Demo.ragged_reads (oarchive Demo.result_ok))) in
  iarchive (oarchive Demo.result_ok) = inr Demo.result_ok /\
  fst r = Throw bad_alloc /\
  isl (snd r) = mk_island [x01; x02] [x03].
Proof.
  intros r.
  assert (Hcodec : iarchive (oarchive Demo.result_ok) = inr Demo.result_ok)
    by (vm_compute; reflexivity).
  split; [exact Hcodec|].
  destruct (setter_failure_propagates (Demo.parent_env Demo.task_ok None)
              Demo.island0 [] Demo.ragged_reads [None; Some bad_alloc]
              (oarchive Demo.result_ok) Demo.result_ok
              (demo_parent_process _ _) ltac:(constructor)
              ltac:(repeat constructor) Hcodec eq_refl) as [_ H2].
  destruct (H2 bad_alloc eq_refl eq_refl) as (Ho & Hi & _).
  split; [exact Ho|exact Hi].
Defined.
